(** * gfx/font.go: glyph atlas, font cache and text mesh

    A shallow embedding of [font.go] (package [gfx]) together with the
    parts of [cubemap.go] and [shapes.go] it uses.  Go's fixed-width
    integers are integers of [Z] with the wrap-around written out, Go's
    [float32] and [float64] are the IEEE 754 binary formats of
    [SpecFloat], the font cache is a finite map, and the functions that
    can panic or return an [error] return an [outcome]. *)

From Stdlib Require Import ZArith List Bool Lia String Ascii.
From Stdlib Require Import SpecFloat.
From stdpp Require Import gmap strings list.

Local Open Scope Z_scope.

(* ===================================================================== *)
(** ** Fixed-width integers *)
(* ===================================================================== *)

(** Two's-complement reduction of [z] to [w] bits (signed). *)
Definition wrap (w : Z) (z : Z) : Z :=
  (z + 2 ^ (w - 1)) mod 2 ^ w - 2 ^ (w - 1).

(** Go's [int32], and [int] on the 64-bit targets. *)
Definition int32 (z : Z) : Z := wrap 32 z.
Definition int64 (z : Z) : Z := wrap 64 z.

Definition is_int32 (z : Z) : bool := (- 2 ^ 31 <=? z) && (z <? 2 ^ 31).
Definition is_int64 (z : Z) : bool := (- 2 ^ 63 <=? z) && (z <? 2 ^ 63).

(** Go's [uint8] (a byte of a string). *)
Definition uint8 (z : Z) : Z := z mod 256.

Definition minASCII : Z := 32.
(** [unicode.MaxASCII] is ['\u007F']. *)
Definition MaxASCII : Z := 127.

(* ===================================================================== *)
(** ** Floating point: binary32 and binary64 *)
(* ===================================================================== *)

Module F32.
Definition prec : Z := 24.
Definition emax : Z := 128.
Definition add := SFadd prec emax.
Definition sub := SFsub prec emax.
Definition div := SFdiv prec emax.
Definition ltb := SFltb.
(** [float32(i)] for an integer [i]: nearest, ties to even. *)
Definition of_Z (z : Z) : spec_float := binary_normalize prec emax z 0 false.
(** The binary32 nearest to [m * 2^e]. *)
Definition of_dyadic (m e : Z) : spec_float := binary_normalize prec emax m e false.
Definition zero : spec_float := S754_zero false.
End F32.

Module F64.
Definition prec : Z := 53.
Definition emax : Z := 1024.
Definition add := SFadd prec emax.
Definition sub := SFsub prec emax.
Definition mul := SFmul prec emax.
Definition div := SFdiv prec emax.
Definition opp := SFopp.
Definition of_Z (z : Z) : spec_float := binary_normalize prec emax z 0 false.
Definition of_dyadic (m e : Z) : spec_float := binary_normalize prec emax m e false.

(** [float64(x)] for a [float32] [x]: exact. *)
Definition of_f32 (x : spec_float) : spec_float :=
  match x with
  | S754_finite s m e => binary_normalize prec emax (cond_Zopp s (Zpos m)) e s
  | _ => x
  end.

(** [float32(x)] for a [float64] [x]: nearest, ties to even. *)
Definition to_f32 (x : spec_float) : spec_float :=
  match x with
  | S754_finite s m e => binary_normalize F32.prec F32.emax (cond_Zopp s (Zpos m)) e s
  | _ => x
  end.

(** [math.Round]: nearest integer, halves away from zero; the sign of
    the argument is kept on a zero result. *)
Definition Round (x : spec_float) : spec_float :=
  match x with
  | S754_finite s m e =>
      if 0 <=? e then x
      else
        let k := - e in
        let q := Z.shiftr (Zpos m) k in
        let r := Z.land (Zpos m) (Z.ones k) in
        let q' := if 2 ^ k <=? 2 * r then q + 1 else q in
        binary_normalize prec emax (cond_Zopp s q') 0 s
  | _ => x
  end.

(** [math.Ceil]: least integer not below the argument. *)
Definition Ceil (x : spec_float) : spec_float :=
  match x with
  | S754_finite s m e =>
      if 0 <=? e then x
      else
        let k := - e in
        let q := Z.shiftr (Zpos m) k in
        let r := Z.land (Zpos m) (Z.ones k) in
        let q' := if s then q else if r =? 0 then q else q + 1 in
        binary_normalize prec emax (cond_Zopp s q') 0 s
  | _ => x
  end.

(** The integer part of a finite float, truncated toward zero. *)
Definition trunc (x : spec_float) : option Z :=
  match x with
  | S754_zero _ => Some 0
  | S754_finite s m e =>
      Some (cond_Zopp s (if 0 <=? e then Z.shiftl (Zpos m) e
                         else Z.shiftr (Zpos m) (- e)))
  | _ => None
  end.
End F64.

(** [int32(x)] for a [float64] [x]: the fraction is discarded; when the
    value does not fit (or is not a number) the Go specification leaves
    the result to the implementation, here [oor x] reduced to 32 bits. *)
Definition float64_to_int32 (oor : spec_float -> Z) (x : spec_float) : Z :=
  match F64.trunc x with
  | Some z => if is_int32 z then z else int32 (oor x)
  | None => int32 (oor x)
  end.

(* ===================================================================== *)
(** ** Outcomes of Go calls *)
(* ===================================================================== *)

(** Errors returned by [LoadFontTexture]: its own wrapped
    [ErrNoFontGlyph], or an error handed up from a library call. *)
Inductive error : Type :=
| ErrNoFontGlyph (fontName : string) (fontSize : Z) (c : Z)
| ErrLibrary (code : Z).

(** A call returns, returns a non-nil [error], or panics at run time
    (index or slice out of range, division by zero, nil dereference). *)
Inductive outcome (A : Type) : Type :=
| Ok (a : A)
| Err (e : error)
| Panic.
Arguments Ok {A} a.
Arguments Err {A} e.
Arguments Panic {A}.

Definition obind {A B : Type} (m : outcome A) (k : A -> outcome B) : outcome B :=
  match m with
  | Ok a => k a
  | Err e => Err e
  | Panic => Panic
  end.

Notation "'do' x <- m ; k" := (obind m (fun x => k))
  (at level 10, x pattern, m at level 100, k at level 200).

(* ===================================================================== *)
(** ** Strings *)
(* ===================================================================== *)

(** A Go string is a sequence of bytes; [len(str)] and [str[i]] work on
    the bytes. *)
Fixpoint str_bytes (s : string) : list Z :=
  match s with
  | EmptyString => []
  | String a s' => Z.of_nat (nat_of_ascii a) :: str_bytes s'
  end.

Definition RuneError : Z := 65533.

(** [decoderune] of the Go runtime, called by [for _, r := range str] at
    a byte that is not below [utf8.RuneSelf]: the rune at the head of [s]
    and the number of bytes it takes. *)
Definition decoderune (s : list Z) : Z * nat :=
  let cont b := (128 <=? b) && (b <=? 191) in
  match s with
  | b0 :: b1 :: rest =>
      if (192 <=? b0) && (b0 <? 224) then
        if cont b1 then
          let r := Z.lor (Z.shiftl (Z.land b0 31) 6) (Z.land b1 63) in
          if 127 <? r then (r, 2%nat) else (RuneError, 1%nat)
        else (RuneError, 1%nat)
      else if (224 <=? b0) && (b0 <? 240) then
        match rest with
        | b2 :: _ =>
            if cont b1 && cont b2 then
              let r := Z.lor (Z.lor (Z.shiftl (Z.land b0 15) 12)
                                    (Z.shiftl (Z.land b1 63) 6)) (Z.land b2 63) in
              if (2047 <? r) && negb ((55296 <=? r) && (r <=? 57343))
              then (r, 3%nat) else (RuneError, 1%nat)
            else (RuneError, 1%nat)
        | [] => (RuneError, 1%nat)
        end
      else if (240 <=? b0) && (b0 <? 248) then
        match rest with
        | b2 :: b3 :: _ =>
            if cont b1 && cont b2 && cont b3 then
              let r := Z.lor (Z.lor (Z.lor (Z.shiftl (Z.land b0 7) 18)
                                           (Z.shiftl (Z.land b1 63) 12))
                                    (Z.shiftl (Z.land b2 63) 6)) (Z.land b3 63) in
              if (65535 <? r) && (r <=? 1114111)
              then (r, 4%nat) else (RuneError, 1%nat)
            else (RuneError, 1%nat)
        | _ => (RuneError, 1%nat)
        end
      else (RuneError, 1%nat)
  | _ => (RuneError, 1%nat)
  end.

(** The runes that [for _, r := range str] yields, in order.  Every step
    consumes at least one byte, so [length s] steps are enough. *)
Fixpoint range_runes_from (fuel : nat) (s : list Z) : list Z :=
  match fuel, s with
  | S fuel', b :: rest =>
      if b <? 128 then b :: range_runes_from fuel' rest
      else let '(r, n) := decoderune s in
           r :: range_runes_from fuel' (drop n s)
  | _, _ => []
  end.

Definition range_runes (str : string) : list Z :=
  range_runes_from (length (str_bytes str)) (str_bytes str).

(* ===================================================================== *)
(** ** Data model *)
(* ===================================================================== *)

(** [AlignV] and [AlignH] are named [int] types. *)
Definition AlignAbove : Z := -1.
Definition AlignMiddle : Z := 0.
Definition AlignBelow : Z := 1.

Definition AlignLeft : Z := -1.
Definition AlignCenter : Z := 0.
Definition AlignRight : Z := 1.

Record Align : Type := { V : Z; H : Z }.

(** [shapes.go]. *)
Record Point : Type := { X : Z; Y : Z }.

Record runeInfo : Type := {
  row : Z;
  width : Z;
  height : Z;
  bearingX : spec_float;
  bearingY : spec_float;
  advance : spec_float
}.

Record metrics : Type := {
  Height : spec_float;
  Ascent : spec_float;
  Descent : spec_float;
  XHeight : spec_float;
  CapHeight : spec_float;
  CaretSlope : Z * Z
}.

(** [cubemap.go]: [Texture] wraps an OpenGL texture. *)
Record Texture : Type := {
  tex_id : Z;
  tex_width : Z;
  tex_height : Z;
  tex_format : Z;
  tex_alignment : Z;
  tex_texelSize : Z
}.

Record FontInfo : Type := {
  texture : Texture;
  runeMap : list runeInfo;
  font_metrics : metrics
}.

Definition GetTexture (font : FontInfo) : Texture := texture font.

(** [a[i]] on a slice: panics unless [0 <= i < len(a)]. *)
Definition index {A : Type} (a : list A) (i : Z) : outcome A :=
  if i <? 0 then Panic
  else match a !! Z.to_nat i with
       | Some x => Ok x
       | None => Panic
       end.

(** [a[lo:hi]] on a slice whose capacity is its length. *)
Definition slice {A : Type} (a : list A) (lo hi : Z) : outcome (list A) :=
  if (0 <=? lo) && (lo <=? hi) && (hi <=? Z.of_nat (length a))
  then Ok (take (Z.to_nat (hi - lo)) (drop (Z.to_nat lo) a))
  else Panic.

(* ===================================================================== *)
(** ** int26_6ToFloat32 *)
(* ===================================================================== *)

(** The two integers that [int26_6ToFloat32] converts: [x >> 6] and
    [x & 0x3F]. *)
Definition int26_6_top (x : Z) : Z := Z.shiftr x 6.
Definition int26_6_bottom (x : Z) : Z := Z.land x 63.

Definition int26_6ToFloat32 (x : Z) : spec_float :=
  let top := F32.of_Z (int26_6_top x) in
  let bottom := F32.div (F32.of_Z (int26_6_bottom x)) (F32.of_Z 64) in
  F32.add top bottom.

(** [fixed.Int26_6.Ceil]: [int((x + 0x3f) >> 6)]. *)
Definition Int26_6_Ceil (x : Z) : Z := Z.shiftr (int32 (x + 63)) 6.

(* ===================================================================== *)
(** ** MapString and CalcStringDims *)
(* ===================================================================== *)

(** [font.runeMap[r-minASCII]] for a rune [r] (an [int32]). *)
Definition rune_info (font : FontInfo) (r : Z) : outcome runeInfo :=
  index (runeMap font) (int32 (r - minASCII)).

(** [font.runeMap[str[len(str)-1]-minASCII]]: the index is computed on
    bytes ([uint8]). *)
Definition last_info (font : FontInfo) (str : string) : outcome runeInfo :=
  let bs := str_bytes str in
  do b <- index bs (Z.of_nat (length bs) - 1);
  index (runeMap font) (uint8 (b - minASCII)).

(** The first loop of [MapString]: [strWidth += info.advance]. *)
Fixpoint sum_advances (font : FontInfo) (rs : list Z) (strWidth : spec_float)
  : outcome spec_float :=
  match rs with
  | [] => Ok strWidth
  | r :: rs' =>
      do info <- rune_info font r;
      sum_advances font rs' (F32.add strWidth (advance info))
  end.

(** "adjust strWidth if last rune's width + bearingX > advance". *)
Definition adjust_last (lastInfo : runeInfo) (strWidth : spec_float) : spec_float :=
  let ink := F32.add (F32.of_Z (width lastInfo)) (bearingX lastInfo) in
  if F32.ltb (advance lastInfo) ink
  then F32.add strWidth (F32.sub ink (advance lastInfo))
  else strWidth.

(** Lines 96-105 of [MapString]: the total width of the string. *)
Definition string_width (font : FontInfo) (str : string) : outcome spec_float :=
  do strWidth <- sum_advances font (range_runes str) F32.zero;
  do lastInfo <- last_info font str;
  Ok (adjust_last lastInfo strWidth).

(** The six vertices of one glyph, four [float32]s each. *)
Definition glyph_triangles (info : runeInfo) (ox oy : spec_float) : list spec_float :=
  let posTLx := F32.add ox (bearingX info) in
  let posTLy := F32.add oy (F32.sub (F32.of_Z (height info)) (bearingY info)) in
  let posTRx := F32.add posTLx (F32.of_Z (width info)) in
  let posTRy := posTLy in
  let posBLx := posTLx in
  let posBLy := F32.sub oy (bearingY info) in
  let posBRx := posTRx in
  let posBRy := posBLy in
  let texTLx := F32.of_Z 0 in
  let texTLy := F32.of_Z (row info) in
  let texTRx := F32.of_Z (width info) in
  let texTRy := texTLy in
  let texBLx := texTLx in
  let texBLy := F32.add texTLy (F32.of_Z (height info)) in
  let texBRx := texTRx in
  let texBRy := texBLy in
  [ posBLx; posBLy; texBLx; texBLy;
    posTLx; posTLy; texTLx; texTLy;
    posTRx; posTRy; texTRx; texTRy;
    posBLx; posBLy; texBLx; texBLy;
    posTRx; posTRy; texTRx; texTRy;
    posBRx; posBRy; texBRx; texBRy ].

(** The second loop of [MapString]: append the triangles of each rune
    and move the origin by its advance. *)
Fixpoint emit_glyphs (font : FontInfo) (rs : list Z) (ox oy : spec_float)
    (buffer : list spec_float) : outcome (list spec_float) :=
  match rs with
  | [] => Ok buffer
  | r :: rs' =>
      do info <- rune_info font r;
      emit_glyphs font rs' (F32.add ox (advance info)) oy
                  (buffer ++ glyph_triangles info ox oy)
  end.

Section Mesh.
(** What [int32(x)] yields for a [float64] that does not fit. *)
Variable oor : spec_float -> Z.

(** Lines 107-108: [w2 := float64(strWidth) / 2.0] and
    [offx := int32(-w2 - float64(align.H)*w2)]. *)
Definition half_width (strWidth : spec_float) : spec_float :=
  F64.div (F64.of_f32 strWidth) (F64.of_Z 2).

Definition offx_of (strWidth : spec_float) (alignH : Z) : Z :=
  let w2 := half_width strWidth in
  float64_to_int32 oor (F64.sub (F64.opp w2) (F64.mul (F64.of_Z alignH) w2)).

(** Lines 109-117: the [switch align.V]. *)
Definition offy_of (font : FontInfo) (alignV : Z) : spec_float :=
  let m := font_metrics font in
  if alignV =? AlignBelow then
    SFopp (F64.to_f32 (F64.Ceil (F64.of_f32 (Ascent m))))
  else if alignV =? AlignMiddle then
    F32.div (SFopp (XHeight m)) (F32.of_Z 2)
  else if alignV =? AlignAbove then
    F64.to_f32 (F64.Ceil (F64.of_f32 (Descent m)))
  else F32.zero.

Definition MapString (font : FontInfo) (str : string) (pos : Point) (align : Align)
  : outcome (list spec_float) :=
  do strWidth <- string_width font str;
  let offx := offx_of strWidth (H align) in
  let offy := offy_of font (V align) in
  let originx := F32.of_Z (int32 (X pos + offx)) in
  let originy := F32.add (F32.of_Z (Y pos)) offy in
  emit_glyphs font (range_runes str) originx originy [].
End Mesh.

(** The loop of [CalcStringDims]; [largestBearingY] is computed and not
    used. *)
Fixpoint dims_loop (font : FontInfo) (rs : list Z) (strWidth largestBearingY : spec_float)
  : outcome (spec_float * spec_float) :=
  match rs with
  | [] => Ok (strWidth, largestBearingY)
  | r :: rs' =>
      do info <- rune_info font r;
      let largestBearingY' :=
        if F32.ltb largestBearingY (bearingY info) then bearingY info
        else largestBearingY in
      dims_loop font rs' (F32.add strWidth (advance info)) largestBearingY'
  end.

Definition CalcStringDims (font : FontInfo) (str : string)
  : outcome (spec_float * spec_float) :=
  do acc <- dims_loop font (range_runes str) F32.zero F32.zero;
  let strWidth := fst acc in
  do lastInfo <- last_info font str;
  Ok (F64.of_f32 (adjust_last lastInfo strWidth), F64.of_f32 (Height (font_metrics font))).

(* ===================================================================== *)
(** ** The rasterizer, the device and the font cache *)
(* ===================================================================== *)

(** [image.Rectangle] (coordinates are [int]) and
    [fixed.Rectangle26_6] (coordinates are [fixed.Int26_6]). *)
Record Rectangle : Type := { Min_X : Z; Min_Y : Z; Max_X : Z; Max_Y : Z }.

Definition Dx (r : Rectangle) : Z := int64 (Max_X r - Min_X r).
Definition Dy (r : Rectangle) : Z := int64 (Max_Y r - Min_Y r).

(** [image.Alpha]: the pixel bytes and the stride between rows. *)
Record Alpha : Type := { Pix : list Z; Stride : Z }.

(** What [face.Glyph(dot, c)] returns; [g_mask] is [None] when the mask
    is not an [*image.Alpha]. *)
Record GlyphResult : Type := {
  g_dr : Rectangle;
  g_mask : option Alpha;
  g_maskp : Z * Z;
  g_advance : Z;
  g_ok : bool
}.

(** What [face.GlyphBounds(c)] returns. *)
Record BoundsResult : Type := {
  b_bounds : Rectangle;
  b_advance : Z;
  b_ok : bool
}.

(** A [font.Face] at a fixed size, by what the atlas builder asks of it. *)
Record Face : Type := {
  Glyph : Z -> GlyphResult;
  GlyphBounds : Z -> BoundsResult
}.

(** [font.Metrics], in 26.6 fixed point. *)
Record FixedMetrics : Type := {
  m_Height : Z;
  m_Ascent : Z;
  m_Descent : Z;
  m_XHeight : Z;
  m_CapHeight : Z;
  m_CaretSlope : Z * Z
}.

(** A parsed [truetype.Font] is what [truetype.NewFace] makes of it at a
    size; a parsed [sfnt.Font] is what [opentype.NewFace] followed by
    [Metrics] makes of it at a size. *)
Definition ttfFont : Type := Z -> Face.
Definition sfntFont : Type := Z -> outcome FixedMetrics.

(** The libraries and the device behind one call of [LoadFontTexture]. *)
Record Env : Type := {
  ReadFile : string -> outcome (list Z);
  truetype_Parse : list Z -> outcome ttfFont;
  sfnt_Parse : list Z -> outcome sfntFont;
  GenTextures : Z
}.

(** Work that reaches outside the process. *)
Inductive event : Type :=
| EvReadFile (name : string)
| EvGlyph (c : Z)
| EvGlyphBounds (c : Z)
| EvTexImage2D (id width height : Z) (data : list Z)
| EvTexParameteri (id paramName param : Z).

Definition fontKey : Type := (string * Z)%type.

(** The package state: [fontMap] ([None] while it is [nil]) and the work
    done so far. *)
Record World : Type := {
  fontMap : option (gmap (string * Z) FontInfo);
  trace : list event
}.

(** [fontMap[k]], which also reads a [nil] map. *)
Definition cache_lookup (w : World) (k : fontKey) : option FontInfo :=
  match fontMap w with
  | Some m => m !! k
  | None => None
  end.

(** State and outcome. *)
Definition M (A : Type) : Type := World -> outcome A * World.

Definition mret {A : Type} (a : A) : M A := fun w => (Ok a, w).

Definition mbind {A B : Type} (m : M A) (k : A -> M B) : M B :=
  fun w =>
    match m w with
    | (Ok a, w') => k a w'
    | (Err e, w') => (Err e, w')
    | (Panic, w') => (Panic, w')
    end.

Definition lift {A : Type} (o : outcome A) : M A := fun w => (o, w).

Definition emit (ev : event) : M unit :=
  fun w => (Ok tt, {| fontMap := fontMap w; trace := trace w ++ [ev] |}).

Notation "x <~ m ; k" := (mbind m (fun x => k))
  (at level 10, m at level 100, k at level 200).

Definition uint32 (z : Z) : Z := z mod 2 ^ 32.

Definition gl_RED : Z := 6403.
Definition gl_TEXTURE_MAG_FILTER : Z := 10240.
Definition gl_TEXTURE_MIN_FILTER : Z := 10241.
Definition gl_NEAREST : Z := 9728.

(** [cubemap.go], [NewTexture]: the error it returns is always [nil].
    A byte slice built by [append] alone is [nil] exactly when it is
    empty, so [&data[0]] is taken of a non-empty slice. *)
Definition NewTexture (env : Env) (width height : Z) (data : list Z)
    (format alignment texelSize : Z) : M Texture :=
  let t := {| tex_id := GenTextures env;
              tex_width := width;
              tex_height := height;
              tex_format := uint32 format;
              tex_alignment := alignment;
              tex_texelSize := texelSize |} in
  _ <~ emit (EvTexImage2D (tex_id t) width height data);
  mret t.

Definition SetParameter (t : Texture) (paramName param : Z) : M unit :=
  emit (EvTexParameteri (tex_id t) paramName param).

(** Lines 224-229: copy [n] rows of the mask, from row [r] on. *)
Fixpoint copy_rows (glyph : Alpha) (maskpY : Z) (n : nat) (r : Z)
    (glyphBytes : list Z) (currentIndex : Z) : outcome (list Z * Z) :=
  match n with
  | O => Ok (glyphBytes, currentIndex)
  | S n' =>
      let beg := int64 (int64 (maskpY + r) * Stride glyph) in
      let end_ := int64 (int64 (int64 (maskpY + r) + 1) * Stride glyph) in
      do bytes <- slice (Pix glyph) beg end_;
      copy_rows glyph maskpY n' (r + 1) (glyphBytes ++ bytes) (int32 (currentIndex + 1))
  end.

(** The variables the glyph loop updates. *)
Record atlas : Type := {
  a_runeMap : list runeInfo;
  a_glyphBytes : list Z;
  a_currentIndex : Z
}.

Definition zero_runeInfo : runeInfo :=
  {| row := 0; width := 0; height := 0;
     bearingX := F32.zero; bearingY := F32.zero; advance := F32.zero |}.

(** Lines 214-221: the glyph record. *)
Definition make_runeInfo (currentIndex : Z) (roundedRect accurateRect : Rectangle)
    (adv : Z) : runeInfo :=
  {| row := currentIndex;
     width := int32 (Dx roundedRect);
     height := int32 (Dy roundedRect);
     bearingX := F64.to_f32 (F64.Round (F64.of_Z (Int26_6_Ceil (Min_X accurateRect))));
     bearingY := F32.of_Z (Int26_6_Ceil (Max_Y accurateRect));
     advance := F64.to_f32 (F64.Round (F64.of_f32 (int26_6ToFloat32 adv))) |}.

(** One turn of the loop of lines 201-230, for the character [i]. *)
Definition glyph_step (fontName : string) (fontSize : Z) (face : Face) (i : Z)
    (a : atlas) : M atlas :=
  let c := int32 i in
  _ <~ emit (EvGlyph c);
  let g := Glyph face c in
  if negb (g_ok g) then lift (Err (ErrNoFontGlyph fontName fontSize c))
  else
    _ <~ emit (EvGlyphBounds c);
    let b := GlyphBounds face c in
    match g_mask g with
    | Some glyph =>
        if negb (b_ok b) then lift (Err (ErrNoFontGlyph fontName fontSize c))
        else
          let info := make_runeInfo (a_currentIndex a) (g_dr g) (b_bounds b) (g_advance g) in
          let runeMap' := <[Z.to_nat (i - minASCII) := info]> (a_runeMap a) in
          res <~ lift (copy_rows glyph (snd (g_maskp g)) (Z.to_nat (Dy (g_dr g))) 0
                                 (a_glyphBytes a) (a_currentIndex a));
          mret {| a_runeMap := runeMap';
                  a_glyphBytes := fst res;
                  a_currentIndex := snd res |}
    | None => lift (Err (ErrNoFontGlyph fontName fontSize c))
    end.

(** [for i := minASCII; i < unicode.MaxASCII; i++], with [n] turns left. *)
Fixpoint glyph_loop (fontName : string) (fontSize : Z) (face : Face) (n : nat) (i : Z)
    (a : atlas) : M atlas :=
  match n with
  | O => mret a
  | S n' =>
      a' <~ glyph_step fontName fontSize face i a;
      glyph_loop fontName fontSize face n' (i + 1) a'
  end.

Definition numRunes : nat := Z.to_nat (MaxASCII - minASCII).

(** Lines 179-269: the path taken when the key is not in the cache. *)
Definition build_font (env : Env) (fontName : string) (fontSize : Z) : M FontInfo :=
  _ <~ emit (EvReadFile fontName);
  fontBytes <~ lift (ReadFile env fontName);
  ttf <~ lift (truetype_Parse env fontBytes);
  let face := ttf fontSize in
  _ <~ emit (EvReadFile fontName);
  fontBytes2 <~ lift (ReadFile env fontName);
  sfnt <~ lift (sfnt_Parse env fontBytes2);
  a <~ glyph_loop fontName fontSize face numRunes minASCII
         {| a_runeMap := replicate numRunes zero_runeInfo;
            a_glyphBytes := [];
            a_currentIndex := 0 |};
  _ <~ emit (EvGlyph 65);
  let gA := Glyph face 65 in
  if negb (g_ok gA) then lift (Err (ErrNoFontGlyph fontName fontSize 65))
  else
    match g_mask gA with
    | None => lift Panic
    | Some glyph =>
        let texWidth := int32 (Stride glyph) in
        if Stride glyph =? 0 then lift Panic
        else
          let texHeight :=
            int32 (int64 (Z.quot (Z.of_nat (length (a_glyphBytes a))) (Stride glyph))) in
          fontTexture <~ NewTexture env texWidth texHeight (a_glyphBytes a) gl_RED 1 1;
          _ <~ SetParameter fontTexture gl_TEXTURE_MIN_FILTER gl_NEAREST;
          _ <~ SetParameter fontTexture gl_TEXTURE_MAG_FILTER gl_NEAREST;
          otfMetrics <~ lift (sfnt fontSize);
          let metrics :=
            {| Height := int26_6ToFloat32 (m_Height otfMetrics);
               Ascent := int26_6ToFloat32 (m_Ascent otfMetrics);
               Descent := int26_6ToFloat32 (m_Descent otfMetrics);
               XHeight := int26_6ToFloat32 (m_XHeight otfMetrics);
               CapHeight := int26_6ToFloat32 (m_CapHeight otfMetrics);
               CaretSlope := m_CaretSlope otfMetrics |} in
          mret {| texture := fontTexture;
                  runeMap := a_runeMap a;
                  font_metrics := metrics |}
    end.

Definition LoadFontTexture (env : Env) (fontName : string) (fontSize : Z) : M FontInfo :=
  fun w =>
    let m := match fontMap w with
             | Some m => m
             | None => ∅
             end in
    let w1 := {| fontMap := Some m; trace := trace w |} in
    match m !! (fontName, fontSize) with
    | Some val => (Ok val, w1)
    | None =>
        match build_font env fontName fontSize w1 with
        | (Ok InfoLoaded, w2) =>
            let m2 := match fontMap w2 with
                      | Some m2 => m2
                      | None => ∅
                      end in
            (Ok InfoLoaded,
             {| fontMap := Some (<[(fontName, fontSize) := InfoLoaded]> m2);
                trace := trace w2 |})
        | r => r
        end
    end.

(* ===================================================================== *)
(** ** Values a float format holds exactly *)
(* ===================================================================== *)

(** [M * 2^E] has a normal representation with [prec] bits. *)
Definition fits (prec emax M E : Z) : Prop :=
  Zdigits2 M <= prec /\
  emin prec emax <= E - (prec - Zdigits2 M) /\
  E + Zdigits2 M <= emax.

(** The float nearest to [M * 2^E]. *)
Definition fl (prec emax M E : Z) : spec_float := binary_normalize prec emax M E false.

(** The mantissa and the exponent of the normal representation. *)
Definition cmant (prec M : Z) : positive :=
  Z.to_pos (Z.abs M * 2 ^ (prec - Zdigits2 M)).
Definition cexp (prec M E : Z) : Z := E - (prec - Zdigits2 M).

(** The float [f] is finite and its value is [M * 2^E]: compared at the
    smaller of the two exponents. *)
Definition exactly (f : spec_float) (M E : Z) : Prop :=
  match f with
  | S754_zero _ => M = 0
  | S754_finite s m e =>
      cond_Zopp s (Zpos m) * 2 ^ (e - Z.min e E) = M * 2 ^ (E - Z.min e E)
  | _ => False
  end.

(* ===================================================================== *)
(** ** The specification's side *)
(* ===================================================================== *)

(** The supported range of a font: the 7-bit character codes from
    [minASCII] on that have a glyph record. *)
Definition supported (font : FontInfo) (b : Z) : bool :=
  (minASCII <=? b) && (b <? 128) && (b - minASCII <? Z.of_nat (length (runeMap font))).

Definition all_supported (font : FontInfo) (str : string) : bool :=
  forallb (supported font) (str_bytes str).

(** The glyph record of a character, and those of a string. *)
Definition glyph_of (font : FontInfo) (b : Z) : runeInfo :=
  nth (Z.to_nat (b - minASCII)) (runeMap font) zero_runeInfo.

Definition glyphs (font : FontInfo) (str : string) : list runeInfo :=
  map (glyph_of font) (str_bytes str).

(** Section 4.3, steps 1 and 2: the sum of the advances, plus the excess
    [bearingX + width - advance] of the last glyph when its
    [bearingX + width] exceeds its [advance]. *)
Definition spec_total_width (gs : list runeInfo) : spec_float :=
  let total := fold_left (fun acc g => F32.add acc (advance g)) gs F32.zero in
  match last gs with
  | Some l =>
      let ink := F32.add (bearingX l) (F32.of_Z (width l)) in
      if F32.ltb (advance l) ink then F32.add total (F32.sub ink (advance l)) else total
  | None => total
  end.

(** Section 4.4: [measure(atlas, text)]. *)
Definition spec_measure (font : FontInfo) (str : string) : spec_float * spec_float :=
  (F64.of_f32 (spec_total_width (glyphs font str)),
   F64.of_f32 (Height (font_metrics font))).

(** Section 4.3, step 3: [-halfWidth - alignment.horizontal * halfWidth]
    with [halfWidth = totalWidth / 2]. *)
Definition spec_hoffset (totalWidth : spec_float) (horizontal : Z) : spec_float :=
  let halfWidth := F64.div (F64.of_f32 totalWidth) (F64.of_Z 2) in
  F64.sub (F64.opp halfWidth) (F64.mul (F64.of_Z horizontal) halfWidth).

(** The offset that [MapString] adds to [pos.X]. *)
Definition applied_offset (oor : spec_float -> Z) (font : FontInfo) (str : string)
    (align : Align) : outcome Z :=
  do strWidth <- string_width font str;
  Ok (offx_of oor strWidth (H align)).

(** Section 4.3, steps 5 to 7: six vertices per glyph, in order, the pen
    moving by the advance. *)
Fixpoint mesh_of (gs : list runeInfo) (ox oy : spec_float) : list spec_float :=
  match gs with
  | [] => []
  | g :: gs' => glyph_triangles g ox oy ++ mesh_of gs' (F32.add ox (advance g)) oy
  end.

(** The [x] of every vertex of a flat [(x, y, s, t)] buffer. *)
Fixpoint vertex_xs (buffer : list spec_float) : list spec_float :=
  match buffer with
  | x :: _ :: _ :: _ :: rest => x :: vertex_xs rest
  | _ => []
  end.

Definition fmin (a b : spec_float) : spec_float := if F32.ltb b a then b else a.
Definition fmax (a b : spec_float) : spec_float := if F32.ltb a b then b else a.

Definition min_x (xs : list spec_float) : option spec_float :=
  match xs with
  | [] => None
  | x :: rest => Some (fold_left fmin rest x)
  end.

Definition max_x (xs : list spec_float) : option spec_float :=
  match xs with
  | [] => None
  | x :: rest => Some (fold_left fmax rest x)
  end.

(** Glyph metrics that are whole numbers. *)
Record glyphZ : Type := { zbx : Z; zw : Z; zadv : Z }.

Definition is_glyphZ (info : runeInfo) (g : glyphZ) : Prop :=
  bearingX info = F32.of_Z (zbx g) /\ width info = zw g /\ advance info = F32.of_Z (zadv g).

Definition total_advance (gs : list glyphZ) : Z :=
  fold_left (fun acc g => acc + zadv g) gs 0.

(** The total width of section 4.3, steps 1 and 2, in whole numbers. *)
Definition total_width (gs : list glyphZ) : Z :=
  total_advance gs +
  match last gs with
  | Some l => Z.max 0 (zbx l + zw l - zadv l)
  | None => 0
  end.

(** The [x] of the six vertices of each glyph, the pen starting at [pen]. *)
Fixpoint layout_xs (gs : list glyphZ) (pen : Z) : list Z :=
  match gs with
  | [] => []
  | g :: gs' =>
      let l := pen + zbx g in
      let r := l + zw g in
      [l; l; r; l; r; r] ++ layout_xs gs' (pen + zadv g)
  end.

Definition zmin_list (l : list Z) (d : Z) : Z := fold_left Z.min l d.
Definition zmax_list (l : list Z) (d : Z) : Z := fold_left Z.max l d.

(** Rounding a 26.6 fixed-point value to the nearest whole number,
    halves away from zero. *)
Definition round_half_away_26_6 (x : Z) : Z :=
  Z.sgn x * ((Z.abs x + 32) / 64).

(** Rows stacked without gap or overlap, in [int32] arithmetic. *)
Definition contiguous (rm : list runeInfo) : Prop :=
  (forall r0, rm !! 0%nat = Some r0 -> row r0 = 0) /\
  (forall i a b, rm !! i = Some a -> rm !! S i = Some b ->
                 row b = int32 (row a + height a)).

(** Every cached font satisfies [P]. *)
Definition cache_all (P : FontInfo -> Prop) (w : World) : Prop :=
  forall k font, cache_lookup w k = Some font -> P font.

(** The character codes of the supported range, in order. *)
Definition codes : list Z := map (fun i => minASCII + Z.of_nat i) (seq 0 numRunes).

(** The bounding rectangles of a face are well formed ([Min <= Max]). *)
Definition rects_ok (face : Face) : bool :=
  forallb (fun c => 0 <=? Dy (g_dr (Glyph face c))) codes.

(** All masks of a face share the stride [S], an [int]. *)
Definition stride_ok (face : Face) (S : Z) : bool :=
  is_int64 S &&
  forallb (fun c => match g_mask (Glyph face c) with
                    | Some a => Stride a =? S
                    | None => true
                    end) codes.

(** The number of bitmap rows of the whole range. *)
Definition total_rows (face : Face) : Z :=
  fold_left (fun acc c => acc + Dy (g_dr (Glyph face c))) codes 0.

(** The face that [LoadFontTexture] rasterizes with. *)
Definition face_of (env : Env) (fontName : string) (fontSize : Z) : option Face :=
  match ReadFile env fontName with
  | Ok fontBytes =>
      match truetype_Parse env fontBytes with
      | Ok ttf => Some (ttf fontSize)
      | _ => None
      end
  | _ => None
  end.

(* ===================================================================== *)
(** ** Example fonts *)
(* ===================================================================== *)

(** A font whose glyphs all have the same whole-number metrics. *)
Definition mono_glyph (bx by_ w h adv : Z) : runeInfo :=
  {| row := 0; width := w; height := h;
     bearingX := F32.of_Z bx; bearingY := F32.of_Z by_; advance := F32.of_Z adv |}.

Definition mono_font (bx by_ w h adv : Z) : FontInfo :=
  {| texture := {| tex_id := 1; tex_width := 8; tex_height := 760;
                   tex_format := gl_RED; tex_alignment := 1; tex_texelSize := 1 |};
     runeMap := replicate numRunes (mono_glyph bx by_ w h adv);
     font_metrics := {| Height := F32.of_Z 12; Ascent := F32.of_Z 9;
                        Descent := F32.of_Z 3; XHeight := F32.of_Z 5;
                        CapHeight := F32.of_Z 7; CaretSlope := (0, 1) |} |}.

(** A rasterizer whose glyphs are all 6 by 8 pixels in masks of stride
    8, with a bounding box that starts at 1.25 pixels and an advance of
    10 pixels. *)
Definition demo_glyph (ok : bool) (c : Z) : GlyphResult :=
  {| g_dr := {| Min_X := 1; Min_Y := -8; Max_X := 7; Max_Y := 0 |};
     g_mask := Some {| Pix := replicate 64%nat c; Stride := 8 |};
     g_maskp := (0, 0);
     g_advance := 640;
     g_ok := ok |}.

Definition demo_bounds (c : Z) : BoundsResult :=
  {| b_bounds := {| Min_X := 80; Min_Y := -512; Max_X := 448; Max_Y := 0 |};
     b_advance := 640;
     b_ok := true |}.

Definition demo_face (ok : bool) : Face :=
  {| Glyph := demo_glyph ok; GlyphBounds := demo_bounds |}.

Definition demo_metrics : FixedMetrics :=
  {| m_Height := 768; m_Ascent := 600; m_Descent := 168;
     m_XHeight := 320; m_CapHeight := 448; m_CaretSlope := (0, 1) |}.

(** [demo_env true] has every glyph; [demo_env false] has none. *)
Definition demo_env (ok : bool) : Env :=
  {| ReadFile := fun _ => Ok [0; 1; 0; 0];
     truetype_Parse := fun _ => Ok (fun _ => demo_face ok);
     sfnt_Parse := fun _ => Ok (fun _ => Ok demo_metrics);
     GenTextures := 1 |}.

(** An environment in which the font file cannot be read. *)
Definition nofile_env : Env :=
  {| ReadFile := fun _ => Err (ErrLibrary 2);
     truetype_Parse := fun _ => Ok (fun _ => demo_face true);
     sfnt_Parse := fun _ => Ok (fun _ => Ok demo_metrics);
     GenTextures := 1 |}.

(** The package state before the first call. *)
Definition initial_world : World := {| fontMap := None; trace := [] |}.

(** The platform's [int32(x)] for an [x] that does not fit (amd64). *)
Definition oor_amd64 (x : spec_float) : Z := - 2 ^ 31.

(** A computation that leaves the cache alone, whatever its outcome. *)
Definition keeps_cache {A : Type} (m : M A) : Prop :=
  forall w, fontMap (snd (m w)) = fontMap w.

(** The atlas before the first glyph. *)
Definition empty_atlas : atlas :=
  {| a_runeMap := replicate numRunes zero_runeInfo;
     a_glyphBytes := [];
     a_currentIndex := 0 |}.

(** The rows of the first [k] characters of the range. *)
Definition rows_upto (face : Face) (k : nat) : Z :=
  fold_left (fun acc c => acc + Dy (g_dr (Glyph face c))) (take k codes) 0.

(** What the glyph loop has established after [k] characters: the
    records written so far and the running row count. *)
Definition loop_inv (face : Face) (k : nat) (a : atlas) : Prop :=
  length (a_runeMap a) = numRunes /\
  a_currentIndex a = int32 (rows_upto face k) /\
  (forall j x, (j < k)%nat -> a_runeMap a !! j = Some x ->
     row x = int32 (rows_upto face j) /\
     height x = int32 (Dy (g_dr (Glyph face (minASCII + Z.of_nat j))))).

(** The bytes appended after [k] characters, for masks of stride [S]. *)
Definition bytes_inv (face : Face) (S : Z) (k : nat) (a : atlas) : Prop :=
  Z.of_nat (length (a_glyphBytes a)) = rows_upto face k * S.

(** The glyph records of a built atlas: one per character of the range,
    its row the rows of the characters before it. *)
Definition atlas_rows (face : Face) (rm : list runeInfo) : Prop :=
  length rm = numRunes /\
  (forall j x, rm !! j = Some x ->
     row x = int32 (rows_upto face j) /\
     height x = int32 (Dy (g_dr (Glyph face (minASCII + Z.of_nat j))))).

(** The rows of a font are contiguous: the first is 0 and each next row
    is the row before plus its height, in [int32]. *)
Definition rows_contiguous (font : FontInfo) : Prop :=
  length (runeMap font) = numRunes /\ contiguous (runeMap font).

(** The least and the greatest of a list of whole numbers. *)
Definition lmin (xs : list Z) : Z :=
  match xs with
  | [] => 0
  | x :: rest => zmin_list rest x
  end.

Definition lmax (xs : list Z) : Z :=
  match xs with
  | [] => 0
  | x :: rest => zmax_list rest x
  end.

(** Whole-number metrics small enough for [float32] to add exactly. *)
Definition small_glyph (g : glyphZ) : Prop :=
  0 <= zadv g /\ Z.abs (zbx g) <= 2 ^ 20 /\ Z.abs (zw g) <= 2 ^ 20.

(** A rune has a glyph record in [font]. *)
Definition rune_ok (font : FontInfo) (r : Z) : bool :=
  (minASCII <=? r) && (r - minASCII <? Z.of_nat (length (runeMap font))).

(** The rasterizer calls of the glyph loop, in order. *)
Definition loop_events : list event :=
  flat_map (fun c => [EvGlyph c; EvGlyphBounds c]) codes.

(** The event uploads a texture. *)
Definition is_upload (ev : event) : bool :=
  match ev with
  | EvTexImage2D _ _ _ _ => true
  | _ => false
  end.

(** The world once [build_font] has read the font file twice. *)
Definition after_reads (fontName : string) (w : World) : World :=
  {| fontMap := fontMap w;
     trace := (trace w ++ [EvReadFile fontName]) ++ [EvReadFile fontName] |}.

(** Lines 258-267: the font returned for a texture, an atlas and the
    metrics of the face. *)
Definition font_of (t : Texture) (a : atlas) (m : FixedMetrics) : FontInfo :=
  {| texture := t;
     runeMap := a_runeMap a;
     font_metrics :=
       {| Height := int26_6ToFloat32 (m_Height m);
          Ascent := int26_6ToFloat32 (m_Ascent m);
          Descent := int26_6ToFloat32 (m_Descent m);
          XHeight := int26_6ToFloat32 (m_XHeight m);
          CapHeight := int26_6ToFloat32 (m_CapHeight m);
          CaretSlope := m_CaretSlope m |} |}.

(** Lines 238-242: the texture made of an atlas whose masks have the
    stride of [glyph]. *)
Definition atlas_texture (env : Env) (glyph : Alpha) (a : atlas) : Texture :=
  {| tex_id := GenTextures env;
     tex_width := int32 (Stride glyph);
     tex_height :=
       int32 (int64 (Z.quot (Z.of_nat (length (a_glyphBytes a))) (Stride glyph)));
     tex_format := uint32 gl_RED;
     tex_alignment := 1;
     tex_texelSize := 1 |}.

(** Lines 232-247: the rasterizer and device calls after the loop. *)
Definition upload_events (t : Texture) (a : atlas) : list event :=
  [EvGlyph 65;
   EvTexImage2D (tex_id t) (tex_width t) (tex_height t) (a_glyphBytes a);
   EvTexParameteri (tex_id t) gl_TEXTURE_MIN_FILTER gl_NEAREST;
   EvTexParameteri (tex_id t) gl_TEXTURE_MAG_FILTER gl_NEAREST].

(** An environment whose [opentype.NewFace] fails. *)
Definition noface_env : Env :=
  {| ReadFile := fun _ => Ok [0; 1; 0; 0];
     truetype_Parse := fun _ => Ok (fun _ => demo_face true);
     sfnt_Parse := fun _ => Ok (fun _ => Err (ErrLibrary 7));
     GenTextures := 1 |}.

(* ===================================================================== *)
(** ** Buffers, vertex arrays and texture access *)
(* ===================================================================== *)

(** Go's [uintptr] on the 64-bit targets. *)
Definition uintptr (z : Z) : Z := z mod 2 ^ 64.

Definition gl_ARRAY_BUFFER : Z := 34962.
Definition gl_FLOAT : Z := 5126.
Definition gl_UNSIGNED_BYTE : Z := 5121.
Definition gl_TEXTURE_2D : Z := 3553.
Definition gl_UNPACK_ALIGNMENT : Z := 3317.
Definition gl_PACK_ALIGNMENT : Z := 3333.

(** [shapes.go], [Rect]. *)
Record Rect : Type := { Rect_X : Z; Rect_Y : Z; Rect_W : Z; Rect_H : Z }.

(** What an [unsafe.Pointer] handed to the device points to. *)
Inductive memory : Type :=
| mem_nil
| mem_floats (data : list spec_float)
| mem_bytes (data : list Z).

(** The device calls of [vao.go], [framebuffer.go] and of the pixel
    access of [cubemap.go]. *)
Inductive glcall : Type :=
| glGenBuffers (id : Z)
| glBindBuffer (target id : Z)
| glBufferData (target size : Z) (ptr : memory) (usage : Z)
| glBufferSubData (target offset size : Z) (ptr : memory)
| glDeleteBuffers (id : Z)
| glGenVertexArrays (id : Z)
| glBindVertexArray (id : Z)
| glVertexAttribPointer (index size xtype : Z) (normalized : bool) (stride pointer : Z)
| glEnableVertexAttribArray (index : Z)
| glDisableVertexAttribArray (index : Z)
| glDrawArrays (mode first count : Z)
| glDeleteVertexArrays (id : Z)
| glPixelStorei (pname param : Z)
| glTextureSubImage2D (id level x y w h format xtype : Z) (data : list Z)
| glBindTexture (target id : Z)
| glGenerateMipmap (target : Z)
| glGetTexImage (target level format xtype : Z).

(** The errors of these files. *)
Inductive gl_error : Type :=
| ErrEmptyData
| ErrOutOfBounds (wanted size : Z)
| ErrCoordOutOfRange (r : Rect).

(** A call returns, returns a non-nil [error], or panics. *)
Inductive returned (A : Type) : Type :=
| Returns (a : A)
| Fails (e : gl_error)
| Panics.
Arguments Returns {A} a.
Arguments Fails {A} e.
Arguments Panics {A}.

(** A computation that makes device calls: the calls made so far are
    threaded through. *)
Definition GL (A : Type) : Type := list glcall -> returned A * list glcall.

Definition gret {A : Type} (a : A) : GL A := fun l => (Returns a, l).

Definition gbind {A B : Type} (m : GL A) (k : A -> GL B) : GL B :=
  fun l =>
    match m l with
    | (Returns a, l') => k a l'
    | (Fails e, l') => (Fails e, l')
    | (Panics, l') => (Panics, l')
    end.

Definition gfail {A : Type} (e : gl_error) : GL A := fun l => (Fails e, l).

Definition gpanic {A : Type} : GL A := fun l => (Panics, l).

Definition call (c : glcall) : GL unit := fun l => (Returns tt, l ++ [c]).

Notation "x <~~ m ; k" := (gbind m (fun x => k))
  (at level 10, m at level 100, k at level 200).

(** [framebuffer.go], [BufferObject]. *)
Record BufferObject : Type := { bo_id : Z; bo_sizeBytes : Z }.

(** [NewBufferObject]; [id] is the name the device generates. *)
Definition NewBufferObject (id : Z) : GL BufferObject :=
  _ <~~ call (glGenBuffers id);
  gret {| bo_id := id; bo_sizeBytes := 0 |}.

Definition GetSizeBytes (bo : BufferObject) : Z := bo_sizeBytes bo.

Definition BufferObject_Bind (bo : BufferObject) (target : Z) : GL unit :=
  call (glBindBuffer target (bo_id bo)).

Definition BufferObject_Unbind (bo : BufferObject) (target : Z) : GL unit :=
  call (glBindBuffer target 0).

(** [BufferData]: the object is updated in place; the new object is
    returned. *)
Definition BufferData (bo : BufferObject) (target sizeBytes : Z) (ptr : memory)
    (usage : Z) : GL BufferObject :=
  let bo' := {| bo_id := bo_id bo; bo_sizeBytes := sizeBytes |} in
  _ <~~ BufferObject_Bind bo' target;
  _ <~~ call (glBufferData target sizeBytes ptr usage);
  _ <~~ BufferObject_Unbind bo' target;
  gret bo'.

(** [BufferSubData]: [offset+sizeBytes] is a [uint32] sum. *)
Definition BufferSubData (bo : BufferObject) (target offset sizeBytes : Z)
    (ptr : memory) : GL unit :=
  if bo_sizeBytes bo <? uint32 (offset + sizeBytes)
  then gfail (ErrOutOfBounds (uint32 (offset + sizeBytes)) (bo_sizeBytes bo))
  else
    _ <~~ BufferObject_Bind bo target;
    _ <~~ call (glBufferSubData target offset sizeBytes ptr);
    BufferObject_Unbind bo target.

Definition BufferObject_Destroy (bo : BufferObject) : GL BufferObject :=
  _ <~~ call (glDeleteBuffers (bo_id bo));
  gret {| bo_id := 0; bo_sizeBytes := 0 |}.

(** [vao.go], [VAO]; the buffer object is owned by the [VAO]. *)
Record VAO : Type := {
  vao_id : Z;
  vbo : BufferObject;
  mode : Z;
  vertSize : Z;
  numAttribs : Z;
  layout : list Z
}.

(** The loop of [configureVAO], at index [i] with [rest] the entries
    [layout[i:]]. *)
Fixpoint attrib_pointers (rest : list Z) (i offset vertexStride : Z) : GL unit :=
  match rest with
  | [] => gret tt
  | s :: rest' =>
      _ <~~ call (glVertexAttribPointer (uint32 i) s gl_FLOAT false vertexStride
                    (uintptr (int32 (offset * 4))));
      attrib_pointers rest' (i + 1) (int32 (offset + s)) vertexStride
  end.

Definition configureVAO (vaoID : Z) (vbo0 : BufferObject) (layout0 : list Z)
    (vertSize0 : Z) : GL unit :=
  _ <~~ BufferObject_Bind vbo0 gl_ARRAY_BUFFER;
  _ <~~ call (glBindVertexArray vaoID);
  let vertexStride := int32 (vertSize0 * 4) in
  _ <~~ attrib_pointers layout0 0 0 vertexStride;
  _ <~~ call (glBindVertexArray 0);
  BufferObject_Unbind vbo0 gl_ARRAY_BUFFER.

(** [NewVAO]; [id] and [bufId] are the names the device generates. *)
Definition NewVAO (id bufId : Z) (mode0 : Z) (layout0 : list Z) : GL VAO :=
  _ <~~ call (glGenVertexArrays id);
  vbo0 <~~ NewBufferObject bufId;
  let vertSize0 := fold_left (fun acc s => int32 (acc + s)) layout0 0 in
  _ <~~ configureVAO id vbo0 layout0 vertSize0;
  gret {| vao_id := id;
          vbo := vbo0;
          mode := mode0;
          vertSize := vertSize0;
          numAttribs := uint32 (Z.of_nat (length layout0));
          layout := layout0 |}.

(** [(vao *VAO) Load]. *)
Definition VAO_Load (vao : VAO) (data : list spec_float) (usage : Z) : GL VAO :=
  if (length data =? 0)%nat then gfail ErrEmptyData
  else
    vbo' <~~ BufferData (vbo vao) gl_ARRAY_BUFFER
               (uint32 (int64 (4 * Z.of_nat (length data)))) (mem_floats data) usage;
    gret {| vao_id := vao_id vao;
            vbo := vbo';
            mode := mode vao;
            vertSize := vertSize vao;
            numAttribs := numAttribs vao;
            layout := layout vao |}.

(** [for i = 0; i < n; i++ { f(i) }] on [uint32]. *)
Definition each_attrib (f : Z -> glcall) (n : Z) : GL unit :=
  fold_right (fun i k => _ <~~ call (f (Z.of_nat i)); k) (gret tt) (seq 0 (Z.to_nat n)).

(** [(vao *VAO) Draw]: the count is an [int32] quotient, which panics
    on a zero divisor. *)
Definition VAO_Draw (vao : VAO) : GL unit :=
  if GetSizeBytes (vbo vao) =? 0 then gret tt
  else
    _ <~~ call (glBindVertexArray (vao_id vao));
    _ <~~ each_attrib glEnableVertexAttribArray (numAttribs vao);
    let divisor := int32 (4 * vertSize vao) in
    if divisor =? 0 then gpanic
    else
      _ <~~ call (glDrawArrays (mode vao) 0
                    (int32 (Z.quot (int32 (GetSizeBytes (vbo vao))) divisor)));
      _ <~~ each_attrib glDisableVertexAttribArray (numAttribs vao);
      call (glBindVertexArray 0).

Definition Texture_Bind (t : Texture) : GL unit := call (glBindTexture gl_TEXTURE_2D (tex_id t)).

Definition Texture_Unbind (t : Texture) : GL unit := call (glBindTexture gl_TEXTURE_2D 0).

(** [cubemap.go], [(t Texture) SetPixelArea]: [&d[0]] panics on an
    empty [d]. *)
Definition SetPixelArea (t : Texture) (r : Rect) (d : list Z) (genMipmap : bool) : GL unit :=
  if (Rect_X r <? 0) || (Rect_Y r <? 0) || (tex_width t <=? Rect_X r)
     || (tex_height t <=? Rect_Y r)
  then gfail (ErrCoordOutOfRange r)
  else
    _ <~~ call (glPixelStorei gl_UNPACK_ALIGNMENT (tex_alignment t));
    match d with
    | [] => gpanic
    | _ :: _ =>
        _ <~~ call (glTextureSubImage2D (tex_id t) 0 (Rect_X r) (Rect_Y r) (Rect_W r)
                      (Rect_H r) (tex_format t) gl_UNSIGNED_BYTE d);
        if genMipmap then
          _ <~~ Texture_Bind t;
          _ <~~ call (glGenerateMipmap gl_TEXTURE_2D);
          Texture_Unbind t
        else gret tt
    end.

(** [(t Texture) SetPixel]. *)
Definition SetPixel (t : Texture) (p : Point) (b : Z) (genMipmap : bool) : GL unit :=
  SetPixelArea t {| Rect_X := X p; Rect_Y := Y p; Rect_W := 1; Rect_H := 1 |} [b] genMipmap.

Definition GetWidth (t : Texture) : Z := tex_width t.
Definition GetHeight (t : Texture) : Z := tex_height t.

(** [(t Texture) GetData]: [make] panics on a negative length and
    [&data[0]] on an empty slice; [pixels] is what the device writes
    into the slice, whose length does not change. *)
Definition GetData (t : Texture) (pixels : list Z) : GL (list Z) :=
  let n := int32 (int32 (tex_width t * tex_height t) * tex_texelSize t) in
  if n <? 0 then gpanic
  else
    let data := replicate (Z.to_nat n) 0 in
    _ <~~ Texture_Bind t;
    _ <~~ call (glPixelStorei gl_PACK_ALIGNMENT (tex_alignment t));
    match data with
    | [] => gpanic
    | _ :: _ =>
        _ <~~ call (glGetTexImage gl_TEXTURE_2D 0 (tex_format t) gl_UNSIGNED_BYTE);
        _ <~~ Texture_Unbind t;
        gret (take (Z.to_nat n) (pixels ++ data))
    end.

(** The vertex array that text meshes are drawn with: position and
    texture coordinates, two floats each. *)
Definition text_layout : list Z := [2; 2].

(** The sum of a vertex layout. *)
Definition layout_sum (l : list Z) : Z := fold_right Z.add 0 l.

(** The calls each [VAO_Draw] makes around [glDrawArrays]. *)
Definition enable_calls (n : Z) : list glcall :=
  map (fun i => glEnableVertexAttribArray (Z.of_nat i)) (seq 0 (Z.to_nat n)).

Definition disable_calls (n : Z) : list glcall :=
  map (fun i => glDisableVertexAttribArray (Z.of_nat i)) (seq 0 (Z.to_nat n)).

(** The attribute pointers of a layout: entry [i] starts after the
    entries before it, four bytes per float. *)
Definition pointer_calls (l : list Z) : list glcall :=
  imap (fun i s => glVertexAttribPointer (Z.of_nat i) s gl_FLOAT false
                     (4 * layout_sum l) (4 * layout_sum (take i l))) l.

(** The origin of a rectangle lies inside a texture. *)
Definition origin_inside (t : Texture) (x y : Z) : Prop :=
  0 <= x < tex_width t /\ 0 <= y < tex_height t.

(** The calls of a [GetData]. *)
Definition GetData_calls (t : Texture) : list glcall :=
  [glBindTexture gl_TEXTURE_2D (tex_id t);
   glPixelStorei gl_PACK_ALIGNMENT (tex_alignment t);
   glGetTexImage gl_TEXTURE_2D 0 (tex_format t) gl_UNSIGNED_BYTE;
   glBindTexture gl_TEXTURE_2D 0].

(** The [s] and the [t] of every vertex of a flat [(x, y, s, t)]
    buffer. *)
Fixpoint vertex_ss (buffer : list spec_float) : list spec_float :=
  match buffer with
  | _ :: _ :: s :: _ :: rest => s :: vertex_ss rest
  | _ => []
  end.

Fixpoint vertex_ts (buffer : list spec_float) : list spec_float :=
  match buffer with
  | _ :: _ :: _ :: t :: rest => t :: vertex_ts rest
  | _ => []
  end.

(** The texel columns and rows at the six vertices of a glyph: bottom
    left, top left, top right, bottom left, top right, bottom right. *)
Definition glyph_ss (g : runeInfo) : list Z :=
  [0; 0; width g; 0; width g; width g].

Definition glyph_ts (g : runeInfo) : list Z :=
  [row g + height g; row g; row g; row g + height g; row g; row g + height g].

(** The [y] of every vertex of a flat [(x, y, s, t)] buffer. *)
Fixpoint vertex_ys (buffer : list spec_float) : list spec_float :=
  match buffer with
  | _ :: y :: _ :: _ :: rest => y :: vertex_ys rest
  | _ => []
  end.

(** The vertical offset of an alignment in units of 1/128 pixel, for an
    ascent, a descent and an x-height in 26.6 fixed point. *)
Definition voffset128 (alignV asc desc xh : Z) : Z :=
  if alignV =? AlignBelow then - (128 * ((asc + 63) / 64))
  else if alignV =? AlignMiddle then - xh
  else if alignV =? AlignAbove then 128 * ((desc + 63) / 64)
  else 0.

(** The [y] of the six vertices of a glyph of height [h] whose bearing
    is the whole number [top], in units of 1/128 pixel, for the origin
    [base]: bottom, top, top, bottom, top, bottom. *)
Definition quad_ys128 (base h top : Z) : list Z :=
  let b := base - 128 * top in
  let t := b + 128 * h in
  [b; t; t; b; t; b].

Fixpoint layout_ys128 (gs : list runeInfo) (tops : list Z) (base : Z) : list Z :=
  match gs, tops with
  | g :: gs', top :: tops' => quad_ys128 base (height g) top ++ layout_ys128 gs' tops' base
  | _, _ => []
  end.

(** The bearing of a glyph is the whole number [top], and small. *)
Definition whole_bearingY (g : runeInfo) (top : Z) : Prop :=
  bearingY g = F32.of_Z top /\ Z.abs top < 2 ^ 15 /\ 0 <= height g < 2 ^ 15.

(** A font whose glyphs are 8 rows high with a bearing of 8, and whose
    metrics are those of [demo_metrics]. *)
Definition demo_font : FontInfo :=
  {| texture := {| tex_id := 1; tex_width := 8; tex_height := 760;
                   tex_format := gl_RED; tex_alignment := 1; tex_texelSize := 1 |};
     runeMap := replicate numRunes (mono_glyph 1 8 6 8 10);
     font_metrics := {| Height := int26_6ToFloat32 (m_Height demo_metrics);
                        Ascent := int26_6ToFloat32 (m_Ascent demo_metrics);
                        Descent := int26_6ToFloat32 (m_Descent demo_metrics);
                        XHeight := int26_6ToFloat32 (m_XHeight demo_metrics);
                        CapHeight := int26_6ToFloat32 (m_CapHeight demo_metrics);
                        CaretSlope := (0, 1) |} |}.

(* ===================================================================== *)
(** * Proofs *)
(* ===================================================================== *)

(** ** Rounding: when a float operation is exact *)

Section FloatFacts.
Variables prec emax : Z.
Hypothesis Hprec : 0 < prec.
Hypothesis Hemax : prec < emax.

Lemma digits2_pos_bounds (p : positive) :
  2 ^ (Zpos (digits2_pos p) - 1) <= Zpos p < 2 ^ Zpos (digits2_pos p).
Proof.
  induction p as [p IH | p IH |]; cbn [digits2_pos].
  - rewrite Pos2Z.inj_succ.
    replace (Z.succ (Zpos (digits2_pos p)) - 1) with (Zpos (digits2_pos p) - 1 + 1) by lia.
    rewrite Z.pow_succ_r by lia. rewrite Z.pow_add_r by lia.
    change (2 ^ 1) with 2. lia.
  - rewrite Pos2Z.inj_succ.
    replace (Z.succ (Zpos (digits2_pos p)) - 1) with (Zpos (digits2_pos p) - 1 + 1) by lia.
    rewrite Z.pow_succ_r by lia. rewrite Z.pow_add_r by lia.
    change (2 ^ 1) with 2. lia.
  - cbn. lia.
Qed.

Lemma digits2_pos_unique (p : positive) (d : Z) :
  2 ^ (d - 1) <= Zpos p < 2 ^ d -> Zpos (digits2_pos p) = d.
Proof.
  intros [Hlo Hhi]. pose proof (digits2_pos_bounds p) as [Blo Bhi].
  set (d' := Zpos (digits2_pos p)) in *.
  assert (0 < d).
  { destruct (Z_lt_le_dec 0 d) as [|Hd]; [assumption|].
    exfalso. destruct (Z.eq_dec d 0) as [->|]; [cbn in Hhi; lia|].
    rewrite Z.pow_neg_r in Hhi by lia. lia. }
  destruct (Z.lt_trichotomy d' d) as [Hlt | [Heq | Hgt]]; [| assumption |].
  - exfalso. assert (2 ^ d' <= 2 ^ (d - 1)) by (apply Z.pow_le_mono_r; lia). lia.
  - exfalso. assert (2 ^ d <= 2 ^ (d' - 1)) by (apply Z.pow_le_mono_r; lia). lia.
Qed.

Lemma digits2_pos_shift (p q : positive) (k : Z) :
  0 <= k -> Zpos q = Zpos p * 2 ^ k ->
  Zpos (digits2_pos q) = Zpos (digits2_pos p) + k.
Proof.
  intros Hk Hq. apply digits2_pos_unique.
  pose proof (digits2_pos_bounds p) as [Blo Bhi].
  rewrite Hq.
  replace (Zpos (digits2_pos p) + k - 1) with (Zpos (digits2_pos p) - 1 + k) by lia.
  rewrite !Z.pow_add_r by lia.
  assert (0 < 2 ^ k) by (apply Z.pow_pos_nonneg; lia).
  split; [apply Z.mul_le_mono_nonneg_r | apply Z.mul_lt_mono_pos_r]; lia.
Qed.

Lemma Zpos_iter_xO (p d : positive) :
  Zpos (Pos.iter xO p d) = Zpos p * 2 ^ Zpos d.
Proof.
  revert p. induction d as [|d IH] using Pos.peano_ind; intros p.
  - cbn. lia.
  - rewrite Pos.iter_succ, Pos2Z.inj_succ, Z.pow_succ_r by lia.
    rewrite Pos2Z.inj_xO, IH. lia.
Qed.

Lemma iter_pos_nat {A : Type} (f : A -> A) (p : positive) (x : A) :
  SpecFloat.iter_pos f p x = Nat.iter (Pos.to_nat p) f x.
Proof.
  revert x. induction p as [p IH | p IH |]; intros x; cbn [SpecFloat.iter_pos].
  - rewrite !IH, Pos2Nat.inj_xI.
    replace (S (2 * Pos.to_nat p))%nat with (Pos.to_nat p + (Pos.to_nat p + 1))%nat by lia.
    rewrite !Nat.iter_add. reflexivity.
  - rewrite !IH, Pos2Nat.inj_xO.
    replace (2 * Pos.to_nat p)%nat with (Pos.to_nat p + Pos.to_nat p)%nat by lia.
    rewrite Nat.iter_add. reflexivity.
  - reflexivity.
Qed.

Lemma shr_1_double (q : positive) :
  shr_1 {| shr_m := Zpos (xO q); shr_r := false; shr_s := false |}
  = {| shr_m := Zpos q; shr_r := false; shr_s := false |}.
Proof. reflexivity. Qed.

Lemma nat_iter_shr_exact (k : nat) (n : positive) :
  Nat.iter k shr_1 {| shr_m := Zpos (Nat.iter k xO n); shr_r := false; shr_s := false |}
  = {| shr_m := Zpos n; shr_r := false; shr_s := false |}.
Proof.
  induction k as [|k IH]; [reflexivity|].
  rewrite Nat.iter_succ_r.
  change (Nat.iter (S k) xO n) with (xO (Nat.iter k xO n)).
  rewrite shr_1_double. exact IH.
Qed.

Lemma shr_exact (n m : positive) (e : Z) (p : positive) :
  Zpos m = Zpos n * 2 ^ Zpos p ->
  shr {| shr_m := Zpos m; shr_r := false; shr_s := false |} e (Zpos p)
  = ({| shr_m := Zpos n; shr_r := false; shr_s := false |}, e + Zpos p).
Proof.
  intros Hm. unfold shr. f_equal.
  rewrite iter_pos_nat.
  assert (m = Pos.iter xO n p) as ->.
  { apply Pos2Z.inj. rewrite Zpos_iter_xO. exact Hm. }
  rewrite Pos2Nat.inj_iter.
  apply nat_iter_shr_exact.
Qed.

Lemma bounded_inv (n : positive) (c : Z) :
  bounded prec emax n c = true ->
  fexp prec emax (Zpos (digits2_pos n) + c) = c /\ c <= emax - prec.
Proof.
  unfold bounded, canonical_mantissa. rewrite andb_true_iff.
  intros [H1 H2]. split; [apply Z.eqb_eq, H1 | apply Z.leb_le, H2].
Qed.

Lemma binary_round_aux_exact (s : bool) (m : positive) (e : Z) (n : positive) (c : Z) :
  bounded prec emax n c = true ->
  e <= c -> Zpos m = Zpos n * 2 ^ (c - e) ->
  binary_round_aux prec emax s (Zpos m) e loc_Exact = S754_finite s n c.
Proof.
  intros Hb Hec Hm. destruct (bounded_inv n c Hb) as [Hf Hc].
  assert (Hstage : shr_fexp prec emax (Zpos n) c loc_Exact
            = ({| shr_m := Zpos n; shr_r := false; shr_s := false |}, c)).
  { unfold shr_fexp. cbn [Zdigits2 shr_record_of_loc].
    rewrite Hf, Z.sub_diag. reflexivity. }
  unfold binary_round_aux.
  assert (Hfirst : shr_fexp prec emax (Zpos m) e loc_Exact
            = ({| shr_m := Zpos n; shr_r := false; shr_s := false |}, c)).
  { unfold shr_fexp. cbn [Zdigits2 shr_record_of_loc].
    rewrite (digits2_pos_shift n m (c - e)) by lia.
    replace (Zpos (digits2_pos n) + (c - e) + e) with (Zpos (digits2_pos n) + c) by lia.
    rewrite Hf.
    destruct (c - e) as [|p|p] eqn:Hce.
    - cbn [shr]. rewrite Z.pow_0_r, Z.mul_1_r in Hm. inversion Hm; subst.
      f_equal. lia.
    - rewrite (shr_exact n m e p Hm). f_equal. lia.
    - lia. }
  rewrite Hfirst. cbn [shr_m loc_of_shr_record round_nearest_even].
  rewrite Hstage. cbn [shr_m].
  apply Z.leb_le in Hc. rewrite Hc. reflexivity.
Qed.

Lemma binary_round_exact (s : bool) (m : positive) (e : Z) (n : positive) (c : Z) :
  bounded prec emax n c = true ->
  (e <= c /\ Zpos m = Zpos n * 2 ^ (c - e)) \/
  (c <= e /\ Zpos n = Zpos m * 2 ^ (e - c)) ->
  binary_round prec emax s m e = S754_finite s n c.
Proof.
  intros Hb Hv. destruct (bounded_inv n c Hb) as [Hf Hc].
  unfold binary_round.
  destruct Hv as [[Hec Hm] | [Hce Hn]].
  - rewrite (digits2_pos_shift n m (c - e)) by lia.
    replace (Zpos (digits2_pos n) + (c - e) + e) with (Zpos (digits2_pos n) + c) by lia.
    rewrite Hf. unfold shl_align.
    destruct (c - e) as [|p|p] eqn:Hd; try lia;
      apply binary_round_aux_exact; auto; rewrite Hd; exact Hm.
  - assert (Hdig : Zpos (digits2_pos m) + e = Zpos (digits2_pos n) + c).
    { rewrite (digits2_pos_shift m n (e - c)) by lia. lia. }
    rewrite Hdig, Hf. unfold shl_align.
    destruct (c - e) as [|p|p] eqn:Hd; try lia.
    + assert (e = c) by lia. subst e. rewrite Z.sub_diag, Z.pow_0_r, Z.mul_1_r in Hn.
      inversion Hn; subst.
      apply binary_round_aux_exact; auto; try lia.
      rewrite Z.sub_diag, Z.pow_0_r. lia.
    + assert (Pos.iter xO m p = n) as ->.
      { apply Pos2Z.inj. rewrite Zpos_iter_xO, Hn. f_equal. f_equal. lia. }
      apply binary_round_aux_exact; auto; try lia.
      rewrite Z.sub_diag, Z.pow_0_r. lia.
Qed.



Lemma Zdigits2_abs (M : Z) : M <> 0 -> Zdigits2 M = Zpos (digits2_pos (Z.to_pos (Z.abs M))).
Proof. intros HM. destruct M; [contradiction | reflexivity | reflexivity]. Qed.

Lemma Zdigits2_pos_lt (M : Z) : M <> 0 -> 0 < Zdigits2 M.
Proof. intros HM. destruct M; [contradiction | reflexivity | reflexivity]. Qed.

Lemma pow2_pos (k : Z) : 0 <= k -> 0 < 2 ^ k.
Proof. intros; apply Z.pow_pos_nonneg; lia. Qed.


Lemma cmant_spec (M E : Z) :
  M <> 0 -> fits prec emax M E -> Zpos (cmant prec M) = Z.abs M * 2 ^ (prec - Zdigits2 M).
Proof.
  intros HM (Hd & _ & _). unfold cmant. rewrite Z2Pos.id; [reflexivity|].
  apply Z.mul_pos_pos; [lia | apply pow2_pos; lia].
Qed.

Lemma cmant_bounded (M E : Z) :
  M <> 0 -> fits prec emax M E -> bounded prec emax (cmant prec M) (cexp prec M E) = true.
Proof.
  intros HM HF. pose proof (cmant_spec M E HM HF) as Hn.
  destruct HF as (Hd & Hlo & Hhi).
  assert (Hdig : Zpos (digits2_pos (cmant prec M)) = prec).
  { rewrite (digits2_pos_shift (Z.to_pos (Z.abs M)) (cmant prec M) (prec - Zdigits2 M)).
    - rewrite <- Zdigits2_abs by assumption. lia.
    - lia.
    - rewrite Hn, Z2Pos.id by lia. reflexivity. }
  unfold bounded, canonical_mantissa. rewrite Hdig.
  apply andb_true_iff; split.
  - apply Z.eqb_eq. unfold fexp, cexp in *. lia.
  - apply Z.leb_le. unfold cexp. lia.
Qed.

Lemma pow2_split (a b : Z) : 0 <= a -> 0 <= b -> 2 ^ (a + b) = 2 ^ a * 2 ^ b.
Proof. intros; apply Z.pow_add_r; lia. Qed.

Lemma binary_normalize_exact (M E M' E' : Z) (sz : bool) :
  M <> 0 -> fits prec emax M E ->
  (E' <= E /\ M' = M * 2 ^ (E - E')) \/ (E <= E' /\ M = M' * 2 ^ (E' - E)) ->
  binary_normalize prec emax M' E' sz = S754_finite (M <? 0) (cmant prec M) (cexp prec M E).
Proof.
  intros HM HF Hv.
  pose proof (cmant_spec M E HM HF) as Hn.
  pose proof (cmant_bounded M E HM HF) as Hb.
  pose proof HF as (Hd & Hlo & Hhi).
  assert (Habs : (E' <= cexp prec M E /\ Z.abs M' = Zpos (cmant prec M) * 2 ^ (cexp prec M E - E')) \/
                 (cexp prec M E <= E' /\ Zpos (cmant prec M) = Z.abs M' * 2 ^ (E' - cexp prec M E))).
  { unfold cexp in *. rewrite Hn. clear Hn Hb.
    remember (Zdigits2 M) as d eqn:Hdd. clear Hdd.
    destruct Hv as [[Hle HM'] | [Hle HM']].
    - destruct (Z_le_gt_dec E' (E - (prec - d))) as [Hc | Hc].
      + left. split; [assumption|]. rewrite HM', Z.abs_mul.
        rewrite (Z.abs_eq (2 ^ _)) by (apply Z.lt_le_incl, pow2_pos; lia).
        replace (E - E') with ((prec - d) + (E - (prec - d) - E')) by lia.
        rewrite pow2_split by lia. ring.
      + right. split; [lia|]. rewrite HM', Z.abs_mul.
        rewrite (Z.abs_eq (2 ^ _)) by (apply Z.lt_le_incl, pow2_pos; lia).
        assert (2 ^ (prec - d) = 2 ^ (E - E') * 2 ^ (E' - (E - (prec - d)))) as ->
          by (rewrite <- pow2_split by lia; f_equal; lia).
        ring.
    - right. split; [lia|]. rewrite HM', Z.abs_mul.
      rewrite (Z.abs_eq (2 ^ _)) by (apply Z.lt_le_incl, pow2_pos; lia).
      replace (E' - (E - (prec - d))) with ((E' - E) + (prec - d)) by lia.
      rewrite pow2_split by lia. ring. }
  assert (HM'0 : M' <> 0).
  { intros ->. destruct Hv as [[_ H0] | [_ H0]].
    - symmetry in H0. apply Z.mul_eq_0 in H0. destruct H0 as [|H0]; [lia|].
      pose proof (pow2_pos (E - 0)). lia.
    - cbn in H0. lia. }
  assert (Hsign : (M' <? 0) = (M <? 0)).
  { destruct Hv as [[Hle H0] | [Hle H0]].
    - pose proof (pow2_pos (E - E') ltac:(lia)).
      destruct (Z.ltb_spec M' 0), (Z.ltb_spec M 0); try reflexivity; nia.
    - pose proof (pow2_pos (E' - E) ltac:(lia)).
      destruct (Z.ltb_spec M' 0), (Z.ltb_spec M 0); try reflexivity; nia. }
  rewrite <- Hsign.
  destruct M' as [|p|p]; [congruence| |]; cbn [binary_normalize Z.ltb Z.compare];
    apply binary_round_exact; auto.
Qed.

Lemma fl_finite (M E : Z) :
  M <> 0 -> fits prec emax M E -> fl prec emax M E = S754_finite (M <? 0) (cmant prec M) (cexp prec M E).
Proof.
  intros HM HF. unfold fl. apply binary_normalize_exact; auto.
  left. split; [lia|]. rewrite Z.sub_diag, Z.pow_0_r. lia.
Qed.

Lemma fl_zero (E : Z) : fl prec emax 0 E = S754_zero false.
Proof. reflexivity. Qed.

(** Any other way of writing the same value normalizes to [fl prec emax M E]. *)
Lemma binary_normalize_fl (M E M' E' : Z) (sz : bool) :
  M <> 0 -> fits prec emax M E ->
  (E' <= E /\ M' = M * 2 ^ (E - E')) \/ (E <= E' /\ M = M' * 2 ^ (E' - E)) ->
  binary_normalize prec emax M' E' sz = fl prec emax M E.
Proof.
  intros HM HF Hv. rewrite fl_finite by assumption.
  apply binary_normalize_exact; assumption.
Qed.

Lemma shl_align_fst (n : positive) (c ez : Z) :
  ez <= c -> Zpos (fst (shl_align n c ez)) = Zpos n * 2 ^ (c - ez).
Proof.
  intros Hle. unfold shl_align.
  destruct (ez - c) as [|p|p] eqn:Hd; cbn [fst].
  - replace (c - ez) with 0 by lia. rewrite Z.pow_0_r. lia.
  - lia.
  - rewrite Zpos_iter_xO. f_equal. f_equal. lia.
Qed.

Lemma cond_Zopp_sign (M : Z) : cond_Zopp (M <? 0) (Z.abs M) = M.
Proof. unfold cond_Zopp. destruct (Z.ltb_spec M 0); lia. Qed.

(** The signed mantissa of [fl prec emax M E], aligned to an exponent [ez]. *)
Lemma aligned_mantissa (M E ez : Z) :
  M <> 0 -> fits prec emax M E -> ez <= cexp prec M E ->
  cond_Zopp (M <? 0) (Zpos (fst (shl_align (cmant prec M) (cexp prec M E) ez))) = M * 2 ^ (E - ez).
Proof.
  intros HM HF Hle. rewrite shl_align_fst by assumption.
  rewrite (cmant_spec M E HM HF). destruct HF as (Hd & _ & _).
  unfold cexp in *.
  replace (E - ez) with ((prec - Zdigits2 M) + (E - (prec - Zdigits2 M) - ez)) by lia.
  rewrite pow2_split by lia.
  unfold cond_Zopp. destruct (Z.ltb_spec M 0).
  - rewrite Z.abs_neq by lia. ring.
  - rewrite Z.abs_eq by lia. ring.
Qed.

Lemma cexp_le (M E : Z) : fits prec emax M E -> cexp prec M E <= E.
Proof. intros (Hd & _ & _). unfold cexp. lia. Qed.

Lemma pow2_mul_min (X a b k : Z) :
  k <= b -> b <= a ->
  X * 2 ^ (a - b) * 2 ^ (b - k) = X * 2 ^ (a - k).
Proof.
  intros. replace (a - k) with ((a - b) + (b - k)) by lia.
  rewrite pow2_split by lia. ring.
Qed.

(** Two ways of writing one value, compared at a common exponent. *)
Lemma same_value_cases (M E M' E' k : Z) :
  k <= E -> k <= E' -> M' * 2 ^ (E' - k) = M * 2 ^ (E - k) ->
  (E' <= E /\ M' = M * 2 ^ (E - E')) \/ (E <= E' /\ M = M' * 2 ^ (E' - E)).
Proof.
  intros HE HE' Hv. destruct (Z_le_gt_dec E' E) as [Hc|Hc].
  - left. split; [assumption|].
    rewrite <- (pow2_mul_min M E E' k) in Hv by lia.
    apply Z.mul_reg_r in Hv; [assumption|].
    pose proof (pow2_pos (E' - k) ltac:(lia)). lia.
  - right. split; [lia|].
    rewrite <- (pow2_mul_min M' E' E k) in Hv by lia.
    apply Z.mul_reg_r in Hv; [auto|].
    pose proof (pow2_pos (E - k) ltac:(lia)). lia.
Qed.

Lemma normalize_same (S ez M E k : Z) (sz : bool) :
  fits prec emax M E -> M <> 0 -> k <= ez -> k <= E ->
  S * 2 ^ (ez - k) = M * 2 ^ (E - k) ->
  binary_normalize prec emax S ez sz = fl prec emax M E.
Proof.
  intros HF HM Hk1 Hk2 HS.
  apply binary_normalize_fl; auto.
  apply (same_value_cases M E S ez k); assumption.
Qed.

Lemma normalize_same_0 (S ez M E k : Z) :
  fits prec emax M E -> k <= ez -> k <= E ->
  S * 2 ^ (ez - k) = M * 2 ^ (E - k) ->
  binary_normalize prec emax S ez false = fl prec emax M E.
Proof.
  intros HF Hk1 Hk2 HS. destruct (Z.eq_dec M 0) as [->|HM].
  - assert (S = 0) as ->; [|reflexivity].
    pose proof (pow2_pos (ez - k) ltac:(lia)). nia.
  - apply (normalize_same S ez M E k); assumption.
Qed.

Lemma fl_same (M1 E1 M E k : Z) :
  fits prec emax M E -> k <= E1 -> k <= E -> M1 * 2 ^ (E1 - k) = M * 2 ^ (E - k) ->
  fl prec emax M1 E1 = fl prec emax M E.
Proof. intros. unfold fl at 1. apply (normalize_same_0 M1 E1 M E k); assumption. Qed.

Lemma SFadd_exact (M1 E1 M2 E2 M E k : Z) :
  fits prec emax M1 E1 -> fits prec emax M2 E2 -> fits prec emax M E -> k <= E1 -> k <= E2 -> k <= E ->
  M * 2 ^ (E - k) = M1 * 2 ^ (E1 - k) + M2 * 2 ^ (E2 - k) ->
  SFadd prec emax (fl prec emax M1 E1) (fl prec emax M2 E2) = fl prec emax M E.
Proof.
  intros HF1 HF2 HF H1 H2 H3 HM.
  destruct (Z.eq_dec M1 0) as [->|HM1], (Z.eq_dec M2 0) as [->|HM2].
  - rewrite !fl_zero. cbn [SFadd]. change (fl prec emax 0 E = fl prec emax M E).
    apply (fl_same 0 E M E k); [assumption | lia | lia | rewrite HM; ring].
  - rewrite fl_zero. rewrite (fl_finite M2) by assumption. cbn [SFadd].
    rewrite <- (fl_finite M2 E2) by assumption.
    apply (fl_same M2 E2 M E k); [assumption | lia | lia | rewrite HM; ring].
  - rewrite (fl_zero E2). rewrite (fl_finite M1) by assumption. cbn [SFadd].
    rewrite <- (fl_finite M1 E1) by assumption.
    apply (fl_same M1 E1 M E k); [assumption | lia | lia | rewrite HM; ring].
  - rewrite (fl_finite M1), (fl_finite M2) by assumption. cbn [SFadd].
    pose proof (cexp_le M1 E1 HF1). pose proof (cexp_le M2 E2 HF2).
    set (ez := Z.min (cexp prec M1 E1) (cexp prec M2 E2)).
    rewrite !aligned_mantissa by (auto; unfold ez; lia).
    apply (normalize_same_0 _ ez M E (Z.min k ez)); [assumption | lia | lia |].
    rewrite Z.mul_add_distr_r.
    rewrite !pow2_mul_min by (unfold ez; lia).
    rewrite <- (pow2_mul_min M E k), <- (pow2_mul_min M1 E1 k), <- (pow2_mul_min M2 E2 k) by lia.
    rewrite HM. ring.
Qed.

Lemma Zdigits2_opp (M : Z) : Zdigits2 (- M) = Zdigits2 M.
Proof. destruct M; reflexivity. Qed.

Lemma fits_opp (M E : Z) : fits prec emax M E -> fits prec emax (- M) E.
Proof. unfold fits. rewrite Zdigits2_opp. auto. Qed.

Lemma cmant_opp (M : Z) : cmant prec (- M) = cmant prec M.
Proof. unfold cmant. rewrite Zdigits2_opp, Z.abs_opp. reflexivity. Qed.

Lemma fl_opp (M E : Z) :
  M <> 0 -> fits prec emax M E -> SFopp (fl prec emax M E) = fl prec emax (- M) E.
Proof.
  intros HM HF. rewrite (fl_finite M), (fl_finite (- M)) by (auto using fits_opp; lia).
  cbn [SFopp]. unfold cexp. rewrite cmant_opp, Zdigits2_opp. f_equal.
  destruct (Z.ltb_spec M 0), (Z.ltb_spec (- M) 0); try reflexivity; lia.
Qed.

Lemma SFsub_exact (M1 E1 M2 E2 M E k : Z) :
  fits prec emax M1 E1 -> fits prec emax M2 E2 -> fits prec emax M E -> k <= E1 -> k <= E2 -> k <= E ->
  M * 2 ^ (E - k) = M1 * 2 ^ (E1 - k) - M2 * 2 ^ (E2 - k) ->
  SFsub prec emax (fl prec emax M1 E1) (fl prec emax M2 E2) = fl prec emax M E.
Proof.
  intros HF1 HF2 HF H1 H2 H3 HM.
  destruct (Z.eq_dec M1 0) as [->|HM1], (Z.eq_dec M2 0) as [->|HM2].
  - rewrite !fl_zero. cbn [SFsub]. change (fl prec emax 0 E = fl prec emax M E).
    apply (fl_same 0 E M E k); [assumption | lia | lia | rewrite HM; ring].
  - rewrite fl_zero. rewrite (fl_finite M2) by assumption. cbn [SFsub].
    change (S754_finite (negb (M2 <? 0)) (cmant prec M2) (cexp prec M2 E2))
      with (SFopp (S754_finite (M2 <? 0) (cmant prec M2) (cexp prec M2 E2))).
    rewrite <- (fl_finite M2 E2), fl_opp by assumption.
    apply (fl_same (- M2) E2 M E k); [assumption | lia | lia | rewrite HM; ring].
  - rewrite (fl_zero E2). rewrite (fl_finite M1) by assumption. cbn [SFsub].
    rewrite <- (fl_finite M1 E1) by assumption.
    apply (fl_same M1 E1 M E k); [assumption | lia | lia | rewrite HM; ring].
  - rewrite (fl_finite M1), (fl_finite M2) by assumption. cbn [SFsub].
    pose proof (cexp_le M1 E1 HF1). pose proof (cexp_le M2 E2 HF2).
    set (ez := Z.min (cexp prec M1 E1) (cexp prec M2 E2)).
    rewrite !aligned_mantissa by (auto; unfold ez; lia).
    apply (normalize_same_0 _ ez M E (Z.min k ez)); [assumption | lia | lia |].
    rewrite Z.mul_sub_distr_r.
    rewrite !pow2_mul_min by (unfold ez; lia).
    rewrite <- (pow2_mul_min M E k), <- (pow2_mul_min M1 E1 k), <- (pow2_mul_min M2 E2 k) by lia.
    rewrite HM. ring.
Qed.

Lemma Zdigits2_bounds (M : Z) :
  M <> 0 -> 2 ^ (Zdigits2 M - 1) <= Z.abs M < 2 ^ Zdigits2 M.
Proof.
  intros HM. destruct M as [|p|p]; [contradiction | |];
    cbn [Zdigits2 Z.abs]; apply digits2_pos_bounds.
Qed.

Lemma SFcompare_pos (M1 M2 E : Z) :
  0 < M1 -> 0 < M2 -> fits prec emax M1 E -> fits prec emax M2 E ->
  match Z.compare (cexp prec M1 E) (cexp prec M2 E) with
  | Lt => Lt
  | Gt => Gt
  | Eq => Pos.compare_cont Eq (cmant prec M1) (cmant prec M2)
  end = Z.compare M1 M2.
Proof.
  intros H1 H2 HF1 HF2.
  pose proof (Zdigits2_bounds M1 ltac:(lia)) as [L1 U1].
  pose proof (Zdigits2_bounds M2 ltac:(lia)) as [L2 U2].
  rewrite Z.abs_eq in L1, U1, L2, U2 by lia.
  pose proof (cmant_spec M1 E ltac:(lia) HF1) as N1.
  pose proof (cmant_spec M2 E ltac:(lia) HF2) as N2.
  rewrite Z.abs_eq in N1, N2 by lia.
  pose proof HF1 as (D1 & _ & _). pose proof HF2 as (D2 & _ & _).
  pose proof (Zdigits2_pos_lt M1 ltac:(lia)).
  pose proof (Zdigits2_pos_lt M2 ltac:(lia)).
  unfold cexp.
  destruct (Z.compare_spec (E - (prec - Zdigits2 M1)) (E - (prec - Zdigits2 M2))) as [He|He|He].
  - assert (Hd : Zdigits2 M1 = Zdigits2 M2) by lia.
    change (Pos.compare_cont Eq (cmant prec M1) (cmant prec M2)) with (Zpos (cmant prec M1) ?= Zpos (cmant prec M2)).
    rewrite N1, N2, Hd.
    symmetry. apply Zmult_compare_compat_r.
    pose proof (pow2_pos (prec - Zdigits2 M2) ltac:(lia)). lia.
  - symmetry. apply Z.compare_lt_iff.
    assert (2 ^ Zdigits2 M1 <= 2 ^ (Zdigits2 M2 - 1)) by (apply Z.pow_le_mono_r; lia).
    lia.
  - symmetry. apply Z.compare_gt_iff.
    assert (2 ^ Zdigits2 M2 <= 2 ^ (Zdigits2 M1 - 1)) by (apply Z.pow_le_mono_r; lia).
    lia.
Qed.

Lemma SFcompare_exact (M1 M2 E : Z) :
  fits prec emax M1 E -> fits prec emax M2 E ->
  SFcompare (fl prec emax M1 E) (fl prec emax M2 E) = Some (Z.compare M1 M2).
Proof.
  intros HF1 HF2.
  destruct (Z.eq_dec M1 0) as [->|HM1], (Z.eq_dec M2 0) as [->|HM2].
  - reflexivity.
  - rewrite fl_zero, (fl_finite M2) by assumption. cbn [SFcompare].
    destruct (Z.ltb_spec M2 0); f_equal; symmetry;
      [apply Z.compare_gt_iff | apply Z.compare_lt_iff]; lia.
  - rewrite (fl_zero E), (fl_finite M1) by assumption. cbn [SFcompare].
    destruct (Z.ltb_spec M1 0); f_equal; symmetry;
      [apply Z.compare_lt_iff | apply Z.compare_gt_iff]; lia.
  - rewrite (fl_finite M1), (fl_finite M2) by assumption. cbn [SFcompare].
    destruct (Z.ltb_spec M1 0), (Z.ltb_spec M2 0); f_equal.
    + pose proof (SFcompare_pos (- M2) (- M1) E ltac:(lia) ltac:(lia)
                    (fits_opp _ _ HF2) (fits_opp _ _ HF1)) as Hc.
      unfold cexp in *. rewrite !cmant_opp, !Zdigits2_opp in Hc.
      rewrite Z.compare_opp in Hc. rewrite <- Hc.
      rewrite (Z.compare_antisym (E - (prec - Zdigits2 M1)) (E - (prec - Zdigits2 M2))).
      rewrite (Pos.compare_cont_antisym (cmant prec M1) (cmant prec M2) Eq).
      destruct (E - (prec - Zdigits2 M1) ?= E - (prec - Zdigits2 M2)); cbn; reflexivity.
    + symmetry. apply Z.compare_lt_iff. lia.
    + symmetry. apply Z.compare_gt_iff. lia.
    + apply SFcompare_pos; auto; lia.
Qed.

Lemma SFltb_exact (M1 M2 E : Z) :
  fits prec emax M1 E -> fits prec emax M2 E -> SFltb (fl prec emax M1 E) (fl prec emax M2 E) = (M1 <? M2).
Proof.
  intros HF1 HF2. unfold SFltb. rewrite SFcompare_exact by assumption.
  unfold Z.ltb. destruct (M1 ?= M2); reflexivity.
Qed.

Lemma fits_small (M E : Z) :
  Z.abs M < 2 ^ prec -> emin prec emax + prec <= E -> E + prec <= emax -> fits prec emax M E.
Proof.
  intros HM Hlo Hhi.
  assert (Hd : 0 <= Zdigits2 M <= prec).
  { destruct (Z.eq_dec M 0) as [->|HM0]; [cbn; lia|].
    pose proof (Zdigits2_pos_lt M HM0). pose proof (Zdigits2_bounds M HM0) as [L U].
    split; [lia|].
    destruct (Z_le_gt_dec (Zdigits2 M) prec) as [|Hgt]; [assumption|].
    assert (2 ^ prec <= 2 ^ (Zdigits2 M - 1)) by (apply Z.pow_le_mono_r; lia). lia. }
  unfold fits.
  destruct (Z.eq_dec M 0) as [->|HM0]; [cbn; lia|].
  pose proof (Zdigits2_pos_lt M HM0). lia.
Qed.

Lemma cmant_digits (M E : Z) :
  M <> 0 -> fits prec emax M E -> Zpos (digits2_pos (cmant prec M)) = prec.
Proof.
  intros HM HF. pose proof (cmant_spec M E HM HF) as Hn.
  destruct HF as (Hd & Hlo & Hhi).
  rewrite (digits2_pos_shift (Z.to_pos (Z.abs M)) (cmant prec M) (prec - Zdigits2 M)).
  - rewrite <- Zdigits2_abs by assumption. lia.
  - lia.
  - rewrite Hn, Z2Pos.id by lia. reflexivity.
Qed.

(** [int(x)] of a fitting value at a non-positive exponent discards
    the fraction. *)
Lemma trunc_fl (M E : Z) :
  fits prec emax M E -> E <= 0 -> F64.trunc (fl prec emax M E) = Some (Z.quot M (2 ^ (- E))).
Proof.
  intros HF HE. destruct (Z.eq_dec M 0) as [->|HM].
  - rewrite fl_zero. cbn [F64.trunc]. rewrite Z.quot_0_l; [reflexivity|].
    pose proof (pow2_pos (- E) ltac:(lia)). lia.
  - rewrite fl_finite by assumption. cbn [F64.trunc]. f_equal.
    pose proof (cmant_spec M E HM HF) as Hn. pose proof HF as (Hd & _ & _).
    pose proof (pow2_pos (- E) ltac:(lia)) as HpE.
    pose proof (pow2_pos (prec - Zdigits2 M) ltac:(lia)) as Hpd.
    assert (Hmag : (if 0 <=? cexp prec M E then Z.shiftl (Zpos (cmant prec M)) (cexp prec M E)
                    else Z.shiftr (Zpos (cmant prec M)) (- cexp prec M E)) = Z.abs M / 2 ^ (- E)).
    { unfold cexp in *. destruct (Z.leb_spec 0 (E - (prec - Zdigits2 M))) as [Hc|Hc].
      - assert (E = 0) by lia. assert (prec - Zdigits2 M = 0) by lia. subst E.
        replace (0 - (prec - Zdigits2 M)) with 0 by lia.
        rewrite Z.shiftl_0_r, Hn. replace (prec - Zdigits2 M) with 0 by lia.
        cbn. rewrite Z.mul_1_r, Z.div_1_r. reflexivity.
      - rewrite Z.shiftr_div_pow2 by lia. rewrite Hn.
        replace (- (E - (prec - Zdigits2 M))) with ((- E) + (prec - Zdigits2 M)) by lia.
        rewrite pow2_split by lia.
        rewrite Z.div_mul_cancel_r by lia. reflexivity. }
    rewrite Hmag. unfold cond_Zopp. destruct (Z.ltb_spec M 0).
    + rewrite Z.abs_neq by lia.
      rewrite <- (Z.opp_involutive M) at 2. rewrite Z.quot_opp_l by lia.
      rewrite Z.quot_div_nonneg by lia. reflexivity.
    + rewrite Z.abs_eq by lia. rewrite Z.quot_div_nonneg by lia. reflexivity.
Qed.

(** Multiplying by one, given as a full-width mantissa [2^(prec-1)]. *)
Lemma SFmul_one_l (s1 : bool) (one : positive) (M E : Z) :
  M <> 0 -> fits prec emax M E -> Zpos one = 2 ^ (prec - 1) ->
  SFmul prec emax (S754_finite s1 one (1 - prec)) (fl prec emax M E)
  = S754_finite (xorb s1 (M <? 0)) (cmant prec M) (cexp prec M E).
Proof.
  intros HM HF Hone. rewrite fl_finite by assumption. cbn [SFmul].
  apply binary_round_aux_exact.
  - apply cmant_bounded; assumption.
  - lia.
  - rewrite Pos2Z.inj_mul, Hone.
    replace (cexp prec M E - (1 - prec + cexp prec M E)) with (prec - 1) by lia. ring.
Qed.

End FloatFacts.







Lemma fits32_int (z : Z) : Z.abs z < 2 ^ 24 -> fits 24 128 z 0.
Proof. intros Hz. apply fits_small; [lia | exact Hz | cbv; congruence | lia]. Qed.

Lemma fits64_int (z : Z) (E : Z) : Z.abs z < 2 ^ 53 -> -1000 <= E <= 900 -> fits 53 1024 z E.
Proof. intros Hz HE. apply fits_small; [lia | exact Hz | unfold emin; lia | lia]. Qed.

Lemma F32_of_Z_fl (z : Z) : F32.of_Z z = fl 24 128 z 0.
Proof. reflexivity. Qed.

Lemma F32_add_int (a b : Z) :
  Z.abs a < 2 ^ 24 -> Z.abs b < 2 ^ 24 -> Z.abs (a + b) < 2 ^ 24 ->
  F32.add (F32.of_Z a) (F32.of_Z b) = F32.of_Z (a + b).
Proof.
  intros Ha Hb Hab. unfold F32.add. rewrite !F32_of_Z_fl.
  apply (SFadd_exact 24 128 a 0 b 0 (a + b) 0 0); auto using fits32_int; try lia.
Qed.

Lemma F32_sub_int (a b : Z) :
  Z.abs a < 2 ^ 24 -> Z.abs b < 2 ^ 24 -> Z.abs (a - b) < 2 ^ 24 ->
  F32.sub (F32.of_Z a) (F32.of_Z b) = F32.of_Z (a - b).
Proof.
  intros Ha Hb Hab. unfold F32.sub. rewrite !F32_of_Z_fl.
  apply (SFsub_exact 24 128 a 0 b 0 (a - b) 0 0); auto using fits32_int; try lia.
Qed.

Lemma F32_ltb_int (a b : Z) :
  Z.abs a < 2 ^ 24 -> Z.abs b < 2 ^ 24 ->
  F32.ltb (F32.of_Z a) (F32.of_Z b) = (a <? b).
Proof.
  intros Ha Hb. unfold F32.ltb. rewrite !F32_of_Z_fl.
  apply SFltb_exact; auto using fits32_int.
Qed.

Lemma F64_of_Z_fl (z : Z) : F64.of_Z z = fl 53 1024 z 0.
Proof. reflexivity. Qed.

(** The signed mantissa of a canonical float. *)
Lemma signed_cmant (prec emax M E : Z) :
  M <> 0 -> fits prec emax M E ->
  cond_Zopp (M <? 0) (Zpos (cmant prec M)) = M * 2 ^ (E - cexp prec M E).
Proof.
  intros HM HF. rewrite (cmant_spec prec emax M E HM HF).
  unfold cexp. replace (E - (E - (prec - Zdigits2 M))) with (prec - Zdigits2 M) by lia.
  unfold cond_Zopp. destruct (Z.ltb_spec M 0).
  - rewrite Z.abs_neq by lia. ring.
  - rewrite Z.abs_eq by lia. reflexivity.
Qed.

(** Changing the format keeps a value that fits both. *)
Lemma reformat_exact (p1 e1 p2 e2 M E : Z) (sz : bool) :
  M <> 0 -> fits p1 e1 M E -> fits p2 e2 M E ->
  binary_normalize p2 e2 (cond_Zopp (M <? 0) (Zpos (cmant p1 M))) (cexp p1 M E) sz
  = fl p2 e2 M E.
Proof.
  intros HM H1 H2. rewrite (signed_cmant p1 e1 M E HM H1).
  pose proof (cexp_le p1 e1 M E H1).
  apply (normalize_same p2 e2 _ _ M E (cexp p1 M E)); auto; try lia.
  rewrite Z.sub_diag, Z.pow_0_r. ring.
Qed.

Lemma F64_of_f32_exact (M E : Z) :
  fits 24 128 M E -> fits 53 1024 M E ->
  F64.of_f32 (fl 24 128 M E) = fl 53 1024 M E.
Proof.
  intros H1 H2. destruct (Z.eq_dec M 0) as [->|HM]; [reflexivity|].
  rewrite (fl_finite 24 128) by assumption. cbn [F64.of_f32].
  apply (reformat_exact 24 128); assumption.
Qed.

Lemma F64_to_f32_exact (M E : Z) :
  fits 24 128 M E -> fits 53 1024 M E ->
  F64.to_f32 (fl 53 1024 M E) = fl 24 128 M E.
Proof.
  intros H1 H2. destruct (Z.eq_dec M 0) as [->|HM]; [reflexivity|].
  rewrite (fl_finite 53 1024) by assumption. cbn [F64.to_f32].
  apply (reformat_exact 53 1024); assumption.
Qed.

Lemma F64_of_f32_int (z : Z) :
  Z.abs z < 2 ^ 24 -> F64.of_f32 (F32.of_Z z) = F64.of_Z z.
Proof.
  intros Hz. rewrite F32_of_Z_fl, F64_of_Z_fl.
  apply F64_of_f32_exact; [apply fits32_int; assumption|].
  apply fits64_int; lia.
Qed.

(** [x / 2.0] in binary64. *)
Lemma F64_half (M : Z) :
  Z.abs M < 2 ^ 53 -> F64.div (F64.of_Z M) (F64.of_Z 2) = fl 53 1024 M (-1).
Proof.
  intros HM. destruct (Z.eq_dec M 0) as [->|HM0]; [reflexivity|].
  assert (HF : fits 53 1024 M 0) by (apply fits64_int; lia).
  assert (HF' : fits 53 1024 M (-1)) by (apply fits64_int; lia).
  rewrite F64_of_Z_fl. rewrite (fl_finite 53 1024 M 0), (fl_finite 53 1024 M (-1)) by assumption.
  change (F64.of_Z 2) with (S754_finite false 4503599627370496 (-51)).
  unfold F64.div. cbn [SFdiv]. unfold SFdiv_core_binary.
  cbn [Zdigits2]. rewrite (cmant_digits 53 1024 M 0) by assumption.
  change (Z.pos (digits2_pos 4503599627370496)) with 53.
  set (c := cexp 53 M 0).
  assert (Hc : -53 <= c <= 0).
  { unfold c, cexp. destruct HF as (Hd & _). pose proof (Zdigits2_pos_lt M HM0). lia. }
  change F64.prec with 53. change F64.emax with 1024.
  replace (53 + c - (53 + -51)) with (c + 51) by lia.
  assert (Hfexp : fexp 53 1024 (c + 51) = c - 2) by (unfold fexp, emin; lia).
  rewrite Hfexp. rewrite Z.min_l by lia.
  replace (c - -51 - (c - 2)) with 53 by lia.
  rewrite Z.shiftl_mul_pow2 by lia.
  assert (Hdiv : Z.div_eucl (Z.pos (cmant 53 M) * 2 ^ 53) 4503599627370496
                 = (Z.pos (cmant 53 M) * 2, 0)).
  { pose proof (Z_div_mod (Z.pos (cmant 53 M) * 2 ^ 53) 4503599627370496 ltac:(lia)) as Hdm.
    destruct (Z.div_eucl (Z.pos (cmant 53 M) * 2 ^ 53) 4503599627370496) as [q r].
    destruct Hdm as [Heq Hr].
    change (2 ^ 53) with (4503599627370496 * 2) in Heq.
    assert (r = 0) by lia. subst r. f_equal. lia. }
  rewrite Hdiv.
  change (new_location 4503599627370496 0) with loc_Exact.
  rewrite xorb_false_r.
  change (Z.pos (cmant 53 M) * 2) with (Z.pos (cmant 53 M * 2)).
  assert (Hce : cexp 53 M (-1) = c - 1) by (unfold c, cexp; lia).
  rewrite Hce.
  apply (binary_round_aux_exact 53 1024).
  - rewrite <- Hce. apply cmant_bounded; assumption.
  - lia.
  - replace (c - 1 - (c - 2)) with 1 by lia. rewrite Pos2Z.inj_mul. reflexivity.
Qed.

Lemma float64_to_int32_fl (oor : spec_float -> Z) (M E : Z) :
  fits 53 1024 M E -> E <= 0 -> is_int32 (Z.quot M (2 ^ (- E))) = true ->
  float64_to_int32 oor (fl 53 1024 M E) = Z.quot M (2 ^ (- E)).
Proof.
  intros HF HE Hr. unfold float64_to_int32.
  rewrite (trunc_fl 53 1024) by assumption. rewrite Hr. reflexivity.
Qed.

Lemma is_int32_small (z : Z) : Z.abs z < 2 ^ 31 -> is_int32 z = true.
Proof.
  intros Hz. unfold is_int32. apply andb_true_iff. split; [apply Z.leb_le | apply Z.ltb_lt]; lia.
Qed.

Lemma quot2_abs_le (z : Z) : Z.abs (Z.quot z 2) <= Z.abs z.
Proof.
  destruct (Z_le_gt_dec 0 z).
  - rewrite Z.quot_div_nonneg by lia.
    pose proof (Z.div_pos z 2 ltac:(lia) ltac:(lia)).
    pose proof (Z.div_le_upper_bound z 2 z ltac:(lia) ltac:(lia)). lia.
  - rewrite <- (Z.opp_involutive z) at 1. rewrite Z.quot_opp_l by lia.
    rewrite Z.quot_div_nonneg by lia.
    pose proof (Z.div_pos (- z) 2 ltac:(lia) ltac:(lia)).
    pose proof (Z.div_le_upper_bound (- z) 2 (- z) ltac:(lia) ltac:(lia)). lia.
Qed.

(** The offset of lines 107-108 for a width that is a whole number. *)
Lemma offx_of_int (oor : spec_float -> Z) (W Hh : Z) :
  Z.abs W < 2 ^ 24 -> Hh = -1 \/ Hh = 0 \/ Hh = 1 ->
  offx_of oor (F32.of_Z W) Hh = Z.quot (- (1 + Hh) * W) 2.
Proof.
  intros HW HH. unfold offx_of, half_width.
  rewrite F64_of_f32_int by assumption. rewrite F64_half by lia.
  destruct (Z.eq_dec W 0) as [-> | HW0].
  { destruct HH as [-> | [-> | ->]]; reflexivity. }
  assert (HF : fits 53 1024 W (-1)) by (apply fits64_int; lia).
  assert (HFo : fits 53 1024 (- W) (-1)) by (apply fits_opp; assumption).
  unfold F64.opp. rewrite fl_opp by assumption.
  assert (Hmul : F64.mul (F64.of_Z Hh) (fl 53 1024 W (-1)) =
                 match Hh with
                 | 0 => S754_zero (W <? 0)
                 | Zpos _ => fl 53 1024 W (-1)
                 | Zneg _ => fl 53 1024 (- W) (-1)
                 end).
  { destruct HH as [-> | [-> | ->]].
    - change (F64.of_Z (-1)) with (S754_finite true 4503599627370496 (1 - 53)).
      unfold F64.mul; change F64.prec with 53; change F64.emax with 1024. rewrite (SFmul_one_l 53 1024) by (auto; reflexivity).
      rewrite <- fl_opp, (fl_finite 53 1024 W) by assumption. reflexivity.
    - change (F64.of_Z 0) with (S754_zero false).
      rewrite (fl_finite 53 1024 W) by assumption. reflexivity.
    - change (F64.of_Z 1) with (S754_finite false 4503599627370496 (1 - 53)).
      unfold F64.mul; change F64.prec with 53; change F64.emax with 1024. rewrite (SFmul_one_l 53 1024) by (auto; reflexivity).
      rewrite (fl_finite 53 1024 W) by assumption. reflexivity. }
  rewrite Hmul. clear Hmul.
  assert (Hq : forall z, Z.abs z < 2 ^ 26 ->
            float64_to_int32 oor (fl 53 1024 z (-1)) = Z.quot z 2).
  { intros z Hz. rewrite float64_to_int32_fl; [reflexivity | apply fits64_int; lia | lia |].
    apply is_int32_small. change (2 ^ (- -1)) with 2.
    pose proof (quot2_abs_le z). lia. }
  unfold F64.sub; change F64.prec with 53; change F64.emax with 1024.
  destruct HH as [-> | [-> | ->]].
  - rewrite (SFsub_exact 53 1024 (- W) (-1) (- W) (-1) 0 (-1) (-1));
      [ | assumption | assumption | apply fits64_int; cbn; lia | lia | lia | lia | lia].
    reflexivity.
  - rewrite (fl_finite 53 1024 (- W)) by (auto; lia). cbn [SFsub].
    rewrite <- (fl_finite 53 1024 (- W) (-1)) by (auto; lia).
    rewrite Hq by lia. f_equal; lia.
  - rewrite (SFsub_exact 53 1024 (- W) (-1) W (-1) (- 2 * W) (-1) (-1));
      [ | assumption | assumption | apply fits64_int; lia | lia | lia | lia | lia].
    rewrite Hq by lia. f_equal; lia.
Qed.

Lemma fl_exactly (prec emax M E : Z) :
  fits prec emax M E -> exactly (fl prec emax M E) M E.
Proof.
  intros HF. destruct (Z.eq_dec M 0) as [-> | HM]; [reflexivity|].
  rewrite fl_finite by assumption. cbn [exactly].
  pose proof (cexp_le prec emax M E HF) as Hle.
  rewrite Z.min_l by lia. rewrite Z.sub_diag, Z.pow_0_r, Z.mul_1_r.
  apply (signed_cmant prec emax); assumption.
Qed.

Lemma exactly_rescale (f : spec_float) (M E k : Z) :
  0 <= k -> exactly f M E -> exactly f (M * 2 ^ k) (E - k).
Proof.
  intros Hk. destruct f as [s | s | | s m e]; cbn [exactly]; try tauto.
  - intros ->. reflexivity.
  - intros Hv.
    set (k1 := Z.min e E) in *. set (k2 := Z.min e (E - k)).
    assert (Hk12 : k2 <= k1) by (unfold k1, k2; lia).
    rewrite <- (pow2_mul_min (cond_Zopp s (Z.pos m)) e k1 k2) by (unfold k1; lia).
    rewrite Hv.
    rewrite (pow2_mul_min M E k1 k2) by (unfold k1; lia).
    rewrite <- Z.mul_assoc. f_equal.
    rewrite <- pow2_split by (unfold k2; lia). f_equal. lia.
Qed.

(** ** int26_6ToFloat32 *)

Lemma int26_6_top_div (x : Z) : int26_6_top x = x / 64.
Proof. unfold int26_6_top. rewrite Z.shiftr_div_pow2 by lia. reflexivity. Qed.

Lemma int26_6_bottom_mod (x : Z) : int26_6_bottom x = x mod 64.
Proof.
  unfold int26_6_bottom. change 63 with (Z.ones 6).
  rewrite Z.land_ones by lia. reflexivity.
Qed.

(** [float32(b) / 64.0] for the 64 possible fractions. *)
Lemma F32_div_64 (b : Z) :
  0 <= b < 64 -> F32.div (F32.of_Z b) (F32.of_Z 64) = fl 24 128 b (-6).
Proof.
  intros Hb.
  assert (Hall : forall n : nat, (n < 64)%nat ->
            F32.div (F32.of_Z (Z.of_nat n)) (F32.of_Z 64) = fl 24 128 (Z.of_nat n) (-6)).
  { intros n Hlt.
    do 64 (destruct n as [|n]; [vm_compute; reflexivity|]). lia. }
  rewrite <- (Z2Nat.id b) by lia. apply Hall. lia.
Qed.

Lemma fits32_dyadic (M E : Z) :
  Z.abs M < 2 ^ 24 -> -125 <= E <= 104 -> fits 24 128 M E.
Proof.
  intros HM HE. apply fits_small; [lia | exact HM | unfold emin; lia | lia].
Qed.

Lemma pow2_le_abs (m k : Z) : 0 <= k -> m <> 0 -> 2 ^ k <= Z.abs (m * 2 ^ k).
Proof.
  intros Hk Hm. pose proof (pow2_pos k Hk). rewrite Z.abs_mul, (Z.abs_eq (2 ^ k)) by lia.
  nia.
Qed.

Lemma int26_6ToFloat32_exact (x m k : Z) :
  is_int32 x = true -> 0 <= k -> x = m * 2 ^ k -> Z.abs m < 2 ^ 24 ->
  int26_6ToFloat32 x = fl 24 128 m (k - 6).
Proof.
  intros Hx Hk Hxm Hm.
  unfold is_int32 in Hx. apply andb_true_iff in Hx. destruct Hx as [Hlo Hhi].
  apply Z.leb_le in Hlo. apply Z.ltb_lt in Hhi.
  destruct (Z.eq_dec m 0) as [-> | Hm0].
  { subst x. reflexivity. }
  assert (Hk31 : k < 32).
  { destruct (Z_lt_le_dec k 32) as [|Hge]; [assumption|].
    pose proof (pow2_le_abs m k Hk Hm0) as Hp.
    assert (2 ^ 32 <= 2 ^ k) by (apply Z.pow_le_mono_r; lia). lia. }
  unfold int26_6ToFloat32. rewrite int26_6_top_div, int26_6_bottom_mod.
  pose proof (Z.mod_pos_bound x 64 ltac:(lia)) as Hb.
  pose proof (Z.div_mod x 64 ltac:(lia)) as Hdm.
  rewrite (F32_div_64 (x mod 64)) by assumption.
  unfold F32.add, F32.of_Z. fold (fl F32.prec F32.emax (x / 64) 0).
  change F32.prec with 24. change F32.emax with 128.
  assert (HFm : fits 24 128 m (k - 6)) by (apply fits32_dyadic; lia).
  assert (HFb : fits 24 128 (x mod 64) (-6)) by (apply fits32_dyadic; lia).
  destruct (Z_lt_le_dec k 6) as [Hk6 | Hk6].
  - assert (Habs : Z.abs x < 2 ^ 29).
    { subst x. rewrite Z.abs_mul, (Z.abs_eq (2 ^ k)) by (pose proof (pow2_pos k Hk); lia).
      assert (2 ^ k <= 2 ^ 5) by (apply Z.pow_le_mono_r; lia).
      change (2 ^ 29) with (2 ^ 24 * 2 ^ 5). nia. }
    assert (HFt : fits 24 128 (x / 64) 0) by (apply fits32_int; lia).
    apply (SFadd_exact 24 128 (x / 64) 0 (x mod 64) (-6) m (k - 6) (-6));
      [assumption | assumption | assumption | lia | lia | lia |].
    replace (k - 6 - -6) with k by lia. rewrite <- Hxm.
    change (2 ^ (0 - -6)) with 64. change (2 ^ (-6 - -6)) with 1. lia.
  - assert (Hx64 : x = (m * 2 ^ (k - 6)) * 64).
    { rewrite Hxm. replace k with ((k - 6) + 6) at 1 by lia.
      rewrite pow2_split by lia. change (2 ^ 6) with 64. ring. }
    assert (Hdiv : x / 64 = m * 2 ^ (k - 6)) by (rewrite Hx64; apply Z.div_mul; lia).
    assert (Hmod : x mod 64 = 0) by (rewrite Hx64; apply Z.mod_mul; lia).
    rewrite Hdiv, Hmod.
    rewrite (fl_same 24 128 (m * 2 ^ (k - 6)) 0 m (k - 6) 0); [| assumption | lia | lia |].
    + apply (SFadd_exact 24 128 m (k - 6) 0 (-6) m (k - 6) (-6));
        [assumption | apply fits32_dyadic; cbn; lia | assumption | lia | lia | lia | ring].
    + rewrite !Z.sub_0_r. change (2 ^ 0) with 1. ring.
Qed.

(** C10. For every 26.6 fixed-point value [x], negative ones included,
    [int26_6ToFloat32] splits [x] into the whole part [x >> 6], which is
    the floor of [x / 64], and the fraction [x & 0x3F] in [0, 64); the
    two recombine exactly, [(x >> 6) * 64 + (x & 0x3F) = x]; and whenever
    [x / 64] is representable in binary32 (it is [m * 2^(k-6)] with a
    24-bit [m]) the result is that float and its value is exactly
    [x / 64]. *)
Theorem C10_int26_6_split_recombines (x : Z) :
  is_int32 x = true ->
  int26_6_top x = x / 64 /\
  0 <= int26_6_bottom x < 64 /\
  int26_6_top x * 64 + int26_6_bottom x = x /\
  (forall m k, 0 <= k -> x = m * 2 ^ k -> Z.abs m < 2 ^ 24 ->
     int26_6ToFloat32 x = fl 24 128 m (k - 6) /\
     exactly (int26_6ToFloat32 x) x (-6)).
Proof.
  intros Hx. rewrite int26_6_top_div, int26_6_bottom_mod.
  pose proof (Z.mod_pos_bound x 64 ltac:(lia)) as Hb.
  pose proof (Z.div_mod x 64 ltac:(lia)) as Hdm.
  repeat split; try lia.
  - apply int26_6ToFloat32_exact; assumption.
  - rewrite (int26_6ToFloat32_exact x m k) by assumption.
    destruct (Z.eq_dec m 0) as [-> | Hm0]; [subst x; reflexivity|].
    assert (HF : exactly (fl 24 128 m (k - 6)) m (k - 6)).
    { apply fl_exactly.
      unfold is_int32 in Hx. apply andb_true_iff in Hx. destruct Hx as [Hlo Hhi].
      apply Z.leb_le in Hlo. apply Z.ltb_lt in Hhi.
      apply fits32_dyadic; [assumption|].
      destruct (Z_lt_le_dec k 32) as [|Hge]; [lia|].
      pose proof (pow2_le_abs m k ltac:(lia) Hm0) as Hp.
      assert (2 ^ 32 <= 2 ^ k) by (apply Z.pow_le_mono_r; lia). lia. }
    apply (exactly_rescale _ m (k - 6) k) in HF; [|lia].
    replace (k - 6 - k) with (-6) in HF by lia. subst x. exact HF.
Qed.

Lemma C10_witness :
  is_int32 (-100) = true /\
  int26_6_top (-100) = -2 /\ int26_6_bottom (-100) = 28 /\
  int26_6ToFloat32 (-100) = fl 24 128 (-25) (2 - 6).
Proof.
  destruct (C10_int26_6_split_recombines (-100) eq_refl) as (Ht & Hb & Hr & Hf).
  split; [reflexivity|]. split; [exact Ht|]. split; [reflexivity|].
  destruct (Hf (-25) 2) as [Hfl _]; [lia | reflexivity | reflexivity |].
  exact Hfl.
Defined.

Lemma SFadd_comm (prec emax : Z) (x y : spec_float) :
  SFadd prec emax x y = SFadd prec emax y x.
Proof.
  destruct x as [sx | sx | | sx mx ex], y as [sy | sy | | sy my ey];
    try reflexivity; try (destruct sx, sy; reflexivity).
  cbn [SFadd]. rewrite (Z.min_comm ey ex). f_equal. apply Z.add_comm.
Qed.

(** ** Strings in the supported range *)

Lemma str_bytes_length (str : string) : length (str_bytes str) = String.length str.
Proof. induction str as [|a s IH]; cbn; [reflexivity | f_equal; exact IH]. Qed.

Lemma str_bytes_nonempty (str : string) : str <> ""%string -> str_bytes str <> [].
Proof. destruct str; [congruence | discriminate]. Qed.

Lemma supported_bounds (font : FontInfo) (b : Z) :
  supported font b = true ->
  minASCII <= b < 128 /\ b - minASCII < Z.of_nat (length (runeMap font)).
Proof.
  unfold supported. rewrite !andb_true_iff.
  intros [[H1 H2] H3]. apply Z.leb_le in H1. apply Z.ltb_lt in H2. apply Z.ltb_lt in H3.
  lia.
Qed.

Lemma int32_small (z : Z) : - 2 ^ 31 <= z < 2 ^ 31 -> int32 z = z.
Proof.
  intros Hz. unfold int32, wrap. change (2 ^ (32 - 1)) with (2 ^ 31).
  rewrite Z.mod_small by (change (2 ^ 32) with (2 * 2 ^ 31); lia). lia.
Qed.

Lemma range_runes_ascii (bs : list Z) (fuel : nat) :
  Forall (fun b => b < 128) bs -> (length bs <= fuel)%nat ->
  range_runes_from fuel bs = bs.
Proof.
  revert fuel. induction bs as [|b bs IH]; intros fuel Hall Hlen.
  - destruct fuel; reflexivity.
  - destruct fuel as [|fuel]; [cbn in Hlen; lia|].
    inversion Hall as [|? ? Hb Hrest]; subst. cbn [range_runes_from].
    apply Z.ltb_lt in Hb. rewrite Hb. f_equal. apply IH; [assumption|cbn in Hlen; lia].
Qed.

Lemma all_supported_Forall (font : FontInfo) (str : string) :
  all_supported font str = true ->
  Forall (fun b => supported font b = true) (str_bytes str).
Proof. unfold all_supported. rewrite forallb_forall, List.Forall_forall. auto. Qed.

Lemma range_runes_supported (font : FontInfo) (str : string) :
  all_supported font str = true -> range_runes str = str_bytes str.
Proof.
  intros Hs. unfold range_runes. apply range_runes_ascii; [|lia].
  eapply Forall_impl; [apply all_supported_Forall; eassumption|].
  intros b Hb. cbn beta in Hb. apply supported_bounds in Hb. lia.
Qed.

Lemma index_nth {A : Type} (a : list A) (i : nat) (d : A) :
  (i < length a)%nat -> index a (Z.of_nat i) = Ok (nth i a d).
Proof.
  intros Hi. unfold index.
  destruct (Z.ltb_spec (Z.of_nat i) 0); [lia|].
  rewrite Nat2Z.id. rewrite nth_lookup.
  destruct (a !! i) eqn:Hl; [reflexivity|].
  apply lookup_ge_None in Hl. lia.
Qed.

Lemma rune_info_supported (font : FontInfo) (b : Z) :
  supported font b = true -> rune_info font b = Ok (glyph_of font b).
Proof.
  intros Hb. apply supported_bounds in Hb. unfold minASCII in *.
  unfold rune_info, glyph_of, minASCII.
  rewrite int32_small by lia.
  rewrite <- (Z2Nat.id (b - 32)) at 1 by lia.
  apply index_nth. lia.
Qed.

Lemma last_info_supported (font : FontInfo) (str : string) (b : Z) :
  all_supported font str = true -> last (str_bytes str) = Some b ->
  last_info font str = Ok (glyph_of font b).
Proof.
  intros Hs Hl. unfold last_info.
  assert (Hin : supported font b = true).
  { pose proof (all_supported_Forall font str Hs) as Hall.
    rewrite Forall_forall in Hall. apply Hall.
    apply last_Some_elem_of in Hl. exact Hl. }
  assert (Hidx : index (str_bytes str) (Z.of_nat (length (str_bytes str)) - 1) = Ok b).
  { rewrite last_lookup in Hl.
    destruct (str_bytes str) as [|b0 bs] eqn:Hbs; [discriminate|].
    unfold index. cbn [length] in *.
    destruct (Z.ltb_spec (Z.of_nat (S (length bs)) - 1) 0); [lia|].
    replace (Z.to_nat (Z.of_nat (S (length bs)) - 1)) with (Nat.pred (S (length bs))) by lia.
    rewrite Hl. reflexivity. }
  rewrite Hidx. cbn [obind].
  apply supported_bounds in Hin. unfold minASCII in *.
  unfold glyph_of, minASCII, uint8.
  rewrite Z.mod_small by lia.
  rewrite <- (Z2Nat.id (b - 32)) at 1 by lia.
  apply index_nth. lia.
Qed.

(** ** The loops of MapString and CalcStringDims *)

Lemma sum_advances_supported (font : FontInfo) (bs : list Z) (acc : spec_float) :
  Forall (fun b => supported font b = true) bs ->
  sum_advances font bs acc
  = Ok (fold_left (fun a g => F32.add a (advance g)) (map (glyph_of font) bs) acc).
Proof.
  revert acc. induction bs as [|b bs IH]; intros acc Hall; [reflexivity|].
  inversion Hall as [|? ? Hb Hrest]; subst.
  cbn [sum_advances map fold_left]. rewrite rune_info_supported by assumption.
  cbn [obind]. apply IH. assumption.
Qed.

Lemma dims_loop_supported (font : FontInfo) (bs : list Z) (acc lb : spec_float) :
  Forall (fun b => supported font b = true) bs ->
  exists lb',
    dims_loop font bs acc lb
    = Ok (fold_left (fun a g => F32.add a (advance g)) (map (glyph_of font) bs) acc, lb').
Proof.
  revert acc lb. induction bs as [|b bs IH]; intros acc lb Hall.
  - exists lb. reflexivity.
  - inversion Hall as [|? ? Hb Hrest]; subst.
    cbn [dims_loop map fold_left]. rewrite rune_info_supported by assumption.
    cbn [obind]. apply IH. assumption.
Qed.

Lemma emit_glyphs_supported (font : FontInfo) (bs : list Z) (ox oy : spec_float)
    (buffer : list spec_float) :
  Forall (fun b => supported font b = true) bs ->
  emit_glyphs font bs ox oy buffer = Ok (buffer ++ mesh_of (map (glyph_of font) bs) ox oy).
Proof.
  revert ox buffer. induction bs as [|b bs IH]; intros ox buffer Hall.
  - cbn. rewrite app_nil_r. reflexivity.
  - inversion Hall as [|? ? Hb Hrest]; subst.
    cbn [emit_glyphs map mesh_of]. rewrite rune_info_supported by assumption.
    cbn [obind]. rewrite IH by assumption. rewrite <- app_assoc. reflexivity.
Qed.

Lemma mesh_of_length (gs : list runeInfo) (ox oy : spec_float) :
  length (mesh_of gs ox oy) = (24 * length gs)%nat.
Proof.
  revert ox. induction gs as [|g gs IH]; intros ox; [reflexivity|].
  cbn [mesh_of]. rewrite length_app, IH. cbn [glyph_triangles length]. lia.
Qed.

Lemma last_map_glyph (font : FontInfo) (bs : list Z) :
  last (map (glyph_of font) bs) = option_map (glyph_of font) (last bs).
Proof.
  induction bs as [|b bs IH]; [reflexivity|].
  destruct bs as [|b' bs]; [reflexivity|].
  cbn [map] in *. rewrite !last_cons_cons. exact IH.
Qed.

Lemma last_nonempty {A : Type} (l : list A) : l <> [] -> exists x, last l = Some x.
Proof.
  intros Hl. destruct (last l) eqn:E; [eauto|].
  apply last_None in E. contradiction.
Qed.

(** The width computed by lines 96-105 is the specification's. *)
Lemma adjust_last_spec (gs : list runeInfo) (l : runeInfo) :
  last gs = Some l ->
  adjust_last l (fold_left (fun a g => F32.add a (advance g)) gs F32.zero)
  = spec_total_width gs.
Proof.
  intros Hl. unfold spec_total_width, adjust_last. rewrite Hl.
  unfold F32.add at 2 5. rewrite (SFadd_comm F32.prec F32.emax (F32.of_Z (width l))).
  reflexivity.
Qed.

Lemma string_width_supported (font : FontInfo) (str : string) :
  str <> ""%string -> all_supported font str = true ->
  string_width font str = Ok (spec_total_width (glyphs font str)).
Proof.
  intros Hne Hs. unfold string_width.
  rewrite (range_runes_supported font) by assumption.
  rewrite sum_advances_supported by (apply all_supported_Forall; assumption).
  cbn [obind].
  destruct (last_nonempty (str_bytes str) (str_bytes_nonempty str Hne)) as [b Hb].
  rewrite (last_info_supported font str b) by assumption. cbn [obind].
  f_equal. apply adjust_last_spec.
  unfold glyphs. rewrite last_map_glyph, Hb. reflexivity.
Qed.

(** C2. For every non-empty string of supported characters,
    [CalcStringDims] returns as width the sum of the glyph advances,
    plus the excess [bearingX + width - advance] of the last character
    exactly when its [bearingX + width] exceeds its [advance], and as
    height the line height of the face, whatever the string. *)
Theorem C2_CalcStringDims_measure (font : FontInfo) (str : string) :
  str <> ""%string -> all_supported font str = true ->
  CalcStringDims font str = Ok (spec_measure font str) /\
  snd (spec_measure font str) = F64.of_f32 (Height (font_metrics font)).
Proof.
  intros Hne Hs. split; [|reflexivity].
  unfold CalcStringDims, spec_measure.
  rewrite (range_runes_supported font) by assumption.
  destruct (dims_loop_supported font (str_bytes str) F32.zero F32.zero
              (all_supported_Forall font str Hs)) as [lb Hloop].
  rewrite Hloop. cbn [obind fst].
  destruct (last_nonempty (str_bytes str) (str_bytes_nonempty str Hne)) as [b Hb].
  rewrite (last_info_supported font str b) by assumption. cbn [obind].
  f_equal. f_equal. f_equal. apply adjust_last_spec.
  unfold glyphs. rewrite last_map_glyph, Hb. reflexivity.
Qed.

(** The scenario of the specification: the last character has
    [bearingX = 2], [width = 8] and [advance = 7], so the width is the
    sum of the advances plus 3. *)
Lemma C2_witness :
  CalcStringDims (mono_font 2 8 8 8 7) "AB"
  = Ok (F64.of_Z (7 + 7 + 3), F64.of_Z 12).
Proof.
  destruct (C2_CalcStringDims_measure (mono_font 2 8 8 8 7) "AB") as [Hd _];
    [discriminate | reflexivity |].
  rewrite Hd. vm_compute. reflexivity.
Defined.

(** C9. For every non-empty string of supported characters, [MapString]
    returns six vertices of four [float32] per character, in the order
    of the string: the triangles of the glyphs one after the other, the
    pen moving by each advance; 24 floats per byte of the string. *)
Theorem C9_MapString_mesh_size (oor : spec_float -> Z) (font : FontInfo) (str : string)
    (pos : Point) (align : Align) :
  str <> ""%string -> all_supported font str = true ->
  exists buffer originx originy,
    MapString oor font str pos align = Ok buffer /\
    buffer = mesh_of (glyphs font str) originx originy /\
    length buffer = (24 * String.length str)%nat /\
    length (vertex_xs buffer) = (6 * String.length str)%nat.
Proof.
  intros Hne Hs. unfold MapString.
  rewrite string_width_supported by assumption. cbn [obind].
  rewrite (range_runes_supported font) by assumption.
  rewrite emit_glyphs_supported by (apply all_supported_Forall; assumption).
  eexists _, _, _. split; [reflexivity|]. cbn [app]. split; [reflexivity|].
  unfold glyphs. rewrite <- str_bytes_length.
  split.
  - rewrite mesh_of_length, length_map. reflexivity.
  - generalize (str_bytes str). intros bs.
    match goal with |- context [mesh_of _ ?ox ?oy] => generalize ox end.
    induction bs as [|b bs IH]; intros ox; [reflexivity|].
    cbn [map mesh_of glyph_triangles app vertex_xs length]. rewrite IH. lia.
Qed.

Lemma C9_witness :
  exists buffer originx originy,
    MapString oor_amd64 (mono_font 1 8 6 8 10) "Hi" {| X := 0; Y := 0 |}
              {| V := AlignBelow; H := AlignCenter |} = Ok buffer /\
    buffer = mesh_of (glyphs (mono_font 1 8 6 8 10) "Hi") originx originy /\
    length buffer = 48%nat /\ length (vertex_xs buffer) = 12%nat.
Proof.
  apply (C9_MapString_mesh_size oor_amd64 (mono_font 1 8 6 8 10) "Hi");
    [discriminate | reflexivity].
Defined.

(** ** The horizontal offset *)

Lemma offx_of_spec (oor : spec_float -> Z) (strWidth : spec_float) (alignH : Z) :
  offx_of oor strWidth alignH = float64_to_int32 oor (spec_hoffset strWidth alignH).
Proof. reflexivity. Qed.

(** The mesh of a supported string starts at [float32(pos.X + offx)]. *)
Lemma MapString_supported (oor : spec_float -> Z) (font : FontInfo) (str : string)
    (pos : Point) (align : Align) :
  str <> ""%string -> all_supported font str = true ->
  MapString oor font str pos align
  = Ok (mesh_of (glyphs font str)
          (F32.of_Z (int32 (X pos + offx_of oor (spec_total_width (glyphs font str))
                                                (H align))))
          (F32.add (F32.of_Z (Y pos)) (offy_of font (V align)))).
Proof.
  intros Hne Hs. unfold MapString.
  rewrite string_width_supported by assumption. cbn [obind].
  rewrite (range_runes_supported font) by assumption.
  rewrite emit_glyphs_supported by (apply all_supported_Forall; assumption).
  reflexivity.
Qed.

(** C3, as stated, fails: for the one-character string ["A"] whose glyph
    has advance 7 (and no overflow), centred, the total width is 7 and
    the specification's offset is [-3.5], but [MapString] moves the
    anchor by the [int32] [-3]. *)
Lemma C3_counterexample :
  string_width (mono_font 1 8 6 8 7) "A" = Ok (F32.of_Z 7) /\
  spec_hoffset (F32.of_Z 7) AlignCenter = fl 53 1024 (-7) (-1) /\
  applied_offset oor_amd64 (mono_font 1 8 6 8 7) "A"
                 {| V := AlignBelow; H := AlignCenter |} = Ok (-3) /\
  F64.of_Z (-3) <> spec_hoffset (F32.of_Z 7) AlignCenter.
Proof.
  split; [vm_compute; reflexivity|].
  split; [vm_compute; reflexivity|].
  split; [vm_compute; reflexivity|].
  vm_compute. discriminate.
Qed.

(** C3, amended. For every non-empty string of supported characters,
    the offset that [MapString] adds to the anchor's x is
    [-halfWidth - alignment.horizontal * halfWidth] converted to [int32],
    that is with its fraction discarded; the pen starts at
    [float32(pos.X + offset)].  For a total width that is a whole number
    [W] below [2^24] the offset is [0] for left, [-(W quot 2)] (rounded
    toward zero) for center and [-W] for right alignment. *)
Theorem C3_offset_is_truncated (oor : spec_float -> Z) (font : FontInfo) (str : string)
    (pos : Point) (align : Align) :
  str <> ""%string -> all_supported font str = true ->
  exists strWidth offx,
    string_width font str = Ok strWidth /\
    offx = float64_to_int32 oor (spec_hoffset strWidth (H align)) /\
    applied_offset oor font str align = Ok offx /\
    MapString oor font str pos align
    = Ok (mesh_of (glyphs font str)
            (F32.of_Z (int32 (X pos + offx)))
            (F32.add (F32.of_Z (Y pos)) (offy_of font (V align)))) /\
    (forall W, strWidth = F32.of_Z W -> Z.abs W < 2 ^ 24 ->
       (H align = AlignLeft -> offx = 0) /\
       (H align = AlignCenter -> offx = - Z.quot W 2) /\
       (H align = AlignRight -> offx = - W)).
Proof.
  intros Hne Hs.
  exists (spec_total_width (glyphs font str)).
  exists (float64_to_int32 oor (spec_hoffset (spec_total_width (glyphs font str)) (H align))).
  pose proof (string_width_supported font str Hne Hs) as Hw.
  split; [exact Hw|]. split; [reflexivity|].
  split; [unfold applied_offset; rewrite Hw; reflexivity|].
  split; [apply MapString_supported; assumption|].
  intros W HW Hsmall. rewrite HW, <- offx_of_spec.
  repeat split; intros HH; rewrite HH; unfold AlignLeft, AlignCenter, AlignRight;
    rewrite offx_of_int by (auto; lia).
  - reflexivity.
  - replace (- (1 + 0) * W) with (- W) by lia. apply Z.quot_opp_l. lia.
  - replace (- (1 + 1) * W) with ((- W) * 2) by lia. apply Z.quot_mul. lia.
Qed.

Lemma C3_witness :
  exists strWidth offx,
    string_width (mono_font 1 8 6 8 7) "A" = Ok strWidth /\
    offx = float64_to_int32 oor_amd64 (spec_hoffset strWidth AlignCenter) /\
    applied_offset oor_amd64 (mono_font 1 8 6 8 7) "A"
                   {| V := AlignBelow; H := AlignCenter |} = Ok offx /\
    offx = -3.
Proof.
  destruct (C3_offset_is_truncated oor_amd64 (mono_font 1 8 6 8 7) "A"
              {| X := 0; Y := 0 |} {| V := AlignBelow; H := AlignCenter |})
    as (w & offx & Hw & Hoff & Happ & _ & _); [discriminate | reflexivity |].
  exists w, offx. repeat split; try assumption.
  assert (Hc : string_width (mono_font 1 8 6 8 7) "A" = Ok (F32.of_Z 7))
    by (vm_compute; reflexivity).
  rewrite Hc in Hw. injection Hw as <-.
  rewrite Hoff. vm_compute. reflexivity.
Defined.

(** ** State passing *)

Lemma mbind_Ok_inv {A B : Type} (m : M A) (k : A -> M B) (w w' : World) (b : B) :
  mbind m k w = (Ok b, w') ->
  exists a w1, m w = (Ok a, w1) /\ k a w1 = (Ok b, w').
Proof.
  unfold mbind. destruct (m w) as [[a | e |] w1]; intros Hk; try discriminate.
  exists a, w1. split; [reflexivity | exact Hk].
Qed.

Lemma lift_Ok_inv {A : Type} (o : outcome A) (w w' : World) (a : A) :
  lift o w = (Ok a, w') -> o = Ok a /\ w' = w.
Proof. unfold lift. intros [= -> ->]. split; reflexivity. Qed.

Lemma emit_inv (ev : event) (w w' : World) (u : unit) :
  emit ev w = (Ok u, w') -> w' = {| fontMap := fontMap w; trace := trace w ++ [ev] |}.
Proof. unfold emit. intros [= _ <-]. reflexivity. Qed.

Lemma keeps_mret {A : Type} (a : A) : keeps_cache (mret a).
Proof. intros w. reflexivity. Qed.

Lemma keeps_lift {A : Type} (o : outcome A) : keeps_cache (lift o).
Proof. intros w. reflexivity. Qed.

Lemma keeps_emit (ev : event) : keeps_cache (emit ev).
Proof. intros w. reflexivity. Qed.

Lemma keeps_mbind {A B : Type} (m : M A) (k : A -> M B) :
  keeps_cache m -> (forall a, keeps_cache (k a)) -> keeps_cache (mbind m k).
Proof.
  intros Hm Hk w. unfold mbind. specialize (Hm w).
  destruct (m w) as [[a | e |] w1]; cbn [snd] in *; try exact Hm.
  rewrite Hk. exact Hm.
Qed.

Lemma keeps_glyph_step (fontName : string) (fontSize : Z) (face : Face) (i : Z) (a : atlas) :
  keeps_cache (glyph_step fontName fontSize face i a).
Proof.
  unfold glyph_step. apply keeps_mbind; [apply keeps_emit|]. intros _.
  destruct (negb (g_ok (Glyph face (int32 i)))); [apply keeps_lift|].
  apply keeps_mbind; [apply keeps_emit|]. intros _.
  destruct (g_mask (Glyph face (int32 i))); [|apply keeps_lift].
  destruct (negb (b_ok (GlyphBounds face (int32 i)))); [apply keeps_lift|].
  apply keeps_mbind; [apply keeps_lift|]. intros res. apply keeps_mret.
Qed.

Lemma keeps_glyph_loop (fontName : string) (fontSize : Z) (face : Face) (n : nat) (i : Z)
    (a : atlas) :
  keeps_cache (glyph_loop fontName fontSize face n i a).
Proof.
  revert i a. induction n as [|n IH]; intros i a; cbn [glyph_loop].
  - apply keeps_mret.
  - apply keeps_mbind; [apply keeps_glyph_step|]. intros a'. apply IH.
Qed.

Lemma keeps_build_font (env : Env) (fontName : string) (fontSize : Z) :
  keeps_cache (build_font env fontName fontSize).
Proof.
  unfold build_font.
  apply keeps_mbind; [apply keeps_emit|]. intros _.
  apply keeps_mbind; [apply keeps_lift|]. intros fontBytes.
  apply keeps_mbind; [apply keeps_lift|]. intros ttf.
  apply keeps_mbind; [apply keeps_emit|]. intros _.
  apply keeps_mbind; [apply keeps_lift|]. intros fontBytes2.
  apply keeps_mbind; [apply keeps_lift|]. intros sfnt.
  apply keeps_mbind; [apply keeps_glyph_loop|]. intros a.
  apply keeps_mbind; [apply keeps_emit|]. intros _.
  destruct (negb (g_ok (Glyph (ttf fontSize) 65))); [apply keeps_lift|].
  destruct (g_mask (Glyph (ttf fontSize) 65)) as [glyph|]; [|apply keeps_lift].
  destruct (Stride glyph =? 0); [apply keeps_lift|].
  apply keeps_mbind.
  { unfold NewTexture. apply keeps_mbind; [apply keeps_emit|]. intros _. apply keeps_mret. }
  intros fontTexture.
  apply keeps_mbind; [apply keeps_emit|]. intros _.
  apply keeps_mbind; [apply keeps_emit|]. intros _.
  apply keeps_mbind; [apply keeps_lift|]. intros otfMetrics.
  apply keeps_mret.
Qed.

(** ** The font cache *)

Lemma world_eta (w : World) : {| fontMap := fontMap w; trace := trace w |} = w.
Proof. destruct w; reflexivity. Qed.

Lemma cache_lookup_made (w : World) (k : fontKey) :
  match fontMap w with Some m => m | None => ∅ end !! k = cache_lookup w k.
Proof. unfold cache_lookup. destruct (fontMap w); [reflexivity | apply lookup_empty]. Qed.

(** A call that finds its key returns the stored font and does nothing
    else. *)
Lemma LoadFontTexture_hit (env : Env) (fontName : string) (fontSize : Z) (w : World)
    (font : FontInfo) :
  cache_lookup w (fontName, fontSize) = Some font ->
  LoadFontTexture env fontName fontSize w = (Ok font, w).
Proof.
  intros Hl. unfold LoadFontTexture. rewrite cache_lookup_made, Hl.
  unfold cache_lookup in Hl. destruct w as [[m|] tr]; cbn in *; [reflexivity | discriminate].
Qed.

(** A call that misses builds the font, and stores it only on success. *)
Lemma LoadFontTexture_miss (env : Env) (fontName : string) (fontSize : Z) (w : World) :
  cache_lookup w (fontName, fontSize) = None ->
  let m := match fontMap w with Some m => m | None => ∅ end in
  let w1 := {| fontMap := Some m; trace := trace w |} in
  LoadFontTexture env fontName fontSize w =
  match build_font env fontName fontSize w1 with
  | (Ok InfoLoaded, w2) =>
      (Ok InfoLoaded,
       {| fontMap := Some (<[(fontName, fontSize) := InfoLoaded]> m); trace := trace w2 |})
  | r => r
  end.
Proof.
  intros Hl m w1. unfold LoadFontTexture. fold m. fold w1.
  unfold m at 1. rewrite cache_lookup_made, Hl.
  pose proof (keeps_build_font env fontName fontSize w1) as Hk.
  destruct (build_font env fontName fontSize w1) as [[f | e |] w2]; try reflexivity.
  cbn [snd] in Hk. rewrite Hk. reflexivity.
Qed.

Lemma LoadFontTexture_Ok_cached (env : Env) (fontName : string) (fontSize : Z)
    (w w' : World) (font : FontInfo) :
  LoadFontTexture env fontName fontSize w = (Ok font, w') ->
  cache_lookup w' (fontName, fontSize) = Some font.
Proof.
  intros Hload.
  destruct (cache_lookup w (fontName, fontSize)) as [f|] eqn:Hl.
  - rewrite (LoadFontTexture_hit env _ _ _ f Hl) in Hload.
    injection Hload as <- <-. exact Hl.
  - rewrite (LoadFontTexture_miss env _ _ _ Hl) in Hload. cbv zeta in Hload.
    destruct (build_font env fontName fontSize _) as [[f | e |] w2]; try discriminate.
    injection Hload as <- <-. unfold cache_lookup. cbn [fontMap].
    apply lookup_insert_eq.
Qed.

(** Entries are never removed or replaced. *)
Lemma LoadFontTexture_keeps_entries (env : Env) (fontName : string) (fontSize : Z)
    (w w' : World) (r : outcome FontInfo) (k : fontKey) (font : FontInfo) :
  LoadFontTexture env fontName fontSize w = (r, w') ->
  cache_lookup w k = Some font -> cache_lookup w' k = Some font.
Proof.
  intros Hload Hk.
  destruct (cache_lookup w (fontName, fontSize)) as [f|] eqn:Hl.
  - rewrite (LoadFontTexture_hit env _ _ _ f Hl) in Hload.
    injection Hload as <- <-. exact Hk.
  - rewrite (LoadFontTexture_miss env _ _ _ Hl) in Hload. cbv zeta in Hload.
    pose proof (keeps_build_font env fontName fontSize
                  {| fontMap := Some match fontMap w with Some m => m | None => ∅ end;
                     trace := trace w |}) as Hkeep.
    destruct (build_font env fontName fontSize _) as [[f | e |] w2];
      cbn [snd fontMap] in Hkeep.
    + injection Hload as <- <-. unfold cache_lookup. cbn [fontMap].
      rewrite lookup_insert_ne; [rewrite cache_lookup_made; exact Hk|].
      intros <-. congruence.
    + injection Hload as <- <-. unfold cache_lookup. rewrite Hkeep.
      rewrite cache_lookup_made. exact Hk.
    + injection Hload as <- <-. unfold cache_lookup. rewrite Hkeep.
      rewrite cache_lookup_made. exact Hk.
Qed.

(** C5. After a successful call for a key, a second call for the same
    key, whatever the files and the device have become, returns the same
    [FontInfo] (the same glyph metrics, the same texture and its
    dimensions) and leaves the world as it is: it reads no file,
    rasterizes no glyph and uploads no texture.  The entry stays in the
    cache through every later call, so the build runs at most once for
    the key. *)
Theorem C5_second_call_hits_cache (env1 env2 : Env) (fontName : string) (fontSize : Z)
    (w w1 : World) (font1 : FontInfo) :
  LoadFontTexture env1 fontName fontSize w = (Ok font1, w1) ->
  LoadFontTexture env2 fontName fontSize w1 = (Ok font1, w1) /\
  (forall font2 w2,
     LoadFontTexture env2 fontName fontSize w1 = (Ok font2, w2) ->
     runeMap font2 = runeMap font1 /\
     tex_width (texture font2) = tex_width (texture font1) /\
     tex_height (texture font2) = tex_height (texture font1) /\
     trace w2 = trace w1) /\
  (forall env3 name3 size3 r w3,
     LoadFontTexture env3 name3 size3 w1 = (r, w3) ->
     cache_lookup w3 (fontName, fontSize) = Some font1 /\
     LoadFontTexture env2 fontName fontSize w3 = (Ok font1, w3)).
Proof.
  intros Hfirst.
  pose proof (LoadFontTexture_Ok_cached _ _ _ _ _ _ Hfirst) as Hc.
  pose proof (LoadFontTexture_hit env2 _ _ _ _ Hc) as Hhit.
  split; [exact Hhit|]. split.
  - intros font2 w2 Hsecond. rewrite Hhit in Hsecond.
    injection Hsecond as <- <-. repeat split; reflexivity.
  - intros env3 name3 size3 r w3 Hother.
    pose proof (LoadFontTexture_keeps_entries _ _ _ _ _ _ _ _ Hother Hc) as Hc3.
    split; [exact Hc3|]. apply LoadFontTexture_hit. exact Hc3.
Qed.

(** C6. Whenever [LoadFontTexture] does not succeed for a key (it
    returns an error for a missing glyph, a file that cannot be read or
    parsed, or a failed face or texture; or it panics) the cache holds
    afterwards exactly the entries it held before, and none for that
    key; a file that cannot be read is reported as that error. *)
Theorem C6_failure_leaves_cache (env : Env) (fontName : string) (fontSize : Z)
    (w w' : World) (r : outcome FontInfo) :
  LoadFontTexture env fontName fontSize w = (r, w') ->
  (forall font, r <> Ok font) ->
  (forall k, cache_lookup w' k = cache_lookup w k) /\
  cache_lookup w' (fontName, fontSize) = None /\
  (forall e, ReadFile env fontName = Err e -> r = Err e).
Proof.
  intros Hload Hfail.
  destruct (cache_lookup w (fontName, fontSize)) as [f|] eqn:Hl.
  { rewrite (LoadFontTexture_hit env _ _ _ f Hl) in Hload.
    injection Hload as <- <-. exfalso. apply (Hfail f). reflexivity. }
  assert (Hsame : forall k, cache_lookup w' k = cache_lookup w k).
  { rewrite (LoadFontTexture_miss env _ _ _ Hl) in Hload. cbv zeta in Hload.
    pose proof (keeps_build_font env fontName fontSize
                  {| fontMap := Some match fontMap w with Some m => m | None => ∅ end;
                     trace := trace w |}) as Hkeep.
    destruct (build_font env fontName fontSize _) as [[f | e |] w2];
      cbn [snd fontMap] in Hkeep.
    - injection Hload as <- <-. exfalso. apply (Hfail f). reflexivity.
    - injection Hload as <- <-. intros k. unfold cache_lookup at 1. rewrite Hkeep.
      apply cache_lookup_made.
    - injection Hload as <- <-. intros k. unfold cache_lookup at 1. rewrite Hkeep.
      apply cache_lookup_made. }
  split; [exact Hsame|]. split; [rewrite Hsame; exact Hl|].
  intros e Hread.
  rewrite (LoadFontTexture_miss env _ _ _ Hl) in Hload. cbv zeta in Hload.
  unfold build_font in Hload. unfold mbind at 1 in Hload. cbn [emit] in Hload.
  unfold mbind at 1 in Hload. unfold lift at 1 in Hload. rewrite Hread in Hload.
  injection Hload as <- _. reflexivity.
Qed.

(** A font with no glyphs: the call fails with [ErrNoFontGlyph] for the
    first character and the cache stays empty. *)
Lemma C6_witness :
  fst (LoadFontTexture (demo_env false) "a.ttf" 12 initial_world)
  = Err (ErrNoFontGlyph "a.ttf" 12 32) /\
  cache_lookup (snd (LoadFontTexture (demo_env false) "a.ttf" 12 initial_world))
               ("a.ttf"%string, 12) = None.
Proof.
  assert (Hr : fst (LoadFontTexture (demo_env false) "a.ttf" 12 initial_world)
               = Err (ErrNoFontGlyph "a.ttf" 12 32)) by (vm_compute; reflexivity).
  split; [exact Hr|].
  destruct (C6_failure_leaves_cache (demo_env false) "a.ttf" 12 initial_world
              (snd (LoadFontTexture (demo_env false) "a.ttf" 12 initial_world))
              (fst (LoadFontTexture (demo_env false) "a.ttf" 12 initial_world)))
    as (_ & Hnone & _).
  - destruct (LoadFontTexture (demo_env false) "a.ttf" 12 initial_world); reflexivity.
  - intros font. rewrite Hr. discriminate.
  - exact Hnone.
Defined.

Lemma C5_witness :
  exists font1 w1,
    LoadFontTexture (demo_env true) "a.ttf" 12 initial_world = (Ok font1, w1) /\
    LoadFontTexture nofile_env "a.ttf" 12 w1 = (Ok font1, w1).
Proof.
  destruct (LoadFontTexture (demo_env true) "a.ttf" 12 initial_world) as [r w1] eqn:Hrun.
  assert (Hr : exists font1, r = Ok font1).
  { assert (Hfst : match fst (LoadFontTexture (demo_env true) "a.ttf" 12 initial_world) with
                   | Ok _ => true | _ => false end = true) by (vm_compute; reflexivity).
    rewrite Hrun in Hfst. cbn [fst] in Hfst.
    destruct r as [font1 | e |]; [eauto | discriminate Hfst | discriminate Hfst]. }
  destruct Hr as [font1 ->]. exists font1, w1. split; [reflexivity|].
  apply (C5_second_call_hits_cache (demo_env true) nofile_env "a.ttf" 12 initial_world w1 font1).
  exact Hrun.
Defined.

(** ** Wrap-around *)

Lemma wrap_add_l (n a b : Z) : wrap n (wrap n a + b) = wrap n (a + b).
Proof.
  unfold wrap. f_equal.
  replace ((a + 2 ^ (n - 1)) mod 2 ^ n - 2 ^ (n - 1) + b + 2 ^ (n - 1))
    with ((a + 2 ^ (n - 1)) mod 2 ^ n + b) by lia.
  rewrite Zplus_mod_idemp_l. f_equal. lia.
Qed.

Lemma wrap_add_r (n a b : Z) : wrap n (a + wrap n b) = wrap n (a + b).
Proof. rewrite (Z.add_comm a), wrap_add_l. f_equal. lia. Qed.

Lemma int32_add_l (a b : Z) : int32 (int32 a + b) = int32 (a + b).
Proof. apply wrap_add_l. Qed.

Lemma int32_add_r (a b : Z) : int32 (a + int32 b) = int32 (a + b).
Proof. apply wrap_add_r. Qed.

Lemma int32_int64 (z : Z) : int32 (int64 z) = int32 z.
Proof.
  unfold int32, int64, wrap. f_equal.
  change (2 ^ (64 - 1)) with (2 ^ 63). change (2 ^ (32 - 1)) with (2 ^ 31).
  replace ((z + 2 ^ 63) mod 2 ^ 64 - 2 ^ 63 + 2 ^ 31)
    with ((z + 2 ^ 63) mod 2 ^ 64 + (2 ^ 31 - 2 ^ 63)) by lia.
  change (2 ^ 64) with (2 ^ 32 * 2 ^ 32).
  rewrite <- (Zplus_mod_idemp_l ((z + 2 ^ 63) mod (2 ^ 32 * 2 ^ 32))).
  rewrite (Z.mod_mod_divide (z + 2 ^ 63) (2 ^ 32 * 2 ^ 32) (2 ^ 32))
    by (exists (2 ^ 32); reflexivity).
  rewrite Zplus_mod_idemp_l.
  replace (z + 2 ^ 63 + (2 ^ 31 - 2 ^ 63)) with (z + 2 ^ 31) by lia. reflexivity.
Qed.

Lemma int64_range (z : Z) : - 2 ^ 63 <= int64 z < 2 ^ 63.
Proof.
  unfold int64, wrap. change (2 ^ (64 - 1)) with (2 ^ 63).
  pose proof (Z.mod_pos_bound (z + 2 ^ 63) (2 ^ 64) ltac:(lia)) as Hb.
  change (2 ^ 64) with (2 * 2 ^ 63) in *. lia.
Qed.

(** [int64 z] differs from [z] by a multiple of [2^64]. *)
Lemma int64_congr (z : Z) : exists q, int64 z = z + q * 2 ^ 64.
Proof.
  unfold int64, wrap. change (2 ^ (64 - 1)) with (2 ^ 63).
  exists (- ((z + 2 ^ 63) / 2 ^ 64)).
  pose proof (Z.div_mod (z + 2 ^ 63) (2 ^ 64) ltac:(lia)). lia.
Qed.

(** ** The glyph loop *)

Lemma slice_Ok_length {A : Type} (a : list A) (lo hi : Z) (s : list A) :
  slice a lo hi = Ok s -> 0 <= lo <= hi /\ Z.of_nat (length s) = hi - lo.
Proof.
  unfold slice.
  destruct ((0 <=? lo) && (lo <=? hi) && (hi <=? Z.of_nat (length a))) eqn:Hc;
    [|discriminate].
  intros [= <-]. apply andb_true_iff in Hc. destruct Hc as [Hc H3].
  apply andb_true_iff in Hc. destruct Hc as [H1 H2].
  apply Z.leb_le in H1. apply Z.leb_le in H2. apply Z.leb_le in H3.
  split; [lia|]. rewrite length_take, length_drop. lia.
Qed.

(** A row that is copied has [Stride] bytes. *)
Lemma row_bytes_stride (y r S lo hi : Z) :
  is_int64 S = true ->
  lo = int64 (int64 (y + r) * S) ->
  hi = int64 (int64 (int64 (y + r) + 1) * S) ->
  0 <= lo <= hi -> hi - lo = S.
Proof.
  intros HS Hlo Hhi Hle.
  unfold is_int64 in HS. apply andb_true_iff in HS. destruct HS as [HS1 HS2].
  apply Z.leb_le in HS1. apply Z.ltb_lt in HS2.
  pose proof (int64_range (int64 (int64 (y + r) + 1) * S)) as Rhi. rewrite <- Hhi in Rhi.
  destruct (int64_congr (int64 (y + r) * S)) as [q1 E1].
  destruct (int64_congr (int64 (y + r) + 1)) as [q2 E2].
  destruct (int64_congr (int64 (int64 (y + r) + 1) * S)) as [q3 E3].
  rewrite <- Hlo in E1. rewrite <- Hhi in E3. rewrite E2 in E3.
  set (A := int64 (y + r)) in *.
  assert (Hd : hi - lo = S + (q2 * S + q3 - q1) * 2 ^ 64) by (rewrite E1, E3; ring).
  set (Q := q2 * S + q3 - q1) in *. clearbody Q.
  change (2 ^ 64) with 18446744073709551616 in Hd.
  change (2 ^ 63) with 9223372036854775808 in *. lia.
Qed.

Lemma int32_idem (z : Z) : int32 (int32 z) = int32 z.
Proof.
  pose proof (int32_add_l z 0) as Hz. rewrite !Z.add_0_r in Hz. exact Hz.
Qed.

Lemma copy_rows_Ok (glyph : Alpha) (y : Z) (n : nat) (r : Z) (bytes : list Z) (cur : Z)
    (bytes' : list Z) (cur' : Z) :
  copy_rows glyph y n r bytes cur = Ok (bytes', cur') ->
  (int32 cur = cur -> cur' = int32 (cur + Z.of_nat n)) /\
  (is_int64 (Stride glyph) = true ->
   Z.of_nat (length bytes') = Z.of_nat (length bytes) + Z.of_nat n * Stride glyph).
Proof.
  revert r bytes cur. induction n as [|n IH]; intros r bytes cur Hc.
  - cbn [copy_rows] in Hc. injection Hc as <- <-.
    split; [intros Hcur; rewrite Z.add_0_r; symmetry; exact Hcur | intros _; lia].
  - cbn [copy_rows] in Hc.
    destruct (slice (Pix glyph) _ _) as [row_bytes | e |] eqn:Hs; cbn [obind] in Hc;
      try discriminate.
    apply IH in Hc. destruct Hc as [Hcur Hlen].
    apply slice_Ok_length in Hs. destruct Hs as [Hle Hrow].
    split.
    + intros _. rewrite Hcur by apply int32_idem.
      rewrite int32_add_l. f_equal. lia.
    + intros HS. rewrite Hlen by assumption. rewrite length_app.
      rewrite (row_bytes_stride y r (Stride glyph) _ _ HS eq_refl eq_refl Hle) in Hrow.
      lia.
Qed.

Lemma codes_lookup (k : nat) :
  (k < numRunes)%nat -> codes !! k = Some (minASCII + Z.of_nat k).
Proof.
  intros Hk. unfold codes. rewrite list_lookup_fmap.
  rewrite lookup_seq_lt by assumption. reflexivity.
Qed.

Lemma rows_upto_S (face : Face) (k : nat) :
  (k < numRunes)%nat ->
  rows_upto face (S k)
  = rows_upto face k + Dy (g_dr (Glyph face (minASCII + Z.of_nat k))).
Proof.
  intros Hk. unfold rows_upto.
  rewrite (take_S_r codes k _ (codes_lookup k Hk)).
  rewrite fold_left_app. reflexivity.
Qed.

Lemma rows_upto_all (face : Face) : rows_upto face numRunes = total_rows face.
Proof.
  unfold rows_upto, total_rows. rewrite take_ge; [reflexivity|].
  unfold codes. rewrite length_map, length_seq. lia.
Qed.

Lemma rects_ok_Dy (face : Face) (k : nat) :
  rects_ok face = true -> (k < numRunes)%nat ->
  0 <= Dy (g_dr (Glyph face (minASCII + Z.of_nat k))).
Proof.
  intros Hok Hk. unfold rects_ok in Hok. rewrite forallb_forall in Hok.
  apply Z.leb_le. apply Hok.
  apply list_elem_of_In. apply list_elem_of_lookup. exists k. apply codes_lookup. exact Hk.
Qed.

Lemma stride_ok_mask (face : Face) (S : Z) (k : nat) (glyph : Alpha) :
  stride_ok face S = true -> (k < numRunes)%nat ->
  g_mask (Glyph face (minASCII + Z.of_nat k)) = Some glyph ->
  Stride glyph = S /\ is_int64 S = true.
Proof.
  intros Hok Hk Hm. unfold stride_ok in Hok. apply andb_true_iff in Hok.
  destruct Hok as [HS Hall]. split; [|exact HS].
  rewrite forallb_forall in Hall.
  specialize (Hall (minASCII + Z.of_nat k)). rewrite Hm in Hall.
  apply Z.eqb_eq. apply Hall.
  apply list_elem_of_In. apply list_elem_of_lookup. exists k. apply codes_lookup. exact Hk.
Qed.

(** What a successful turn of the loop has done. *)
Lemma glyph_step_Ok_inv (fontName : string) (fontSize : Z) (face : Face) (i : Z)
    (a a' : atlas) (w w' : World) :
  glyph_step fontName fontSize face i a w = (Ok a', w') ->
  let g := Glyph face (int32 i) in
  let b := GlyphBounds face (int32 i) in
  g_ok g = true /\ b_ok b = true /\
  exists glyph,
    g_mask g = Some glyph /\
    copy_rows glyph (snd (g_maskp g)) (Z.to_nat (Dy (g_dr g))) 0
              (a_glyphBytes a) (a_currentIndex a)
    = Ok (a_glyphBytes a', a_currentIndex a') /\
    a_runeMap a'
    = <[Z.to_nat (i - minASCII) :=
          make_runeInfo (a_currentIndex a) (g_dr g) (b_bounds b) (g_advance g)]>
        (a_runeMap a).
Proof.
  intros Hstep g b. unfold glyph_step in Hstep. fold g in Hstep. fold b in Hstep.
  apply mbind_Ok_inv in Hstep. destruct Hstep as (u & w1 & _ & Hstep).
  destruct (g_ok g) eqn:Hok; cbn [negb] in Hstep;
    [|apply lift_Ok_inv in Hstep; destruct Hstep; discriminate].
  apply mbind_Ok_inv in Hstep. destruct Hstep as (u2 & w2 & _ & Hstep).
  destruct (g_mask g) as [glyph|] eqn:Hmask;
    [|apply lift_Ok_inv in Hstep; destruct Hstep; discriminate].
  destruct (b_ok b) eqn:Hbok; cbn [negb] in Hstep;
    [|apply lift_Ok_inv in Hstep; destruct Hstep; discriminate].
  apply mbind_Ok_inv in Hstep. destruct Hstep as (res & w3 & Hcopy & Hret).
  apply lift_Ok_inv in Hcopy. destruct Hcopy as [Hcopy _].
  unfold mret in Hret. injection Hret as <- _. cbn [a_runeMap a_glyphBytes a_currentIndex].
  split; [reflexivity|]. split; [reflexivity|]. exists glyph.
  split; [reflexivity|]. split; [|reflexivity].
  rewrite Hcopy. destruct res; reflexivity.
Qed.

Lemma int32_code (k : nat) :
  (k < numRunes)%nat -> int32 (minASCII + Z.of_nat k) = minASCII + Z.of_nat k.
Proof.
  intros Hk. apply int32_small. unfold minASCII.
  assert (numRunes = 95%nat) by reflexivity. lia.
Qed.

Lemma loop_inv_empty (face : Face) : loop_inv face 0 empty_atlas.
Proof.
  split; [apply length_replicate|]. split; [reflexivity|].
  intros j x Hj. lia.
Qed.

Lemma glyph_step_inv (fontName : string) (fontSize : Z) (face : Face) (k : nat)
    (a a' : atlas) (w w' : World) :
  (k < numRunes)%nat -> rects_ok face = true ->
  glyph_step fontName fontSize face (minASCII + Z.of_nat k) a w = (Ok a', w') ->
  loop_inv face k a -> loop_inv face (S k) a'.
Proof.
  intros Hk Hrect Hstep (Hlen & Hcur & Hrows).
  apply glyph_step_Ok_inv in Hstep. cbv zeta in Hstep.
  rewrite int32_code in Hstep by assumption.
  destruct Hstep as (_ & _ & glyph & _ & Hcopy & Hmap).
  replace (Z.to_nat (minASCII + Z.of_nat k - minASCII)) with k in Hmap by lia.
  pose proof (rects_ok_Dy face k Hrect Hk) as HDy.
  apply copy_rows_Ok in Hcopy. destruct Hcopy as [Hcur' _].
  rewrite Z2Nat.id in Hcur' by assumption.
  assert (Hidem : int32 (a_currentIndex a) = a_currentIndex a)
    by (rewrite Hcur; apply int32_idem).
  specialize (Hcur' Hidem).
  split; [rewrite Hmap, length_insert; exact Hlen|]. split.
  - rewrite Hcur', Hcur, int32_add_l, rows_upto_S by assumption. reflexivity.
  - intros j x Hj Hx. rewrite Hmap in Hx.
    destruct (Nat.eq_dec j k) as [-> | Hne].
    + rewrite list_lookup_insert_eq in Hx by lia. injection Hx as <-.
      cbn [row height make_runeInfo]. split; [exact Hcur | reflexivity].
    + rewrite list_lookup_insert_ne in Hx by lia. apply Hrows; [lia | exact Hx].
Qed.

Lemma glyph_step_bytes (fontName : string) (fontSize : Z) (face : Face) (S : Z) (k : nat)
    (a a' : atlas) (w w' : World) :
  (k < numRunes)%nat -> rects_ok face = true -> stride_ok face S = true ->
  glyph_step fontName fontSize face (minASCII + Z.of_nat k) a w = (Ok a', w') ->
  bytes_inv face S k a -> bytes_inv face S (Datatypes.S k) a'.
Proof.
  intros Hk Hrect Hstride Hstep Hbytes. unfold bytes_inv in *.
  apply glyph_step_Ok_inv in Hstep. cbv zeta in Hstep.
  rewrite int32_code in Hstep by assumption.
  destruct Hstep as (_ & _ & glyph & Hmask & Hcopy & _).
  destruct (stride_ok_mask face S k glyph Hstride Hk Hmask) as [HS Hint].
  pose proof (rects_ok_Dy face k Hrect Hk) as HDy.
  apply copy_rows_Ok in Hcopy. destruct Hcopy as [_ Hlen].
  rewrite HS in Hlen. specialize (Hlen Hint).
  rewrite Z2Nat.id in Hlen by assumption.
  rewrite Hlen, Hbytes, rows_upto_S by assumption. ring.
Qed.

Lemma glyph_loop_inv (fontName : string) (fontSize : Z) (face : Face) (n k : nat)
    (a a' : atlas) (w w' : World) :
  (k + n <= numRunes)%nat -> rects_ok face = true ->
  glyph_loop fontName fontSize face n (minASCII + Z.of_nat k) a w = (Ok a', w') ->
  loop_inv face k a -> loop_inv face (k + n) a'.
Proof.
  revert k a w. induction n as [|n IH]; intros k a w Hkn Hrect Hloop Hinv.
  - cbn [glyph_loop] in Hloop. unfold mret in Hloop. injection Hloop as <- _.
    rewrite Nat.add_0_r. exact Hinv.
  - cbn [glyph_loop] in Hloop. apply mbind_Ok_inv in Hloop.
    destruct Hloop as (a1 & w1 & Hstep & Hrest).
    replace (k + S n)%nat with (S k + n)%nat by lia.
    replace (minASCII + Z.of_nat k + 1) with (minASCII + Z.of_nat (S k)) in Hrest by lia.
    apply (IH (S k) a1 w1); [lia | assumption | exact Hrest |].
    apply (glyph_step_inv fontName fontSize face k a a1 w w1); [lia | assumption..].
Qed.

Lemma glyph_loop_bytes (fontName : string) (fontSize : Z) (face : Face) (S : Z) (n k : nat)
    (a a' : atlas) (w w' : World) :
  (k + n <= numRunes)%nat -> rects_ok face = true -> stride_ok face S = true ->
  glyph_loop fontName fontSize face n (minASCII + Z.of_nat k) a w = (Ok a', w') ->
  bytes_inv face S k a -> bytes_inv face S (k + n) a'.
Proof.
  revert k a w. induction n as [|n IH]; intros k a w Hkn Hrect Hstride Hloop Hinv.
  - cbn [glyph_loop] in Hloop. unfold mret in Hloop. injection Hloop as <- _.
    rewrite Nat.add_0_r. exact Hinv.
  - cbn [glyph_loop] in Hloop. apply mbind_Ok_inv in Hloop.
    destruct Hloop as (a1 & w1 & Hstep & Hrest).
    replace (k + Datatypes.S n)%nat with (Datatypes.S k + n)%nat by lia.
    replace (minASCII + Z.of_nat k + 1) with (minASCII + Z.of_nat (Datatypes.S k))
      in Hrest by lia.
    apply (IH (Datatypes.S k) a1 w1); [lia | assumption | assumption | exact Hrest |].
    apply (glyph_step_bytes fontName fontSize face S k a a1 w w1); [lia | assumption..].
Qed.

(** Every glyph of the range was found when the loop succeeds. *)
Lemma glyph_loop_all_ok (fontName : string) (fontSize : Z) (face : Face) (n k : nat)
    (a a' : atlas) (w w' : World) :
  (k + n <= numRunes)%nat ->
  glyph_loop fontName fontSize face n (minASCII + Z.of_nat k) a w = (Ok a', w') ->
  forall j, (k <= j < k + n)%nat -> g_ok (Glyph face (minASCII + Z.of_nat j)) = true.
Proof.
  revert k a w. induction n as [|n IH]; intros k a w Hkn Hloop j Hj; [lia|].
  cbn [glyph_loop] in Hloop. apply mbind_Ok_inv in Hloop.
  destruct Hloop as (a1 & w1 & Hstep & Hrest).
  destruct (Nat.eq_dec j k) as [-> | Hne].
  - apply glyph_step_Ok_inv in Hstep. cbv zeta in Hstep.
    rewrite int32_code in Hstep by lia. destruct Hstep as (Hok & _). exact Hok.
  - replace (minASCII + Z.of_nat k + 1) with (minASCII + Z.of_nat (S k)) in Hrest by lia.
    apply (IH (S k) a1 w1); [lia | exact Hrest | lia].
Qed.

(** What a successful build has done. *)
Lemma build_font_Ok_inv (env : Env) (fontName : string) (fontSize : Z) (w w' : World)
    (font : FontInfo) :
  build_font env fontName fontSize w = (Ok font, w') ->
  exists face a w1 w2 glyph,
    face_of env fontName fontSize = Some face /\
    glyph_loop fontName fontSize face numRunes minASCII empty_atlas w1 = (Ok a, w2) /\
    runeMap font = a_runeMap a /\
    g_mask (Glyph face 65) = Some glyph /\
    Stride glyph <> 0 /\
    tex_width (texture font) = int32 (Stride glyph) /\
    tex_height (texture font)
    = int32 (int64 (Z.quot (Z.of_nat (length (a_glyphBytes a))) (Stride glyph))) /\
    trace w' = trace w2 ++
      [EvGlyph 65;
       EvTexImage2D (tex_id (texture font)) (tex_width (texture font))
                    (tex_height (texture font)) (a_glyphBytes a);
       EvTexParameteri (tex_id (texture font)) gl_TEXTURE_MIN_FILTER gl_NEAREST;
       EvTexParameteri (tex_id (texture font)) gl_TEXTURE_MAG_FILTER gl_NEAREST].
Proof.
  intros Hb. unfold build_font in Hb.
  apply mbind_Ok_inv in Hb. destruct Hb as (u1 & wa & _ & Hb).
  apply mbind_Ok_inv in Hb. destruct Hb as (fontBytes & wb & Hread & Hb).
  apply lift_Ok_inv in Hread. destruct Hread as [Hread _].
  apply mbind_Ok_inv in Hb. destruct Hb as (ttf & wc & Hparse & Hb).
  apply lift_Ok_inv in Hparse. destruct Hparse as [Hparse _].
  apply mbind_Ok_inv in Hb. destruct Hb as (u2 & wd & _ & Hb).
  apply mbind_Ok_inv in Hb. destruct Hb as (fontBytes2 & we & _ & Hb).
  apply mbind_Ok_inv in Hb. destruct Hb as (sfnt & wf & _ & Hb).
  apply mbind_Ok_inv in Hb. destruct Hb as (a & w2 & Hloop & Hb).
  apply mbind_Ok_inv in Hb. destruct Hb as (u3 & wg & Hemit & Hb).
  apply emit_inv in Hemit.
  destruct (g_ok (Glyph (ttf fontSize) 65)); cbn [negb] in Hb;
    [|apply lift_Ok_inv in Hb; destruct Hb as [Hb _]; discriminate Hb].
  destruct (g_mask (Glyph (ttf fontSize) 65)) as [glyph|] eqn:Hmask;
    [|apply lift_Ok_inv in Hb; destruct Hb as [Hb _]; discriminate Hb].
  destruct (Z.eqb_spec (Stride glyph) 0) as [|Hne];
    [apply lift_Ok_inv in Hb; destruct Hb as [Hb _]; discriminate Hb|].
  apply mbind_Ok_inv in Hb. destruct Hb as (tex & wh & Htex & Hb).
  unfold NewTexture in Htex.
  apply mbind_Ok_inv in Htex. destruct Htex as (u4 & wi & Hemit2 & Htex).
  apply emit_inv in Hemit2. unfold mret in Htex. injection Htex as <- <-.
  apply mbind_Ok_inv in Hb. destruct Hb as (u5 & wj & Hemit3 & Hb).
  apply emit_inv in Hemit3.
  apply mbind_Ok_inv in Hb. destruct Hb as (u6 & wk & Hemit4 & Hb).
  apply emit_inv in Hemit4.
  apply mbind_Ok_inv in Hb. destruct Hb as (otf & wl & Hotf & Hb).
  apply lift_Ok_inv in Hotf. destruct Hotf as [_ ->].
  unfold mret in Hb. injection Hb as <- <-.
  exists (ttf fontSize), a, wf, w2, glyph.
  split; [unfold face_of; rewrite Hread, Hparse; reflexivity|].
  split; [exact Hloop|]. cbn [runeMap texture tex_width tex_height tex_id].
  split; [reflexivity|]. split; [exact Hmask|]. split; [exact Hne|].
  split; [reflexivity|]. split; [reflexivity|].
  subst wk wj wi wg. cbn [trace fontMap]. rewrite <- !app_assoc. reflexivity.
Qed.

Lemma atlas_rows_contiguous (face : Face) (rm : list runeInfo) :
  atlas_rows face rm -> contiguous rm.
Proof.
  intros [Hlen Hrows]. split.
  - intros r0 H0. apply Hrows in H0. destruct H0 as [H0 _]. exact H0.
  - intros i a b Ha Hb.
    assert (Hi : (i < numRunes)%nat).
    { apply lookup_lt_Some in Hb. lia. }
    apply Hrows in Ha. apply Hrows in Hb. destruct Ha as [Ra Ha], Hb as [Rb _].
    rewrite Rb, Ra, Ha, rows_upto_S by assumption.
    rewrite int32_add_l, int32_add_r. reflexivity.
Qed.

Lemma build_font_atlas_rows (env : Env) (fontName : string) (fontSize : Z) (w w' : World)
    (font : FontInfo) (face : Face) :
  build_font env fontName fontSize w = (Ok font, w') ->
  face_of env fontName fontSize = Some face -> rects_ok face = true ->
  atlas_rows face (runeMap font).
Proof.
  intros Hb Hface Hrect.
  apply build_font_Ok_inv in Hb.
  destruct Hb as (face' & a & w1 & w2 & glyph & Hface' & Hloop & Hrm & _).
  rewrite Hface in Hface'. injection Hface' as <-.
  apply (glyph_loop_inv fontName fontSize face numRunes 0 empty_atlas a w1 w2) in Hloop;
    [| lia | assumption | apply loop_inv_empty].
  destruct Hloop as (Hlen & _ & Hrows). rewrite Hrm.
  split; [exact Hlen|]. intros j x Hx. apply Hrows; [|exact Hx].
  apply lookup_lt_Some in Hx. cbn [Nat.add]. lia.
Qed.

(** C1. For every atlas that [LoadFontTexture] returns (built by this
    call or by an earlier one and cached), the glyph records, in the
    order of the supported range, start at row 0 and each next row is the
    row before plus its height: no gap and no overlap.  The sum is Go's
    [int32] sum, which is the plain sum whenever that fits 32 bits.  The
    rasterizer's bounding rectangles are taken well formed. *)
Theorem C1_rows_contiguous (env : Env) (fontName : string) (fontSize : Z)
    (w w' : World) (font : FontInfo) :
  (forall face, face_of env fontName fontSize = Some face -> rects_ok face = true) ->
  cache_all rows_contiguous w ->
  LoadFontTexture env fontName fontSize w = (Ok font, w') ->
  (length (runeMap font) = numRunes /\
   (forall r0, runeMap font !! 0%nat = Some r0 -> row r0 = 0) /\
   (forall i a b, runeMap font !! i = Some a -> runeMap font !! S i = Some b ->
      row b = int32 (row a + height a) /\
      (- 2 ^ 31 <= row a + height a < 2 ^ 31 -> row b = row a + height a))) /\
  cache_all rows_contiguous w'.
Proof.
  intros Hrect Hcache Hload.
  assert (Hfont : rows_contiguous font /\ cache_all rows_contiguous w').
  { destruct (cache_lookup w (fontName, fontSize)) as [f|] eqn:Hl.
    - rewrite (LoadFontTexture_hit env _ _ _ f Hl) in Hload.
      injection Hload as <- <-. split; [apply (Hcache _ _ Hl) | exact Hcache].
    - rewrite (LoadFontTexture_miss env _ _ _ Hl) in Hload. cbv zeta in Hload.
      destruct (build_font env fontName fontSize _) as [[f | e |] w2] eqn:Hb;
        [| discriminate Hload | discriminate Hload].
      injection Hload as <- <-.
      assert (Hf : rows_contiguous f).
      { pose proof (build_font_Ok_inv _ _ _ _ _ _ Hb) as (face & _ & _ & _ & _ & Hface & _).
        pose proof (build_font_atlas_rows _ _ _ _ _ _ face Hb Hface (Hrect face Hface))
          as Hrows.
        split; [apply Hrows | apply (atlas_rows_contiguous face); exact Hrows]. }
      split; [exact Hf|].
      intros k f' Hk. unfold cache_lookup in Hk. cbn [fontMap] in Hk.
      destruct (decide ((fontName, fontSize) = k)) as [<- | Hne].
      + rewrite lookup_insert_eq in Hk. injection Hk as <-. exact Hf.
      + rewrite lookup_insert_ne in Hk by assumption.
        rewrite cache_lookup_made in Hk. apply (Hcache _ _ Hk). }
  destruct Hfont as [[Hlen [H0 Hstep]] Hcache'].
  split; [|exact Hcache'].
  split; [exact Hlen|]. split; [exact H0|].
  intros i a b Ha Hb. pose proof (Hstep i a b Ha Hb) as Hrow.
  split; [exact Hrow|]. intros Hfit. rewrite Hrow. apply int32_small. exact Hfit.
Qed.

Lemma demo_face_of (ok : bool) (fontName : string) (fontSize : Z) :
  face_of (demo_env ok) fontName fontSize = Some (demo_face ok).
Proof. reflexivity. Qed.

Lemma initial_world_cache_all (P : FontInfo -> Prop) : cache_all P initial_world.
Proof. intros k f Hk. discriminate Hk. Qed.

Lemma demo_load_Ok :
  exists font w1, LoadFontTexture (demo_env true) "a.ttf" 12 initial_world = (Ok font, w1).
Proof.
  destruct (LoadFontTexture (demo_env true) "a.ttf" 12 initial_world) as [r w1] eqn:Hrun.
  assert (Hfst : match fst (LoadFontTexture (demo_env true) "a.ttf" 12 initial_world) with
                 | Ok _ => true | _ => false end = true) by (vm_compute; reflexivity).
  rewrite Hrun in Hfst. cbn [fst] in Hfst.
  destruct r as [font | e |]; [eauto | discriminate Hfst | discriminate Hfst].
Qed.

Lemma C1_witness :
  exists font w1,
    LoadFontTexture (demo_env true) "a.ttf" 12 initial_world = (Ok font, w1) /\
    length (runeMap font) = numRunes /\
    (forall i a b, runeMap font !! i = Some a -> runeMap font !! S i = Some b ->
       row b = int32 (row a + height a)).
Proof.
  destruct demo_load_Ok as (font & w1 & Hrun). exists font, w1.
  split; [exact Hrun|].
  destruct (C1_rows_contiguous (demo_env true) "a.ttf" 12 initial_world w1 font)
    as [(Hlen & _ & Hstep) _].
  - intros face Hface. rewrite demo_face_of in Hface. injection Hface as <-.
    vm_compute. reflexivity.
  - apply initial_world_cache_all.
  - exact Hrun.
  - split; [exact Hlen|]. intros i a b Ha Hb. apply (Hstep i a b Ha Hb).
Defined.

Lemma rows_upto_nonneg (face : Face) (k : nat) :
  rects_ok face = true -> (k <= numRunes)%nat -> 0 <= rows_upto face k.
Proof.
  intros Hrect. induction k as [|k IH]; intros Hk; [reflexivity|].
  rewrite rows_upto_S by lia.
  pose proof (rects_ok_Dy face k Hrect ltac:(lia)). specialize (IH ltac:(lia)). lia.
Qed.

(** C8. When [LoadFontTexture] builds an atlas (the key was not cached
    and the call succeeds) from a rasterizer with well-formed rectangles
    whose masks all have the byte stride [S], the texture created has
    width [int32(S)] and height the final running row count, which is
    the number of bitmap rows appended over the whole range; the bytes
    uploaded are that many rows of [S] bytes.  Width and height are [S]
    and the row total themselves whenever those fit an [int32]. *)
Theorem C8_texture_dimensions (env : Env) (fontName : string) (fontSize : Z)
    (w w' : World) (font : FontInfo) (face : Face) (S : Z) :
  cache_lookup w (fontName, fontSize) = None ->
  LoadFontTexture env fontName fontSize w = (Ok font, w') ->
  face_of env fontName fontSize = Some face ->
  rects_ok face = true -> stride_ok face S = true ->
  tex_width (texture font) = int32 S /\
  tex_height (texture font) = int32 (total_rows face) /\
  (exists a w1 w2,
     glyph_loop fontName fontSize face numRunes minASCII empty_atlas w1 = (Ok a, w2) /\
     tex_height (texture font) = a_currentIndex a /\
     Z.of_nat (length (a_glyphBytes a)) = total_rows face * S /\
     In (EvTexImage2D (tex_id (texture font)) (tex_width (texture font))
                      (tex_height (texture font)) (a_glyphBytes a)) (trace w')) /\
  (- 2 ^ 31 <= S < 2 ^ 31 -> tex_width (texture font) = S) /\
  (total_rows face < 2 ^ 31 -> tex_height (texture font) = total_rows face).
Proof.
  intros Hl Hload Hface Hrect Hstride.
  rewrite (LoadFontTexture_miss env _ _ _ Hl) in Hload. cbv zeta in Hload.
  destruct (build_font env fontName fontSize _) as [[f | e |] wb] eqn:Hb;
    [| discriminate Hload | discriminate Hload].
  injection Hload as <- <-. cbn [trace].
  apply build_font_Ok_inv in Hb.
  destruct Hb as (face' & a & w1 & w2 & glyph & Hface' & Hloop & Hrm & Hmask & Hne
                  & Hw & Hh & Htrace).
  rewrite Hface in Hface'. injection Hface' as <-.
  destruct (stride_ok_mask face S 33 glyph Hstride ltac:(cbv; lia) Hmask) as [HS Hint].
  pose proof (glyph_loop_inv fontName fontSize face numRunes 0 empty_atlas a w1 w2
                ltac:(lia) Hrect Hloop (loop_inv_empty face)) as (_ & Hcur & _).
  assert (Hbytes0 : bytes_inv face S 0 empty_atlas) by reflexivity.
  pose proof (glyph_loop_bytes fontName fontSize face S numRunes 0 empty_atlas a w1 w2
                ltac:(lia) Hrect Hstride Hloop Hbytes0) as Hbytes.
  unfold bytes_inv in Hbytes. cbn [Nat.add] in Hcur, Hbytes.
  rewrite rows_upto_all in Hcur, Hbytes.
  assert (Hheight : tex_height (texture f) = int32 (total_rows face)).
  { rewrite Hh, Hbytes, HS. rewrite Z.quot_mul by (rewrite <- HS; exact Hne).
    apply int32_int64. }
  split; [rewrite Hw, HS; reflexivity|]. split; [exact Hheight|]. split.
  - exists a, w1, w2. split; [exact Hloop|]. split; [rewrite Hheight, Hcur; reflexivity|].
    split; [exact Hbytes|]. rewrite Htrace. apply in_or_app. right. right. left. reflexivity.
  - split.
    + intros HSr. rewrite Hw, HS. apply int32_small. exact HSr.
    + intros HT. rewrite Hheight. apply int32_small.
      pose proof (rows_upto_nonneg face numRunes Hrect ltac:(lia)) as Hnn.
      rewrite rows_upto_all in Hnn. lia.
Qed.

(** The demonstration rasterizer: 95 glyphs of 8 rows in masks of stride
    8 give a texture 8 wide and 760 high. *)
Lemma C8_witness :
  exists font w1,
    LoadFontTexture (demo_env true) "a.ttf" 12 initial_world = (Ok font, w1) /\
    tex_width (texture font) = 8 /\ tex_height (texture font) = 760.
Proof.
  destruct demo_load_Ok as (font & w1 & Hrun). exists font, w1.
  split; [exact Hrun|].
  destruct (C8_texture_dimensions (demo_env true) "a.ttf" 12 initial_world w1 font
              (demo_face true) 8) as (_ & _ & _ & Hw & Hh).
  - reflexivity.
  - exact Hrun.
  - reflexivity.
  - vm_compute. reflexivity.
  - vm_compute. reflexivity.
  - split; [apply Hw; lia|].
    assert (HT : total_rows (demo_face true) = 760) by (vm_compute; reflexivity).
    rewrite <- HT. apply Hh. rewrite HT. lia.
Defined.

(** ** The glyph record *)

(** C4, at a failing input.  A glyph whose precise bounding box starts
    at 1.25 pixels (80/64) and whose advance is 10 pixels: rounding the
    left edge to the nearest integer gives 1, but the record holds
    [bearingX = 2], the ceiling, because [math.Round] is applied to
    [Min.X.Ceil()], already an integer.  The advance is rounded as
    claimed.  The whole build stores the same: every glyph of the
    demonstration rasterizer has [bearingX = 2]. *)
Theorem C4_bearingX_is_ceiling_not_rounded :
  let roundedRect := {| Min_X := 1; Min_Y := -8; Max_X := 7; Max_Y := 0 |} in
  let accurateRect := {| Min_X := 80; Min_Y := -512; Max_X := 448; Max_Y := 0 |} in
  let info := make_runeInfo 0 roundedRect accurateRect 640 in
  round_half_away_26_6 80 = 1 /\
  Int26_6_Ceil 80 = 2 /\
  bearingX info = F32.of_Z 2 /\
  bearingX info <> F32.of_Z (round_half_away_26_6 80) /\
  advance info = F32.of_Z (round_half_away_26_6 640) /\
  match fst (LoadFontTexture (demo_env true) "a.ttf" 12 initial_world) with
  | Ok font => forallb (fun g => SFeqb (bearingX g) (F32.of_Z 2)) (runeMap font)
  | _ => false
  end = true.
Proof.
  cbv zeta.
  split; [reflexivity|]. split; [reflexivity|]. split; [vm_compute; reflexivity|].
  split; [vm_compute; intros Heq; discriminate Heq|].
  split; [vm_compute; reflexivity|].
  vm_compute. reflexivity.
Qed.

(** ** Layout in whole numbers *)

Lemma fold_advance_shift (zs : list glyphZ) (acc : Z) :
  fold_left (fun a g => a + zadv g) zs acc = acc + total_advance zs.
Proof.
  unfold total_advance. revert acc. induction zs as [|g zs IH]; intros acc; cbn [fold_left].
  - lia.
  - rewrite IH, (IH (0 + zadv g)). lia.
Qed.

Lemma total_advance_cons (g : glyphZ) (zs : list glyphZ) :
  total_advance (g :: zs) = zadv g + total_advance zs.
Proof. unfold total_advance at 1. cbn [fold_left]. rewrite fold_advance_shift. lia. Qed.

Lemma total_advance_nonneg (zs : list glyphZ) :
  Forall small_glyph zs -> 0 <= total_advance zs.
Proof.
  induction 1 as [|g zs Hg _ IH]; [reflexivity|].
  rewrite total_advance_cons. destruct Hg as [Hg _]. lia.
Qed.

Lemma last_advance_le (zs : list glyphZ) (z : glyphZ) :
  Forall small_glyph zs -> last zs = Some z -> zadv z <= total_advance zs.
Proof.
  intros Hall. induction Hall as [|g zs Hg Hrest IH]; intros Hl; [discriminate Hl|].
  rewrite total_advance_cons. destruct zs as [|g' zs'].
  - cbn in Hl. injection Hl as <-. cbn. lia.
  - rewrite last_cons_cons in Hl. specialize (IH Hl). destruct Hg as [Hg _]. lia.
Qed.

Lemma F32_zero_of_Z : F32.zero = F32.of_Z 0.
Proof. reflexivity. Qed.

Lemma fold_advances_int (gs : list runeInfo) (zs : list glyphZ) (acc : Z) :
  Forall2 is_glyphZ gs zs -> Forall small_glyph zs ->
  0 <= acc -> acc + total_advance zs < 2 ^ 24 ->
  fold_left (fun a g => F32.add a (advance g)) gs (F32.of_Z acc)
  = F32.of_Z (acc + total_advance zs).
Proof.
  intros H2. revert acc. induction H2 as [|g z gs zs Hgz _ IH]; intros acc Hall Hacc Hb.
  - cbn. f_equal. unfold total_advance. cbn. lia.
  - inversion Hall as [|? ? Hz Hrest]; subst. cbn [fold_left].
    rewrite total_advance_cons in *. destruct Hgz as (_ & _ & Hadv). rewrite Hadv.
    pose proof (total_advance_nonneg zs Hrest) as Hnn. destruct Hz as [Hz0 _].
    rewrite F32_add_int by lia.
    rewrite IH by (auto; lia). f_equal. lia.
Qed.

Lemma Forall2_last (gs : list runeInfo) (zs : list glyphZ) (l : runeInfo) :
  Forall2 is_glyphZ gs zs -> last gs = Some l ->
  exists z, last zs = Some z /\ is_glyphZ l z.
Proof.
  intros H2. induction H2 as [|g z gs zs Hgz Hrest IH]; intros Hl; [discriminate Hl|].
  destruct Hrest as [|g' z' gs' zs' Hgz' Hrest'].
  - cbn in Hl. injection Hl as <-. exists z. split; [reflexivity | exact Hgz].
  - rewrite last_cons_cons in Hl. rewrite last_cons_cons. apply IH. exact Hl.
Qed.

Lemma last_Forall {A : Type} (P : A -> Prop) (l : list A) (x : A) :
  Forall P l -> last l = Some x -> P x.
Proof.
  intros Hall Hl. rewrite Forall_forall in Hall. apply Hall.
  apply last_Some_elem_of. exact Hl.
Qed.

(** The total width of whole-number glyphs is computed exactly. *)
Lemma spec_total_width_int (gs : list runeInfo) (zs : list glyphZ) :
  gs <> [] -> Forall2 is_glyphZ gs zs -> Forall small_glyph zs ->
  total_advance zs <= 2 ^ 20 ->
  spec_total_width gs = F32.of_Z (total_width zs) /\
  0 <= total_width zs <= 3 * 2 ^ 20.
Proof.
  intros Hne H2 Hall HA.
  destruct (last_nonempty gs Hne) as [l Hl].
  destruct (Forall2_last gs zs l H2 Hl) as (z & Hz & Hlz).
  pose proof (last_Forall _ _ _ Hall Hz) as (Hz0 & Hzb & Hzw).
  pose proof (last_advance_le zs z Hall Hz) as Hle.
  pose proof (total_advance_nonneg zs Hall) as Hnn.
  unfold spec_total_width, total_width. rewrite Hl, Hz.
  rewrite F32_zero_of_Z, (fold_advances_int gs zs 0) by (auto; lia).
  destruct Hlz as (Hbx & Hw & Hadv). rewrite Hbx, Hw, Hadv.
  rewrite Z.add_0_l.
  rewrite (F32_add_int (zbx z) (zw z)) by lia.
  rewrite F32_ltb_int by lia.
  destruct (Z.ltb_spec (zadv z) (zbx z + zw z)) as [Hlt | Hge].
  - rewrite F32_sub_int by lia. rewrite F32_add_int by lia.
    rewrite Z.max_r by lia. split; [reflexivity | lia].
  - rewrite Z.max_l by lia. split; [f_equal; lia | lia].
Qed.

Lemma layout_xs_bounds (zs : list glyphZ) (pen : Z) :
  Forall small_glyph zs -> Z.abs pen + total_advance zs <= 5 * 2 ^ 20 ->
  Forall (fun x => Z.abs x <= 7 * 2 ^ 20) (layout_xs zs pen).
Proof.
  intros Hall. revert pen. induction Hall as [|g zs Hg Hrest IH]; intros pen Hb.
  - constructor.
  - rewrite total_advance_cons in Hb. destruct Hg as (Ha & Hbx & Hw).
    pose proof (total_advance_nonneg zs Hrest) as Hnn.
    cbn [layout_xs app].
    repeat (constructor; [lia|]).
    apply IH. lia.
Qed.

Lemma mesh_xs_int (gs : list runeInfo) (zs : list glyphZ) (pen : Z) (oy : spec_float) :
  Forall2 is_glyphZ gs zs -> Forall small_glyph zs ->
  Z.abs pen + total_advance zs <= 5 * 2 ^ 20 ->
  vertex_xs (mesh_of gs (F32.of_Z pen) oy) = map F32.of_Z (layout_xs zs pen).
Proof.
  intros H2. revert pen. induction H2 as [|g z gs zs Hgz _ IH]; intros pen Hall Hb.
  - reflexivity.
  - inversion Hall as [|? ? Hz Hrest]; subst.
    rewrite total_advance_cons in Hb. destruct Hz as (Ha & Hbx & Hw).
    pose proof (total_advance_nonneg zs Hrest) as Hnn.
    destruct Hgz as (Ebx & Ew & Eadv).
    cbn [mesh_of glyph_triangles app vertex_xs layout_xs map].
    rewrite Ebx, Ew, Eadv.
    rewrite (F32_add_int pen (zbx z)) by lia.
    rewrite (F32_add_int (pen + zbx z) (zw z)) by lia.
    rewrite (F32_add_int pen (zadv z)) by lia.
    rewrite IH by (auto; lia). reflexivity.
Qed.

Lemma fmin_int (a b : Z) :
  Z.abs a < 2 ^ 24 -> Z.abs b < 2 ^ 24 ->
  fmin (F32.of_Z a) (F32.of_Z b) = F32.of_Z (Z.min a b).
Proof.
  intros Ha Hb. unfold fmin. rewrite F32_ltb_int by assumption.
  destruct (Z.ltb_spec b a); f_equal; lia.
Qed.

Lemma fmax_int (a b : Z) :
  Z.abs a < 2 ^ 24 -> Z.abs b < 2 ^ 24 ->
  fmax (F32.of_Z a) (F32.of_Z b) = F32.of_Z (Z.max a b).
Proof.
  intros Ha Hb. unfold fmax. rewrite F32_ltb_int by assumption.
  destruct (Z.ltb_spec a b); f_equal; lia.
Qed.

Lemma fold_fmin_int (xs : list Z) (x : Z) (B : Z) :
  B < 2 ^ 24 -> Z.abs x <= B -> Forall (fun y => Z.abs y <= B) xs ->
  fold_left fmin (map F32.of_Z xs) (F32.of_Z x) = F32.of_Z (zmin_list xs x) /\
  Z.abs (zmin_list xs x) <= B.
Proof.
  intros HB Hx Hall. revert x Hx. unfold zmin_list.
  induction Hall as [|y xs Hy _ IH]; intros x Hx; cbn [map fold_left].
  - split; [reflexivity | exact Hx].
  - rewrite fmin_int by lia. apply IH. lia.
Qed.

Lemma fold_fmax_int (xs : list Z) (x : Z) (B : Z) :
  B < 2 ^ 24 -> Z.abs x <= B -> Forall (fun y => Z.abs y <= B) xs ->
  fold_left fmax (map F32.of_Z xs) (F32.of_Z x) = F32.of_Z (zmax_list xs x) /\
  Z.abs (zmax_list xs x) <= B.
Proof.
  intros HB Hx Hall. revert x Hx. unfold zmax_list.
  induction Hall as [|y xs Hy _ IH]; intros x Hx; cbn [map fold_left].
  - split; [reflexivity | exact Hx].
  - rewrite fmax_int by lia. apply IH. lia.
Qed.

Lemma min_max_x_int (xs : list Z) (B : Z) :
  xs <> [] -> B < 2 ^ 24 -> Forall (fun y => Z.abs y <= B) xs ->
  min_x (map F32.of_Z xs) = Some (F32.of_Z (lmin xs)) /\
  max_x (map F32.of_Z xs) = Some (F32.of_Z (lmax xs)) /\
  Z.abs (lmin xs) <= B /\ Z.abs (lmax xs) <= B.
Proof.
  intros Hne HB Hall. destruct xs as [|x xs]; [contradiction|].
  inversion Hall as [|? ? Hx Hrest]; subst.
  destruct (fold_fmin_int xs x B HB Hx Hrest) as [Hmin Hbmin].
  destruct (fold_fmax_int xs x B HB Hx Hrest) as [Hmax Hbmax].
  cbn [map min_x max_x lmin lmax]. rewrite Hmin, Hmax. auto.
Qed.

Lemma Forall2_glyphs_nonempty (gs : list runeInfo) (zs : list glyphZ) :
  Forall2 is_glyphZ gs zs -> gs <> [] -> zs <> [].
Proof.
  intros H2 Hne. destruct H2 as [|g z gs zs Hgz Hrest]; [contradiction | discriminate].
Qed.

Lemma layout_xs_nonempty (zs : list glyphZ) (pen : Z) : zs <> [] -> layout_xs zs pen <> [].
Proof. destruct zs; [contradiction | discriminate]. Qed.

(** C7, as stated, fails on the specification's own scenario: the
    string ["A"], whose glyph has advance 10, bearingX 1 and width 6,
    centred on the anchor [(0, 0)].  The pen starts at [-5], the quad
    spans [-4] to [2], and the two extremes add up to [-2], two whole
    units away from [2 * anchor.x = 0]. *)
Lemma C7_counterexample :
  match MapString oor_amd64 (mono_font 1 8 6 8 10) "A" {| X := 0; Y := 0 |}
                  {| V := AlignBelow; H := AlignCenter |} with
  | Ok buffer => (min_x (vertex_xs buffer), max_x (vertex_xs buffer))
  | _ => (None, None)
  end = (Some (F32.of_Z (-4)), Some (F32.of_Z 2)) /\
  F32.add (F32.of_Z (-4)) (F32.of_Z 2) = F32.of_Z (-2) /\
  F32.of_Z (-2) <> F32.of_Z (2 * 0).
Proof.
  split; [vm_compute; reflexivity|]. split; [vm_compute; reflexivity|].
  vm_compute. intros Heq. discriminate Heq.
Qed.

(** C7, amended.  For a non-empty string of supported characters whose
    glyph metrics are whole numbers (advances not negative, everything
    small enough for [float32] to be exact), [MapString] with center
    alignment starts the pen at [anchor.x - (W quot 2)], [W] the total
    width, and the vertices are those of the whole-number layout from
    there.  It is the layout box from the pen origin to origin + [W]
    that is centred: [origin + (origin + W) = 2 * anchor.x + W mod 2].
    The least and the greatest vertex x add up to [2 * anchor.x] when
    moreover [W] is even, the leftmost vertex is at the pen origin and
    the rightmost at origin + [W]. *)
Theorem C7_center_centres_layout_box (oor : spec_float -> Z) (font : FontInfo)
    (str : string) (pos : Point) (alignV : Z) (zs : list glyphZ) :
  str <> ""%string -> all_supported font str = true ->
  Forall2 is_glyphZ (glyphs font str) zs -> Forall small_glyph zs ->
  total_advance zs <= 2 ^ 20 -> Z.abs (X pos) <= 2 ^ 20 ->
  let W := total_width zs in
  let origin := X pos - Z.quot W 2 in
  let xs := layout_xs zs origin in
  exists buffer,
    MapString oor font str pos {| V := alignV; H := AlignCenter |} = Ok buffer /\
    vertex_xs buffer = map F32.of_Z xs /\
    min_x (vertex_xs buffer) = Some (F32.of_Z (lmin xs)) /\
    max_x (vertex_xs buffer) = Some (F32.of_Z (lmax xs)) /\
    F32.add (F32.of_Z (lmin xs)) (F32.of_Z (lmax xs)) = F32.of_Z (lmin xs + lmax xs) /\
    origin + (origin + W) = 2 * X pos + W mod 2 /\
    (W mod 2 = 0 -> lmin xs = origin -> lmax xs = origin + W ->
     lmin xs + lmax xs = 2 * X pos).
Proof.
  intros Hne Hs H2 Hsmall HA HX W origin xs.
  assert (Hgs : glyphs font str <> []).
  { unfold glyphs. intros Hnil. apply map_eq_nil in Hnil.
    exact (str_bytes_nonempty str Hne Hnil). }
  destruct (spec_total_width_int (glyphs font str) zs Hgs H2 Hsmall HA) as [HW HWb].
  fold W in HW, HWb.
  pose proof (total_advance_nonneg zs Hsmall) as Hnn.
  assert (Hq : 0 <= Z.quot W 2 <= W).
  { rewrite Z.quot_div_nonneg by lia.
    pose proof (Z.div_pos W 2 ltac:(lia) ltac:(lia)).
    pose proof (Z.div_le_upper_bound W 2 W ltac:(lia) ltac:(lia)). lia. }
  assert (Horigin : Z.abs origin <= 4 * 2 ^ 20) by (unfold origin; lia).
  pose proof (MapString_supported oor font str pos {| V := alignV; H := AlignCenter |}
                Hne Hs) as Hmap.
  cbn [H V] in Hmap. rewrite HW in Hmap. unfold AlignCenter in Hmap.
  rewrite offx_of_int in Hmap by (auto; lia).
  replace (- (1 + 0) * W) with (- W) in Hmap by lia.
  rewrite Z.quot_opp_l in Hmap by lia.
  replace (X pos + - Z.quot W 2) with origin in Hmap by (unfold origin; lia).
  rewrite int32_small in Hmap by lia.
  eexists. split; [exact Hmap|].
  assert (Hxs : vertex_xs (mesh_of (glyphs font str) (F32.of_Z origin)
                   (F32.add (F32.of_Z (Y pos)) (offy_of font alignV)))
                = map F32.of_Z xs).
  { apply mesh_xs_int; [assumption | assumption | lia]. }
  rewrite Hxs. split; [reflexivity|].
  assert (Hzs : zs <> []) by (apply (Forall2_glyphs_nonempty _ _ H2 Hgs)).
  pose proof (layout_xs_bounds zs origin Hsmall ltac:(lia)) as Hbounds. fold xs in Hbounds.
  destruct (min_max_x_int xs (7 * 2 ^ 20) (layout_xs_nonempty zs origin Hzs)
              ltac:(lia) Hbounds) as (Hmin & Hmax & Hbmin & Hbmax).
  split; [exact Hmin|]. split; [exact Hmax|].
  split; [apply F32_add_int; lia|].
  assert (Hmod : W - 2 * Z.quot W 2 = W mod 2).
  { rewrite Z.quot_div_nonneg by lia. pose proof (Z.div_mod W 2 ltac:(lia)). lia. }
  split; [unfold origin; lia|].
  intros Heven Hl Hr. rewrite Hl, Hr. unfold origin. lia.
Qed.

(** A glyph whose ink fills its advance box (bearingX 0, width 10,
    advance 10): two of them centred on [x = 100] span 90 to 110. *)
Lemma C7_witness :
  exists buffer,
    MapString oor_amd64 (mono_font 0 8 10 8 10) "AB" {| X := 100; Y := 0 |}
              {| V := AlignBelow; H := AlignCenter |} = Ok buffer /\
    min_x (vertex_xs buffer) = Some (F32.of_Z 90) /\
    max_x (vertex_xs buffer) = Some (F32.of_Z 110) /\
    90 + 110 = 2 * 100.
Proof.
  destruct (C7_center_centres_layout_box oor_amd64 (mono_font 0 8 10 8 10) "AB"
              {| X := 100; Y := 0 |} AlignBelow
              [ {| zbx := 0; zw := 10; zadv := 10 |}; {| zbx := 0; zw := 10; zadv := 10 |} ])
    as (buffer & Hmap & _ & Hmin & Hmax & _).
  - intros Heq. discriminate Heq.
  - reflexivity.
  - repeat constructor.
  - repeat constructor; cbn; lia.
  - cbn. lia.
  - cbn. lia.
  - exists buffer. split; [exact Hmap|]. split; [exact Hmin|]. split; [exact Hmax|].
    reflexivity.
Defined.

(* ===================================================================== *)
(** * Further properties of the code *)
(* ===================================================================== *)

(** ** Strings outside the contract *)

Lemma decoderune_not_ascii (s : list Z) : 128 <= fst (decoderune s).
Proof.
  unfold decoderune, RuneError.
  repeat match goal with
         | |- context [match ?l with [] => _ | _ :: _ => _ end] => destruct l
         | |- context [if ?c then _ else _] => destruct c eqn:?
         end; cbn [fst]; lia.
Qed.

Lemma rune_info_not_ok (font : FontInfo) (r : Z) :
  0 <= r < 2 ^ 31 -> rune_ok font r = false -> rune_info font r = Panic.
Proof.
  intros Hr Hok. unfold rune_info, index, minASCII in *.
  rewrite int32_small by lia.
  destruct (Z.ltb_spec (r - 32) 0) as [|Hge]; [reflexivity|].
  unfold rune_ok, minASCII in Hok. apply andb_false_iff in Hok.
  destruct Hok as [Hok | Hok].
  - apply Z.leb_gt in Hok. lia.
  - apply Z.ltb_ge in Hok.
    destruct (runeMap font !! Z.to_nat (r - 32)) eqn:Hl; [|reflexivity].
    apply lookup_lt_Some in Hl. lia.
Qed.

Lemma rune_info_ok (font : FontInfo) (r : Z) :
  0 <= r < 2 ^ 31 -> rune_ok font r = true -> exists info, rune_info font r = Ok info.
Proof.
  intros Hr Hok. unfold rune_ok, minASCII in Hok. apply andb_true_iff in Hok.
  destruct Hok as [H1 H2]. apply Z.leb_le in H1. apply Z.ltb_lt in H2.
  unfold rune_info, minASCII. rewrite int32_small by lia.
  rewrite <- (Z2Nat.id (r - 32)) by lia.
  rewrite (index_nth _ _ zero_runeInfo) by lia. eauto.
Qed.

(** The first loop panics as soon as a rune has no glyph record. *)
Lemma sum_advances_panics (font : FontInfo) (rs : list Z) (acc : spec_float) :
  Forall (fun r => 0 <= r < 2 ^ 31) rs ->
  forallb (rune_ok font) rs = false -> sum_advances font rs acc = Panic.
Proof.
  intros Hrange. revert acc. induction Hrange as [|r rs Hr _ IH]; intros acc Hbad;
    [discriminate Hbad|].
  cbn [forallb] in Hbad. cbn [sum_advances].
  destruct (rune_ok font r) eqn:Hok.
  - destruct (rune_info_ok font r Hr Hok) as [info ->]. cbn [obind]. apply IH. exact Hbad.
  - rewrite rune_info_not_ok by assumption. reflexivity.
Qed.

Lemma dims_loop_panics (font : FontInfo) (rs : list Z) (acc lb : spec_float) :
  Forall (fun r => 0 <= r < 2 ^ 31) rs ->
  forallb (rune_ok font) rs = false -> dims_loop font rs acc lb = Panic.
Proof.
  intros Hrange. revert acc lb. induction Hrange as [|r rs Hr _ IH]; intros acc lb Hbad;
    [discriminate Hbad|].
  cbn [forallb] in Hbad. cbn [dims_loop].
  destruct (rune_ok font r) eqn:Hok.
  - destruct (rune_info_ok font r Hr Hok) as [info ->]. cbn [obind]. apply IH. exact Hbad.
  - rewrite rune_info_not_ok by assumption. reflexivity.
Qed.

Lemma str_bytes_range (str : string) : Forall (fun b => 0 <= b < 256) (str_bytes str).
Proof.
  induction str as [|a s IH]; constructor; [|exact IH].
  pose proof (nat_ascii_bounded a). lia.
Qed.

Lemma lor_bound (a b n : Z) :
  0 <= a < 2 ^ n -> 0 <= b < 2 ^ n -> 0 <= Z.lor a b < 2 ^ n.
Proof.
  intros Ha Hb.
  assert (Hn : 0 <= n).
  { destruct (Z_lt_le_dec n 0) as [Hneg|]; [|assumption].
    rewrite Z.pow_neg_r in Ha by assumption. lia. }
  assert (Hnn : 0 <= Z.lor a b) by (apply Z.lor_nonneg; lia).
  split; [exact Hnn|].
  destruct (Z.eq_dec (Z.lor a b) 0) as [-> | Hne]; [apply pow2_pos; assumption|].
  apply Z.log2_lt_pow2; [lia|]. rewrite Z.log2_lor by lia.
  apply Z.max_lub_lt.
  - destruct (Z.eq_dec a 0) as [-> | Ha0].
    + cbn. destruct (Z.eq_dec n 0) as [-> | Hn0]; [|lia].
      cbn in Ha, Hb. assert (b = 0) by lia. subst b. cbn in Hne. contradiction.
    + apply Z.log2_lt_pow2; lia.
  - destruct (Z.eq_dec b 0) as [-> | Hb0].
    + cbn. destruct (Z.eq_dec n 0) as [-> | Hn0]; [|lia].
      cbn in Ha, Hb. assert (a = 0) by lia. subst a. cbn in Hne. contradiction.
    + apply Z.log2_lt_pow2; lia.
Qed.

Lemma land_shift_bound (b m j k : Z) :
  0 <= j -> 0 <= k -> m = Z.ones j ->
  0 <= Z.shiftl (Z.land b m) k < 2 ^ (j + k).
Proof.
  intros Hj Hk ->. rewrite Z.land_ones by assumption.
  pose proof (Z.mod_pos_bound b (2 ^ j) (pow2_pos j Hj)) as Hb.
  rewrite Z.shiftl_mul_pow2 by assumption. rewrite pow2_split by assumption.
  pose proof (pow2_pos k Hk). nia.
Qed.

Lemma rune2_bound (a b : Z) :
  Z.lor (Z.shiftl (Z.land a 31) 6) (Z.land b 63) < 2 ^ 31.
Proof.
  pose proof (land_shift_bound a 31 5 6 ltac:(lia) ltac:(lia) eq_refl) as Ha.
  pose proof (land_shift_bound b 63 6 0 ltac:(lia) ltac:(lia) eq_refl) as Hb.
  rewrite Z.shiftl_0_r in Hb. change (2 ^ (5 + 6)) with (2 ^ 11) in Ha.
  assert (Hb' : 0 <= Z.land b 63 < 2 ^ 11) by (change (2 ^ (6 + 0)) with 64 in Hb; lia).
  pose proof (lor_bound _ _ 11 Ha Hb'). lia.
Qed.

Lemma rune3_bound (a b c : Z) :
  Z.lor (Z.lor (Z.shiftl (Z.land a 15) 12) (Z.shiftl (Z.land b 63) 6)) (Z.land c 63)
  < 2 ^ 31.
Proof.
  pose proof (land_shift_bound a 15 4 12 ltac:(lia) ltac:(lia) eq_refl) as Ha.
  pose proof (land_shift_bound b 63 6 6 ltac:(lia) ltac:(lia) eq_refl) as Hb.
  pose proof (land_shift_bound c 63 6 0 ltac:(lia) ltac:(lia) eq_refl) as Hc.
  rewrite Z.shiftl_0_r in Hc. change (2 ^ (4 + 12)) with (2 ^ 16) in Ha.
  assert (Hb' : 0 <= Z.shiftl (Z.land b 63) 6 < 2 ^ 16)
    by (change (2 ^ (6 + 6)) with 4096 in Hb; lia).
  assert (Hc' : 0 <= Z.land c 63 < 2 ^ 16) by (change (2 ^ (6 + 0)) with 64 in Hc; lia).
  pose proof (lor_bound _ _ 16 (lor_bound _ _ 16 Ha Hb') Hc'). lia.
Qed.

(** Runes are code points: they fit an [int32]. *)
Lemma decoderune_range (s : list Z) : 0 <= fst (decoderune s) < 2 ^ 31.
Proof.
  pose proof (decoderune_not_ascii s) as Hlo. split; [lia|]. clear Hlo.
  unfold decoderune, RuneError.
  repeat match goal with
         | |- context [match ?l with [] => _ | _ :: _ => _ end] => destruct l
         | |- context [if ?c then _ else _] => destruct c eqn:?
         end; cbn [fst];
    first [lia | simple apply rune2_bound | simple apply rune3_bound].
Qed.

Lemma range_runes_from_range (fuel : nat) (bs : list Z) :
  Forall (fun b => 0 <= b < 256) bs ->
  Forall (fun r => 0 <= r < 2 ^ 31) (range_runes_from fuel bs).
Proof.
  revert bs. induction fuel as [|fuel IH]; intros bs Hbs; [constructor|].
  destruct bs as [|b rest]; [constructor|].
  cbn [range_runes_from]. inversion Hbs as [|? ? Hb Hrest]; subst.
  destruct (b <? 128).
  - constructor; [lia | apply IH; exact Hrest].
  - pose proof (decoderune_range (b :: rest)) as Hr.
    destruct (decoderune (b :: rest)) as [r n]. cbn [fst] in Hr.
    constructor; [exact Hr|]. apply IH. apply Forall_drop. exact Hbs.
Qed.

(** With at most 96 glyph records no rune beyond ASCII has one: if all
    runes of a string have a record, all its bytes are supported. *)
Lemma runes_ok_supported (font : FontInfo) (fuel : nat) (bs : list Z) :
  (length (runeMap font) <= 96)%nat -> (length bs <= fuel)%nat ->
  forallb (rune_ok font) (range_runes_from fuel bs) = true ->
  forallb (supported font) bs = true.
Proof.
  intros Hlen. revert fuel. induction bs as [|b rest IH]; intros fuel Hfuel Hok;
    [reflexivity|].
  destruct fuel as [|fuel]; [cbn in Hfuel; lia|].
  cbn [range_runes_from] in Hok. cbn [forallb].
  destruct (Z.ltb_spec b 128) as [Hb | Hb].
  - cbn [forallb] in Hok. apply andb_true_iff in Hok. destruct Hok as [Hr Hrest].
    apply andb_true_iff. split; [|apply (IH fuel); [cbn in Hfuel; lia | exact Hrest]].
    unfold rune_ok in Hr. apply andb_true_iff in Hr. destruct Hr as [H1 H2].
    unfold supported. rewrite H1, H2. apply Z.ltb_lt in Hb. rewrite Hb. reflexivity.
  - pose proof (decoderune_not_ascii (b :: rest)) as Hr.
    destruct (decoderune (b :: rest)) as [r n]. cbn [fst] in Hr.
    cbn [forallb] in Hok. apply andb_true_iff in Hok. destruct Hok as [Hrok _].
    unfold rune_ok, minASCII in Hrok. apply andb_true_iff in Hrok.
    destruct Hrok as [_ H2]. apply Z.ltb_lt in H2. lia.
Qed.

Lemma unsupported_rune (font : FontInfo) (str : string) :
  (length (runeMap font) <= 96)%nat -> all_supported font str = false ->
  forallb (rune_ok font) (range_runes str) = false.
Proof.
  intros Hlen Hbad.
  destruct (forallb (rune_ok font) (range_runes str)) eqn:Hok; [|reflexivity].
  unfold range_runes in Hok.
  apply (runes_ok_supported font _ _ Hlen (Nat.le_refl _)) in Hok.
  unfold all_supported in Hbad. rewrite Hok in Hbad. discriminate Hbad.
Qed.

(** X1. For a font with at most 96 glyph records (every font that
    [LoadFontTexture] builds has 95), [MapString] and [CalcStringDims]
    return exactly on the non-empty strings of supported characters: on
    the empty string, and on any string with a byte outside the range
    (a control character, DEL, or any non-ASCII rune), both panic. *)
Theorem MapString_panics_outside_range (oor : spec_float -> Z) (font : FontInfo)
    (str : string) (pos : Point) (align : Align) :
  (length (runeMap font) <= 96)%nat ->
  (str <> ""%string /\ all_supported font str = true ->
   (exists buffer, MapString oor font str pos align = Ok buffer) /\
   (exists dims, CalcStringDims font str = Ok dims)) /\
  (str = ""%string \/ all_supported font str = false ->
   MapString oor font str pos align = Panic /\ CalcStringDims font str = Panic).
Proof.
  intros Hlen. split.
  - intros [Hne Hs]. split.
    + rewrite MapString_supported by assumption. eauto.
    + unfold CalcStringDims.
      rewrite (range_runes_supported font) by assumption.
      destruct (dims_loop_supported font (str_bytes str) F32.zero F32.zero
                  (all_supported_Forall font str Hs)) as [lb Hloop].
      rewrite Hloop. cbn [obind fst].
      destruct (last_nonempty (str_bytes str) (str_bytes_nonempty str Hne)) as [b Hb].
      rewrite (last_info_supported font str b) by assumption. cbn [obind]. eauto.
  - intros [-> | Hbad]; [split; reflexivity|].
    pose proof (unsupported_rune font str Hlen Hbad) as Hrunes.
    pose proof (range_runes_from_range (length (str_bytes str)) (str_bytes str)
                  (str_bytes_range str)) as Hrange.
    fold (range_runes str) in Hrange. split.
    + unfold MapString, string_width.
      rewrite sum_advances_panics by assumption. reflexivity.
    + unfold CalcStringDims. rewrite dims_loop_panics by assumption. reflexivity.
Qed.

(** DEL is [unicode.MaxASCII] itself, and the loop stops before it. *)
Lemma MapString_panics_outside_range_witness :
  MapString oor_amd64 (mono_font 1 8 6 8 10) (String (ascii_of_nat 127) "")
            {| X := 0; Y := 0 |} {| V := AlignBelow; H := AlignCenter |} = Panic /\
  CalcStringDims (mono_font 1 8 6 8 10) (String (ascii_of_nat 127) "") = Panic.
Proof.
  apply (MapString_panics_outside_range oor_amd64 (mono_font 1 8 6 8 10)
           (String (ascii_of_nat 127) "")).
  - vm_compute. lia.
  - right. reflexivity.
Defined.

(** ** CalcStringDims and MapString share the width *)

Lemma dims_loop_sum_advances (font : FontInfo) (rs : list Z) (acc lb : spec_float) :
  obind (dims_loop font rs acc lb) (fun p => Ok (fst p)) = sum_advances font rs acc.
Proof.
  revert acc lb. induction rs as [|r rs IH]; intros acc lb; [reflexivity|].
  cbn [dims_loop sum_advances].
  destruct (rune_info font r) as [info | e |]; cbn [obind]; [apply IH | reflexivity..].
Qed.

(** [CalcStringDims] in terms of the width of [MapString]. *)
Lemma dims_is_string_width (font : FontInfo) (str : string) :
  CalcStringDims font str
  = obind (string_width font str)
          (fun w => Ok (F64.of_f32 w, F64.of_f32 (Height (font_metrics font)))).
Proof.
  unfold CalcStringDims, string_width.
  rewrite <- (dims_loop_sum_advances font (range_runes str) F32.zero F32.zero).
  destruct (dims_loop font (range_runes str) F32.zero F32.zero) as [[w lb] | e |];
    cbn [obind fst]; [|reflexivity..].
  destruct (last_info font str) as [l | e |]; reflexivity.
Qed.

(** X2. On every string and font, [CalcStringDims] returns the width
    that [MapString] computes for its alignment (lines 96-105), widened
    to [float64], with the line height; it panics exactly when that
    computation does. *)
Theorem CalcStringDims_is_string_width (font : FontInfo) (str : string) :
  CalcStringDims font str
  = obind (string_width font str)
          (fun w => Ok (F64.of_f32 w, F64.of_f32 (Height (font_metrics font)))).
Proof. apply dims_is_string_width. Qed.

(** X3. For glyph metrics that are whole numbers (advances not
    negative, total advance at most [2^20]) the width that
    [CalcStringDims] returns is exactly the whole number: the sum of the
    advances plus the positive part of [bearingX + width - advance] of
    the last glyph.  [n] copies of a glyph without overflow measure [n]
    times its advance. *)
Theorem CalcStringDims_whole_numbers (font : FontInfo) (str : string)
    (zs : list glyphZ) :
  str <> ""%string -> all_supported font str = true ->
  Forall2 is_glyphZ (glyphs font str) zs -> Forall small_glyph zs ->
  total_advance zs <= 2 ^ 20 ->
  CalcStringDims font str
  = Ok (F64.of_Z (total_width zs), F64.of_f32 (Height (font_metrics font))) /\
  (forall g n, zs = replicate n g -> zbx g + zw g <= zadv g ->
     total_width zs = Z.of_nat n * zadv g).
Proof.
  intros Hne Hs H2 Hsmall HA. split.
  - rewrite dims_is_string_width, string_width_supported by assumption.
    cbn [obind].
    assert (Hgs : glyphs font str <> []).
    { unfold glyphs. intros Hnil. apply map_eq_nil in Hnil.
      exact (str_bytes_nonempty str Hne Hnil). }
    destruct (spec_total_width_int (glyphs font str) zs Hgs H2 Hsmall HA) as [HW HWb].
    rewrite HW, F64_of_f32_int by lia. reflexivity.
  - intros g n -> Hno. unfold total_width.
    assert (Hadv : total_advance (replicate n g) = Z.of_nat n * zadv g).
    { clear. induction n as [|n IH]; [reflexivity|].
      cbn [replicate]. rewrite total_advance_cons, IH. lia. }
    rewrite Hadv. destruct (last (replicate n g)) as [l|] eqn:Hl; [|lia].
    apply last_Some_elem_of, elem_of_replicate in Hl. destruct Hl as [-> _].
    rewrite Z.max_l by lia. lia.
Qed.

Lemma CalcStringDims_whole_numbers_witness :
  CalcStringDims (mono_font 1 8 6 8 10) "AAA" = Ok (F64.of_Z 30, F64.of_f32 (F32.of_Z 12)).
Proof.
  destruct (CalcStringDims_whole_numbers (mono_font 1 8 6 8 10) "AAA"
              (replicate 3 {| zbx := 1; zw := 6; zadv := 10 |})) as [Hd _].
  - intros Heq. discriminate Heq.
  - reflexivity.
  - repeat constructor.
  - repeat constructor; cbn; lia.
  - cbn. lia.
  - exact Hd.
Defined.

(** ** What a call of LoadFontTexture does *)

Lemma mbind_run {A B : Type} (m : M A) (k : A -> M B) (w w1 : World) (a : A) :
  m w = (Ok a, w1) -> mbind m k w = k a w1.
Proof. intros Hm. unfold mbind. rewrite Hm. reflexivity. Qed.

Lemma copy_rows_no_Err (glyph : Alpha) (maskpY : Z) (n : nat) (r : Z) (bytes : list Z)
    (ci : Z) (e : error) :
  copy_rows glyph maskpY n r bytes ci <> Err e.
Proof.
  revert r bytes ci. induction n as [|n IH]; intros r bytes ci; cbn [copy_rows].
  - discriminate.
  - unfold slice. destruct (_ && _); cbn [obind]; [apply IH | discriminate].
Qed.

(** One turn of the glyph loop, whatever its outcome. *)
Lemma glyph_step_cases (fontName : string) (fontSize : Z) (face : Face) (i : Z)
    (a : atlas) (w : World) :
  exists r evs,
    glyph_step fontName fontSize face i a w
    = (r, {| fontMap := fontMap w; trace := trace w ++ evs |}) /\
    Forall (fun ev => is_upload ev = false) evs /\
    match r with
    | Ok _ => evs = [EvGlyph (int32 i); EvGlyphBounds (int32 i)] /\
              g_ok (Glyph face (int32 i)) = true
    | Err e => e = ErrNoFontGlyph fontName fontSize (int32 i)
    | Panic => g_ok (Glyph face (int32 i)) = true
    end.
Proof.
  unfold glyph_step, mbind, emit, lift, mret.
  destruct (g_ok (Glyph face (int32 i))) eqn:Hok; cbn [negb fontMap trace].
  - destruct (g_mask (Glyph face (int32 i))) as [glyph|].
    + destruct (b_ok (GlyphBounds face (int32 i))); cbn [negb].
      * destruct (copy_rows glyph _ _ 0 (a_glyphBytes a) (a_currentIndex a))
          as [res | e |] eqn:Hcopy.
        -- eexists _, [EvGlyph (int32 i); EvGlyphBounds (int32 i)].
           rewrite <- app_assoc. split; [reflexivity|].
           split; [repeat constructor|]. split; reflexivity.
        -- exfalso. exact (copy_rows_no_Err _ _ _ _ _ _ _ Hcopy).
        -- eexists _, [EvGlyph (int32 i); EvGlyphBounds (int32 i)].
           rewrite <- app_assoc. split; [reflexivity|].
           split; [repeat constructor | reflexivity].
      * eexists _, [EvGlyph (int32 i); EvGlyphBounds (int32 i)].
        rewrite <- app_assoc. split; [reflexivity|].
        split; [repeat constructor | reflexivity].
    + eexists _, [EvGlyph (int32 i); EvGlyphBounds (int32 i)].
      rewrite <- app_assoc. split; [reflexivity|].
      split; [repeat constructor | reflexivity].
  - eexists _, [EvGlyph (int32 i)]. split; [reflexivity|].
    split; [repeat constructor | reflexivity].
Qed.

(** The glyph loop from the [k]-th character on, whatever its outcome:
    it stops at the first character that fails. *)
Lemma glyph_loop_cases (fontName : string) (fontSize : Z) (face : Face) (n k : nat)
    (a : atlas) (w : World) :
  (k + n <= numRunes)%nat ->
  exists r evs,
    glyph_loop fontName fontSize face n (minASCII + Z.of_nat k) a w
    = (r, {| fontMap := fontMap w; trace := trace w ++ evs |}) /\
    Forall (fun ev => is_upload ev = false) evs /\
    match r with
    | Ok _ =>
        evs = flat_map (fun c => [EvGlyph c; EvGlyphBounds c])
                (map (fun j => minASCII + Z.of_nat j) (seq k n)) /\
        (forall j, (k <= j < k + n)%nat ->
           g_ok (Glyph face (minASCII + Z.of_nat j)) = true)
    | Err e =>
        exists j, (k <= j < k + n)%nat /\
          e = ErrNoFontGlyph fontName fontSize (minASCII + Z.of_nat j) /\
          (forall j', (k <= j' < j)%nat ->
             g_ok (Glyph face (minASCII + Z.of_nat j')) = true)
    | Panic =>
        exists j, (k <= j < k + n)%nat /\
          (forall j', (k <= j' <= j)%nat ->
             g_ok (Glyph face (minASCII + Z.of_nat j')) = true)
    end.
Proof.
  revert k a w. induction n as [|n IH]; intros k a w Hkn; cbn [glyph_loop].
  - exists (Ok a), []. unfold mret. rewrite app_nil_r, world_eta.
    split; [reflexivity|]. split; [constructor|]. split; [reflexivity | intros j Hj; lia].
  - destruct (glyph_step_cases fontName fontSize face (minASCII + Z.of_nat k) a w)
      as (r1 & evs1 & Hstep & Hno1 & Hr1).
    rewrite int32_code in Hr1 by lia.
    unfold mbind. rewrite Hstep. destruct r1 as [a1 | e |].
    + destruct Hr1 as [-> Hok].
      replace (minASCII + Z.of_nat k + 1) with (minASCII + Z.of_nat (S k)) by lia.
      destruct (IH (S k) a1 {| fontMap := fontMap w;
                               trace := trace w ++ [EvGlyph (minASCII + Z.of_nat k);
                                                    EvGlyphBounds (minASCII + Z.of_nat k)] |}
                  ltac:(lia)) as (r & evs & Hloop & Hno & Hr).
      cbn [fontMap trace] in Hloop. rewrite <- app_assoc in Hloop.
      exists r, ([EvGlyph (minASCII + Z.of_nat k); EvGlyphBounds (minASCII + Z.of_nat k)]
                 ++ evs).
      split; [exact Hloop|]. split; [repeat constructor; exact Hno|].
      destruct r as [a' | e |].
      * destruct Hr as [-> Hall]. split; [reflexivity|].
        intros j Hj. destruct (Nat.eq_dec j k) as [-> | Hne]; [exact Hok|].
        apply Hall. lia.
      * destruct Hr as (j & Hj & -> & Hbefore). exists j.
        split; [lia|]. split; [reflexivity|].
        intros j' Hj'. destruct (Nat.eq_dec j' k) as [-> | Hne]; [exact Hok|].
        apply Hbefore. lia.
      * destruct Hr as (j & Hj & Hbefore). exists j. split; [lia|].
        intros j' Hj'. destruct (Nat.eq_dec j' k) as [-> | Hne]; [exact Hok|].
        apply Hbefore. lia.
    + exists (Err e), evs1. split; [reflexivity|]. split; [exact Hno1|].
      exists k. split; [lia|]. split; [exact Hr1|]. intros j' Hj'. lia.
    + exists Panic, evs1. split; [reflexivity|]. split; [exact Hno1|].
      exists k. split; [lia|]. intros j' Hj'. replace j' with k by lia. exact Hr1.
Qed.

Lemma loop_events_seq :
  flat_map (fun c => [EvGlyph c; EvGlyphBounds c])
    (map (fun j => minASCII + Z.of_nat j) (seq 0 numRunes)) = loop_events.
Proof. reflexivity. Qed.

(** The build, whatever its outcome: either it stops before the texture
    is made, or it makes the texture and ends with the result of
    [opentype.NewFace]. *)
Lemma build_font_cases (env : Env) (fontName : string) (fontSize : Z) (w : World) :
  exists r evs,
    build_font env fontName fontSize w
    = (r, {| fontMap := fontMap w; trace := trace w ++ evs |}) /\
    (((forall f, r <> Ok f) /\
      Forall (fun ev => is_upload ev = false) evs /\
      (forall bytes ttf s,
         ReadFile env fontName = Ok bytes -> truetype_Parse env bytes = Ok ttf ->
         sfnt_Parse env bytes = Ok s ->
         exists j, (j < numRunes)%nat /\
           (forall j', (j' < j)%nat ->
              g_ok (Glyph (ttf fontSize) (minASCII + Z.of_nat j')) = true) /\
           (r = Panic \/
            r = Err (ErrNoFontGlyph fontName fontSize (minASCII + Z.of_nat j)))) /\
      (forall bytes ttf s a w3 glyph,
         ReadFile env fontName = Ok bytes -> truetype_Parse env bytes = Ok ttf ->
         sfnt_Parse env bytes = Ok s ->
         glyph_loop fontName fontSize (ttf fontSize) numRunes minASCII empty_atlas
                    (after_reads fontName w) = (Ok a, w3) ->
         g_mask (Glyph (ttf fontSize) 65) = Some glyph -> Stride glyph = 0)) \/
     (exists bytes ttf s a w3 glyph,
        ReadFile env fontName = Ok bytes /\ truetype_Parse env bytes = Ok ttf /\
        sfnt_Parse env bytes = Ok s /\
        glyph_loop fontName fontSize (ttf fontSize) numRunes minASCII empty_atlas
                   (after_reads fontName w) = (Ok a, w3) /\
        g_mask (Glyph (ttf fontSize) 65) = Some glyph /\ Stride glyph <> 0 /\
        evs = [EvReadFile fontName; EvReadFile fontName] ++ loop_events ++
              upload_events (atlas_texture env glyph a) a /\
        r = match s fontSize with
            | Ok m => Ok (font_of (atlas_texture env glyph a) a m)
            | Err e => Err e
            | Panic => Panic
            end)).
Proof.
  unfold build_font, mbind, emit, lift. cbn [fontMap trace].
  destruct (ReadFile env fontName) as [bytes | e |] eqn:Hread.
  2:{ exists (Err e), [EvReadFile fontName]. split; [reflexivity|]. left.
      split; [discriminate|]. split; [repeat constructor|]. split; discriminate. }
  2:{ exists Panic, [EvReadFile fontName]. split; [reflexivity|]. left.
      split; [discriminate|]. split; [repeat constructor|]. split; discriminate. }
  destruct (truetype_Parse env bytes) as [ttf | e |] eqn:Hparse.
  2:{ exists (Err e), [EvReadFile fontName]. split; [reflexivity|]. left.
      split; [discriminate|]. split; [repeat constructor|]. split.
      - intros b t s [= <-] Ht. rewrite Hparse in Ht. discriminate Ht.
      - intros b t s a0 w0 g0 [= <-] Ht. rewrite Hparse in Ht. discriminate Ht. }
  2:{ exists Panic, [EvReadFile fontName]. split; [reflexivity|]. left.
      split; [discriminate|]. split; [repeat constructor|]. split.
      - intros b t s [= <-] Ht. rewrite Hparse in Ht. discriminate Ht.
      - intros b t s a0 w0 g0 [= <-] Ht. rewrite Hparse in Ht. discriminate Ht. }
  destruct (sfnt_Parse env bytes) as [s | e |] eqn:Hsfnt.
  2:{ exists (Err e), [EvReadFile fontName; EvReadFile fontName].
      rewrite <- app_assoc. split; [reflexivity|]. left.
      split; [discriminate|]. split; [repeat constructor|]. split.
      - intros b t s [= <-] _ Hs. rewrite Hsfnt in Hs. discriminate Hs.
      - intros b t s a0 w0 g0 [= <-] _ Hs. rewrite Hsfnt in Hs. discriminate Hs. }
  2:{ exists Panic, [EvReadFile fontName; EvReadFile fontName].
      rewrite <- app_assoc. split; [reflexivity|]. left.
      split; [discriminate|]. split; [repeat constructor|]. split.
      - intros b t s [= <-] _ Hs. rewrite Hsfnt in Hs. discriminate Hs.
      - intros b t s a0 w0 g0 [= <-] _ Hs. rewrite Hsfnt in Hs. discriminate Hs. }
  destruct (glyph_loop_cases fontName fontSize (ttf fontSize) numRunes 0 empty_atlas
              (after_reads fontName w) (Nat.le_refl _)) as (rl & evl & Hloop & Hnol & Hrl).
  change (minASCII + Z.of_nat 0) with minASCII in Hloop.
  match goal with
  | |- context [glyph_loop ?n ?sz ?f ?k ?i ?a ?w0] =>
      change (glyph_loop n sz f k i a w0)
        with (glyph_loop fontName fontSize (ttf fontSize) numRunes
                minASCII empty_atlas (after_reads fontName w))
  end.
  rewrite Hloop. cbn [after_reads fontMap trace].
  destruct rl as [a | e |].
  2:{ exists (Err e), ([EvReadFile fontName; EvReadFile fontName] ++ evl).
      split; [rewrite <- !app_assoc; reflexivity|]. left.
      split; [discriminate|]. split; [repeat constructor; exact Hnol|]. split.
      - intros b t s' [= <-] Ht _. rewrite Hparse in Ht. injection Ht as <-.
        destruct Hrl as (j & Hj & -> & Hbefore). exists j. split; [lia|].
        split; [intros j' Hj'; apply Hbefore; lia | right; reflexivity].
      - intros b t s' a0 w0 g0 [= <-] Ht _ Hl. rewrite Hparse in Ht. injection Ht as <-.
        rewrite Hloop in Hl. discriminate Hl. }
  2:{ exists Panic, ([EvReadFile fontName; EvReadFile fontName] ++ evl).
      split; [rewrite <- !app_assoc; reflexivity|]. left.
      split; [discriminate|]. split; [repeat constructor; exact Hnol|]. split.
      - intros b t s' _ _ _. exists 0%nat. split; [change numRunes with 95%nat; lia|].
        split; [intros j' Hj'; lia | left; reflexivity].
      - intros b t s' a0 w0 g0 [= <-] Ht _ Hl. rewrite Hparse in Ht. injection Ht as <-.
        rewrite Hloop in Hl. discriminate Hl. }
  destruct Hrl as [-> Hall]. rewrite loop_events_seq.
  assert (HA : g_ok (Glyph (ttf fontSize) 65) = true).
  { apply (Hall 33%nat). change numRunes with 95%nat. lia. }
  rewrite HA. cbn [negb].
  destruct (g_mask (Glyph (ttf fontSize) 65)) as [glyph|] eqn:Hmask.
  2:{ exists Panic, ([EvReadFile fontName; EvReadFile fontName] ++ loop_events ++ [EvGlyph 65]).
      split; [rewrite <- !app_assoc; reflexivity|]. left.
      split; [discriminate|]. split.
      { apply Forall_app. split; [repeat constructor|].
        apply Forall_app. split; [exact Hnol | repeat constructor]. }
      split.
      - intros b t s' _ _ _. exists 0%nat. split; [change numRunes with 95%nat; lia|].
        split; [intros j' Hj'; lia | left; reflexivity].
      - intros b t s' a0 w0 g0 [= <-] Ht _ _ Hm. rewrite Hparse in Ht. injection Ht as <-.
        rewrite Hmask in Hm. discriminate Hm. }
  destruct (Stride glyph =? 0) eqn:Hstride.
  { exists Panic, ([EvReadFile fontName; EvReadFile fontName] ++ loop_events ++ [EvGlyph 65]).
    split; [rewrite <- !app_assoc; reflexivity|]. left.
    split; [discriminate|]. split.
    { apply Forall_app. split; [repeat constructor|].
      apply Forall_app. split; [exact Hnol | repeat constructor]. }
    split.
    - intros b t s' _ _ _. exists 0%nat. split; [change numRunes with 95%nat; lia|].
      split; [intros j' Hj'; lia | left; reflexivity].
    - intros b t s' a0 w0 g0 [= <-] Ht _ _ Hm. rewrite Hparse in Ht. injection Ht as <-.
      rewrite Hmask in Hm. injection Hm as <-. apply Z.eqb_eq. exact Hstride. }
  apply Z.eqb_neq in Hstride.
  unfold NewTexture, SetParameter, mbind, emit, mret, lift.
  cbn [fontMap trace tex_id tex_width tex_height].
  exists (match s fontSize with
          | Ok m => Ok (font_of (atlas_texture env glyph a) a m)
          | Err e => Err e
          | Panic => Panic
          end),
         ([EvReadFile fontName; EvReadFile fontName] ++ loop_events ++
          upload_events (atlas_texture env glyph a) a).
  split.
  - unfold upload_events, atlas_texture. cbn [tex_id tex_width tex_height].
    rewrite <- !app_assoc. cbn [app].
    destruct (s fontSize) as [m | e |]; reflexivity.
  - right. eexists bytes, ttf, s, a, _, glyph.
    split; [reflexivity|]. split; [exact Hparse|]. split; [exact Hsfnt|].
    split; [exact Hloop|]. split; [exact Hmask|]. split; [exact Hstride|].
    split; reflexivity.
Qed.

(** A call that misses, whatever its outcome, in terms of the build. *)
Lemma LoadFontTexture_miss_run (env : Env) (fontName : string) (fontSize : Z) (w : World)
    (r : outcome FontInfo) (evs : list event) :
  cache_lookup w (fontName, fontSize) = None ->
  build_font env fontName fontSize
    {| fontMap := Some match fontMap w with Some m => m | None => ∅ end;
       trace := trace w |}
  = (r, {| fontMap := Some match fontMap w with Some m => m | None => ∅ end;
           trace := trace w ++ evs |}) ->
  exists w', LoadFontTexture env fontName fontSize w = (r, w') /\
    trace w' = trace w ++ evs /\
    (forall k, k <> (fontName, fontSize) -> cache_lookup w' k = cache_lookup w k) /\
    cache_lookup w' (fontName, fontSize)
    = match r with Ok f => Some f | _ => None end.
Proof.
  intros Hl Hb. rewrite (LoadFontTexture_miss env _ _ _ Hl). cbv zeta. rewrite Hb.
  destruct r as [f | e |]; eexists; (split; [reflexivity|]); cbn [trace];
    (split; [reflexivity|]); unfold cache_lookup at 1 3; cbn [fontMap].
  - split; [|apply lookup_insert_eq]. intros k Hk.
    rewrite lookup_insert_ne by congruence. apply cache_lookup_made.
  - split; [intros k _; apply cache_lookup_made|].
    rewrite cache_lookup_made. exact Hl.
  - split; [intros k _; apply cache_lookup_made|].
    rewrite cache_lookup_made. exact Hl.
Qed.

(** A build logs 196 events. *)
Lemma build_trace_length (env : Env) (fontName : string) (fontSize : Z)
    (w w' : World) (font : FontInfo) :
  cache_lookup w (fontName, fontSize) = None ->
  LoadFontTexture env fontName fontSize w = (Ok font, w') ->
  length (trace w') = (length (trace w) + 196)%nat.
Proof.
  intros Hl Hload.
  pose (w1 := {| fontMap := Some match fontMap w with Some m => m | None => ∅ end;
                 trace := trace w |}).
  destruct (build_font_cases env fontName fontSize w1) as (r & evs & Hb & Hcases).
  destruct (LoadFontTexture_miss_run env fontName fontSize w r evs Hl Hb)
    as (w0 & Hload0 & Htr & _).
  rewrite Hload in Hload0. injection Hload0 as <- <-.
  destruct Hcases as [(Hno & _) | (bytes & ttf & s & a & w3 & glyph & _ & _ & _ & _ & _ & _
                                   & -> & _)].
  { exfalso. apply (Hno font). reflexivity. }
  rewrite Htr, !length_app. reflexivity.
Qed.

(** X4. A call that builds a font (the key was not cached and the call
    succeeds) does this and nothing else, in this order: it reads the
    font file twice, asks the rasterizer for the glyph and the bounds of
    each character from 32 to 126, asks for the glyph of ['A'] once more,
    uploads one texture, with the width and height that the returned
    font records, and sets its two filters. *)
Theorem LoadFontTexture_build_effects (env : Env) (fontName : string) (fontSize : Z)
    (w w' : World) (font : FontInfo) :
  cache_lookup w (fontName, fontSize) = None ->
  LoadFontTexture env fontName fontSize w = (Ok font, w') ->
  tex_id (texture font) = GenTextures env /\
  exists bytes,
    trace w' = trace w ++
      [EvReadFile fontName; EvReadFile fontName] ++
      flat_map (fun c => [EvGlyph c; EvGlyphBounds c]) codes ++
      [EvGlyph 65;
       EvTexImage2D (GenTextures env) (tex_width (texture font))
                    (tex_height (texture font)) bytes;
       EvTexParameteri (GenTextures env) gl_TEXTURE_MIN_FILTER gl_NEAREST;
       EvTexParameteri (GenTextures env) gl_TEXTURE_MAG_FILTER gl_NEAREST].
Proof.
  intros Hl Hload.
  pose (w1 := {| fontMap := Some match fontMap w with Some m => m | None => ∅ end;
                 trace := trace w |}).
  destruct (build_font_cases env fontName fontSize w1) as (r & evs & Hb & Hcases).
  destruct (LoadFontTexture_miss_run env fontName fontSize w r evs Hl Hb)
    as (w0 & Hload0 & Htr & _).
  rewrite Hload in Hload0. injection Hload0 as <- <-.
  destruct Hcases as [(Hno & _) | (bytes & ttf & s & a & w3 & glyph & _ & _ & _ & _ & _ & _
                                   & -> & Hr)].
  { exfalso. apply (Hno font). reflexivity. }
  destruct (s fontSize) as [m | e |]; try discriminate Hr.
  injection Hr as ->. cbn [font_of texture atlas_texture tex_id tex_width tex_height].
  split; [reflexivity|]. exists (a_glyphBytes a). exact Htr.
Qed.

Lemma LoadFontTexture_build_effects_witness :
  exists font w1,
    LoadFontTexture (demo_env true) "a.ttf" 12 initial_world = (Ok font, w1) /\
    tex_id (texture font) = 1 /\ length (trace w1) = 196%nat.
Proof.
  destruct demo_load_Ok as (font & w1 & Hrun). exists font, w1.
  split; [exact Hrun|].
  destruct (LoadFontTexture_build_effects (demo_env true) "a.ttf" 12 initial_world w1 font)
    as (Hid & bytes & Htr).
  - reflexivity.
  - exact Hrun.
  - split; [exact Hid|]. rewrite Htr. reflexivity.
Defined.

(** X5. When the font lacks the glyph of a character [c] of the range
    32 to 126 (the file and both parses being fine), a call that misses
    the cache never returns a font: it returns [ErrNoFontGlyph] for [c]
    or for an earlier character, or it panics on an earlier mask; it
    uploads no texture, and the key stays out of the cache. *)
Theorem LoadFontTexture_missing_glyph (env : Env) (fontName : string) (fontSize : Z)
    (w w' : World) (r : outcome FontInfo) (bytes : list Z) (ttf : ttfFont)
    (s : sfntFont) (c : Z) :
  cache_lookup w (fontName, fontSize) = None ->
  ReadFile env fontName = Ok bytes -> truetype_Parse env bytes = Ok ttf ->
  sfnt_Parse env bytes = Ok s ->
  minASCII <= c < MaxASCII -> g_ok (Glyph (ttf fontSize) c) = false ->
  LoadFontTexture env fontName fontSize w = (r, w') ->
  (r = Panic \/
   exists c', minASCII <= c' <= c /\ r = Err (ErrNoFontGlyph fontName fontSize c')) /\
  (exists evs, trace w' = trace w ++ evs /\ existsb is_upload evs = false) /\
  cache_lookup w' (fontName, fontSize) = None.
Proof.
  intros Hl Hread Hparse Hsfnt Hc Hbad Hload.
  pose (w1 := {| fontMap := Some match fontMap w with Some m => m | None => ∅ end;
                 trace := trace w |}).
  destruct (build_font_cases env fontName fontSize w1) as (r0 & evs & Hb & Hcases).
  destruct (LoadFontTexture_miss_run env fontName fontSize w r0 evs Hl Hb)
    as (w0 & Hload0 & Htr & _ & Hkey).
  rewrite Hload in Hload0. injection Hload0 as <- <-.
  assert (Hcj : c = minASCII + Z.of_nat (Z.to_nat (c - minASCII))) by lia.
  assert (Hjc : (Z.to_nat (c - minASCII) < numRunes)%nat).
  { change numRunes with 95%nat. unfold minASCII, MaxASCII in *. lia. }
  destruct Hcases as [(Hno & Hup & Hshape & _) | (bytes' & ttf' & s' & a & w3 & glyph & Hread'
                                               & Hparse' & _ & Hloop & _)].
  - destruct (Hshape bytes ttf s Hread Hparse Hsfnt) as (j & Hj & Hbefore & Hr).
    split; [|split].
    + destruct Hr as [-> | ->]; [left; reflexivity | right].
      exists (minASCII + Z.of_nat j). split; [|reflexivity].
      destruct (Nat.le_gt_cases j (Z.to_nat (c - minASCII))) as [Hle | Hgt]; [lia|].
      specialize (Hbefore _ Hgt). rewrite <- Hcj, Hbad in Hbefore. discriminate Hbefore.
    + exists evs. split; [exact Htr|]. clear - Hup.
      induction Hup as [|ev evs Hev _ IH]; [reflexivity|].
      cbn [existsb]. rewrite Hev, IH. reflexivity.
    + rewrite Hkey. destruct r as [f | e |]; [|reflexivity..].
      exfalso. apply (Hno f). reflexivity.
  - exfalso. rewrite Hread in Hread'. injection Hread' as <-.
    rewrite Hparse in Hparse'. injection Hparse' as <-.
    pose proof (glyph_loop_all_ok fontName fontSize (ttf fontSize) numRunes 0 empty_atlas a
                  (after_reads fontName w1) w3 (Nat.le_refl _) Hloop
                  (Z.to_nat (c - minASCII)) ltac:(lia)) as Hok.
    rewrite <- Hcj, Hbad in Hok. discriminate Hok.
Qed.

Lemma LoadFontTexture_missing_glyph_witness :
  fst (LoadFontTexture (demo_env false) "a.ttf" 12 initial_world) = Panic \/
  exists c', minASCII <= c' <= 65 /\
    fst (LoadFontTexture (demo_env false) "a.ttf" 12 initial_world)
    = Err (ErrNoFontGlyph "a.ttf" 12 c').
Proof.
  destruct (LoadFontTexture_missing_glyph (demo_env false) "a.ttf" 12 initial_world
              (snd (LoadFontTexture (demo_env false) "a.ttf" 12 initial_world))
              (fst (LoadFontTexture (demo_env false) "a.ttf" 12 initial_world))
              [0; 1; 0; 0] (fun _ => demo_face false) (fun _ => Ok demo_metrics) 65)
    as (Hr & _).
  - reflexivity.
  - reflexivity.
  - reflexivity.
  - reflexivity.
  - unfold minASCII, MaxASCII. lia.
  - reflexivity.
  - apply surjective_pairing.
  - exact Hr.
Defined.

(** X6. Take a call that builds a font.  Had [opentype.NewFace] failed
    instead, with the same file, rasterizer and device, the call returns
    that error only after the same work: the texture has been uploaded,
    and it is neither returned nor cached. *)
Theorem LoadFontTexture_NewFace_failure_after_upload (env1 env2 : Env)
    (fontName : string) (fontSize : Z) (w w1 : World) (font : FontInfo) (e : error) :
  cache_lookup w (fontName, fontSize) = None ->
  LoadFontTexture env1 fontName fontSize w = (Ok font, w1) ->
  ReadFile env2 fontName = ReadFile env1 fontName ->
  (forall bytes, truetype_Parse env2 bytes = truetype_Parse env1 bytes) ->
  GenTextures env2 = GenTextures env1 ->
  (forall bytes, exists s, sfnt_Parse env2 bytes = Ok s /\ s fontSize = Err e) ->
  exists w2,
    LoadFontTexture env2 fontName fontSize w = (Err e, w2) /\
    trace w2 = trace w1 /\
    (exists evs, trace w2 = trace w ++ evs /\ existsb is_upload evs = true) /\
    (forall k, cache_lookup w2 k = cache_lookup w k).
Proof.
  intros Hl Hload Hrf Htt Hgen Hsf.
  pose (w0 := {| fontMap := Some match fontMap w with Some m => m | None => ∅ end;
                 trace := trace w |}).
  destruct (build_font_cases env1 fontName fontSize w0) as (r1 & evs1 & Hb1 & Hcases1).
  destruct (LoadFontTexture_miss_run env1 fontName fontSize w r1 evs1 Hl Hb1)
    as (wa & Hloada & Htr1 & _).
  rewrite Hload in Hloada. injection Hloada as <- <-.
  destruct Hcases1 as [(Hno & _) | (bytes & ttf & s1 & a & w3 & glyph & Hread & Hparse & _
                                    & Hloop & Hmask & Hstride & Hevs1 & _)].
  { exfalso. apply (Hno font). reflexivity. }
  destruct (Hsf bytes) as (s2 & Hs2 & Hface).
  rewrite <- Hrf in Hread. rewrite <- Htt in Hparse.
  destruct (build_font_cases env2 fontName fontSize w0) as (r2 & evs2 & Hb2 & Hcases2).
  destruct (LoadFontTexture_miss_run env2 fontName fontSize w r2 evs2 Hl Hb2)
    as (w2 & Hload2 & Htr2 & Hframe & Hkey).
  destruct Hcases2 as [(_ & _ & _ & Hzero) | (bytes' & ttf' & s' & a' & w3' & glyph' & Hread'
                                             & Hparse' & Hs' & Hloop' & Hmask' & _
                                             & Hevs2 & Hr2)].
  { exfalso. apply Hstride. exact (Hzero bytes ttf s2 a w3 glyph Hread Hparse Hs2 Hloop Hmask). }
  rewrite Hread in Hread'. injection Hread' as <-.
  rewrite Hparse in Hparse'. injection Hparse' as <-.
  rewrite Hs2 in Hs'. injection Hs' as <-.
  rewrite Hloop in Hloop'. injection Hloop' as <- <-.
  rewrite Hmask in Hmask'. injection Hmask' as <-.
  rewrite Hface in Hr2. subst r2.
  assert (Hsame : evs2 = evs1).
  { rewrite Hevs1, Hevs2. unfold atlas_texture. rewrite Hgen. reflexivity. }
  exists w2. split; [exact Hload2|]. split; [rewrite Htr1, Htr2, Hsame; reflexivity|].
  split.
  - exists evs2. split; [exact Htr2|]. rewrite Hevs2.
    rewrite !existsb_app. cbn [upload_events existsb is_upload].
    rewrite !orb_true_r. reflexivity.
  - intros k. destruct (decide (k = (fontName, fontSize))) as [-> | Hne].
    + rewrite Hkey. symmetry. exact Hl.
    + apply Hframe. exact Hne.
Qed.

Lemma LoadFontTexture_NewFace_failure_after_upload_witness :
  exists w2,
    LoadFontTexture noface_env "a.ttf" 12 initial_world = (Err (ErrLibrary 7), w2) /\
    length (trace w2) = 196%nat /\
    cache_lookup w2 ("a.ttf"%string, 12) = None.
Proof.
  destruct demo_load_Ok as (font & w1 & Hrun).
  destruct (LoadFontTexture_NewFace_failure_after_upload (demo_env true) noface_env
              "a.ttf" 12 initial_world w1 font (ErrLibrary 7))
    as (w2 & Hload & Htr & _ & Hcache).
  - reflexivity.
  - exact Hrun.
  - reflexivity.
  - intros bytes. reflexivity.
  - reflexivity.
  - intros bytes. exists (fun _ => Err (ErrLibrary 7)). split; reflexivity.
  - exists w2. split; [exact Hload|]. split; [|rewrite Hcache; reflexivity].
    rewrite Htr.
    exact (build_trace_length (demo_env true) "a.ttf" 12 initial_world
             w1 font eq_refl Hrun).
Defined.

(** X7. A call for one key, whatever its outcome, leaves every other
    key of the cache as it was: it adds none, removes none and replaces
    none. *)
Theorem LoadFontTexture_other_keys (env : Env) (fontName : string) (fontSize : Z)
    (w w' : World) (r : outcome FontInfo) (k : fontKey) :
  LoadFontTexture env fontName fontSize w = (r, w') ->
  k <> (fontName, fontSize) ->
  cache_lookup w' k = cache_lookup w k.
Proof.
  intros Hload Hk.
  destruct (cache_lookup w (fontName, fontSize)) as [f|] eqn:Hl.
  - rewrite (LoadFontTexture_hit env _ _ _ f Hl) in Hload.
    injection Hload as <- <-. reflexivity.
  - pose (w1 := {| fontMap := Some match fontMap w with Some m => m | None => ∅ end;
                   trace := trace w |}).
    destruct (build_font_cases env fontName fontSize w1) as (r0 & evs & Hb & _).
    destruct (LoadFontTexture_miss_run env fontName fontSize w r0 evs Hl Hb)
      as (w0 & Hload0 & _ & Hframe & _).
    rewrite Hload in Hload0. injection Hload0 as <- <-. apply Hframe. exact Hk.
Qed.

Lemma LoadFontTexture_other_keys_witness :
  cache_lookup (snd (LoadFontTexture (demo_env true) "a.ttf" 12 initial_world))
               ("b.ttf"%string, 12) = None.
Proof.
  rewrite (LoadFontTexture_other_keys (demo_env true) "a.ttf" 12 initial_world
             (snd (LoadFontTexture (demo_env true) "a.ttf" 12 initial_world))
             (fst (LoadFontTexture (demo_env true) "a.ttf" 12 initial_world))
             ("b.ttf"%string, 12)).
  - reflexivity.
  - apply surjective_pairing.
  - intros Heq. discriminate Heq.
Defined.

(** ** The glyph records of a font *)

Lemma cond_Zopp_abs (M : Z) : cond_Zopp (M <? 0) (Z.abs M) = M.
Proof. unfold cond_Zopp. destruct (Z.ltb_spec M 0); lia. Qed.

Lemma half_up_div (a t : Z) :
  0 <= a -> 0 < t ->
  (if t <=? 2 * (a mod t) then a / t + 1 else a / t) = (2 * a + t) / (2 * t).
Proof.
  intros Ha Ht. pose proof (Z.div_mod a t ltac:(lia)) as Hdm.
  pose proof (Z.mod_pos_bound a t Ht) as Hr.
  destruct (Z.leb_spec t (2 * (a mod t))) as [Hge | Hlt].
  - apply (Z.div_unique _ _ _ (2 * (a mod t) - t)); lia.
  - apply (Z.div_unique _ _ _ (2 * (a mod t) + t)); lia.
Qed.

(** [math.Round] of a value that [float64] holds exactly. *)
Lemma F64_Round_fl (M E : Z) :
  M <> 0 -> fits 53 1024 M E -> E <= 0 ->
  F64.Round (fl 53 1024 M E)
  = binary_normalize 53 1024
      (cond_Zopp (M <? 0) ((2 * Z.abs M + 2 ^ (- E)) / (2 * 2 ^ (- E)))) 0 (M <? 0).
Proof.
  intros HM HF HE. rewrite (fl_finite 53 1024) by assumption. unfold F64.Round.
  change F64.prec with 53. change F64.emax with 1024.
  pose proof (cmant_spec 53 1024 M E HM HF) as Hn. pose proof HF as (Hd & _ & _).
  pose proof (pow2_pos (- E) ltac:(lia)) as HpE.
  pose proof (pow2_pos (53 - Zdigits2 M) ltac:(lia)) as Hpd.
  rewrite <- half_up_div by lia.
  unfold cexp in *. destruct (Z.leb_spec 0 (E - (53 - Zdigits2 M))) as [Hc|Hc].
  - assert (E = 0) by lia. subst E. cbn [Z.opp Z.pow Z.pow_pos Pos.iter Z.mul Pos.mul].
    rewrite Z.mod_1_r, Z.div_1_r. cbn [Z.leb Z.compare Z.mul].
    rewrite cond_Zopp_abs. symmetry.
    apply (binary_normalize_exact 53 1024 M 0 M 0 (M <? 0) HM HF).
    left. split; [lia|]. cbn. lia.
  - rewrite Z.shiftr_div_pow2, Z.land_ones by lia. rewrite Hn.
    replace (- (E - (53 - Zdigits2 M))) with ((- E) + (53 - Zdigits2 M)) by lia.
    rewrite pow2_split by lia.
    rewrite Z.div_mul_cancel_r by lia.
    rewrite Z.mul_mod_distr_r by lia.
    assert (Hcmp : ((2 ^ (- E)) * (2 ^ (53 - Zdigits2 M))
                    <=? 2 * (((Z.abs M) mod (2 ^ (- E))) * (2 ^ (53 - Zdigits2 M))))
                   = (2 ^ (- E) <=? 2 * ((Z.abs M) mod (2 ^ (- E))))).
    { destruct (Z.leb_spec (2 ^ (- E)) (2 * ((Z.abs M) mod (2 ^ (- E)))));
        [apply Z.leb_le | apply Z.leb_gt]; nia. }
    rewrite Hcmp. reflexivity.
Qed.

Lemma F64_Round_of_Z (n : Z) :
  Z.abs n < 2 ^ 53 -> F64.Round (F64.of_Z n) = F64.of_Z n.
Proof.
  intros Hn. destruct (Z.eq_dec n 0) as [-> | Hn0]; [reflexivity|].
  assert (HF : fits 53 1024 n 0) by (apply fits64_int; lia).
  rewrite F64_of_Z_fl, F64_Round_fl by (assumption || lia).
  change (2 ^ (- 0)) with 1. change (2 * 1) with 2.
  replace ((2 * Z.abs n + 1) / 2) with (Z.abs n)
    by (apply (Z.div_unique _ _ _ 1); lia).
  rewrite cond_Zopp_abs.
  apply (binary_normalize_fl 53 1024 n 0 n 0 (n <? 0) Hn0 HF).
  left. split; [lia|]. cbn. lia.
Qed.

Lemma F64_to_f32_int (n : Z) :
  Z.abs n < 2 ^ 24 -> F64.to_f32 (F64.of_Z n) = F32.of_Z n.
Proof.
  intros Hn. rewrite F64_of_Z_fl, F32_of_Z_fl.
  apply F64_to_f32_exact; [apply fits32_int; exact Hn | apply fits64_int; lia].
Qed.

Lemma Int26_6_Ceil_spec (x : Z) :
  - 2 ^ 31 <= x + 63 < 2 ^ 31 ->
  Int26_6_Ceil x = (x + 63) / 64 /\
  64 * (Int26_6_Ceil x - 1) < x <= 64 * Int26_6_Ceil x.
Proof.
  intros Hx. unfold Int26_6_Ceil. rewrite int32_small by exact Hx.
  rewrite Z.shiftr_div_pow2 by lia. change (2 ^ 6) with 64.
  split; [reflexivity|].
  pose proof (Z.div_mod (x + 63) 64 ltac:(lia)) as Hdm.
  pose proof (Z.mod_pos_bound (x + 63) 64 ltac:(lia)) as Hr. lia.
Qed.

(** [float32(math.Round(float64(int26_6ToFloat32(adv))))]. *)
Lemma rounded_advance (adv : Z) :
  Z.abs adv < 2 ^ 24 ->
  F64.to_f32 (F64.Round (F64.of_f32 (int26_6ToFloat32 adv)))
  = if (-32 <? adv) && (adv <? 0) then S754_zero true
    else F32.of_Z (round_half_away_26_6 adv).
Proof.
  intros Hadv.
  destruct (Z.eq_dec adv 0) as [-> | Hne]; [vm_compute; reflexivity|].
  assert (Hint : is_int32 adv = true) by (apply is_int32_small; lia).
  rewrite (int26_6ToFloat32_exact adv adv 0 Hint ltac:(lia) ltac:(cbn; lia) Hadv).
  change (0 - 6) with (-6).
  assert (H32 : fits 24 128 adv (-6)) by (apply fits32_dyadic; lia).
  assert (H64 : fits 53 1024 adv (-6)) by (apply fits64_int; lia).
  rewrite F64_of_f32_exact, F64_Round_fl by (assumption || lia).
  change (2 ^ (- -6)) with 64.
  replace ((2 * Z.abs adv + 64) / (2 * 64)) with ((Z.abs adv + 32) / 64)
    by (replace (2 * Z.abs adv + 64) with (2 * (Z.abs adv + 32)) by lia;
        rewrite Z.div_mul_cancel_l by lia; reflexivity).
  pose proof (Z.div_mod (Z.abs adv + 32) 64 ltac:(lia)) as Hdm.
  pose proof (Z.mod_pos_bound (Z.abs adv + 32) 64 ltac:(lia)) as Hr.
  set (Q := (Z.abs adv + 32) / 64) in *.
  assert (HQ : 0 <= Q < 2 ^ 24) by lia.
  assert (Hround : round_half_away_26_6 adv = cond_Zopp (adv <? 0) Q).
  { unfold round_half_away_26_6. fold Q. unfold cond_Zopp.
    destruct (Z.ltb_spec adv 0); [rewrite Z.sgn_neg by lia | rewrite Z.sgn_pos by lia]; lia. }
  destruct (Z.eq_dec Q 0) as [HQ0 | HQ0].
  - rewrite HQ0. rewrite Hround, HQ0.
    destruct (Z.ltb_spec adv 0) as [Hneg | Hpos].
    + replace (-32 <? adv) with true by (symmetry; apply Z.ltb_lt; lia). reflexivity.
    + rewrite andb_false_r. reflexivity.
  - replace ((-32 <? adv) && (adv <? 0)) with false.
    2:{ symmetry. apply andb_false_iff.
        destruct (Z.ltb_spec adv 0); [left; apply Z.ltb_ge; lia | right; reflexivity]. }
    rewrite Hround.
    assert (Hc0 : cond_Zopp (adv <? 0) Q <> 0) by (unfold cond_Zopp; destruct (adv <? 0); lia).
    assert (Hcabs : Z.abs (cond_Zopp (adv <? 0) Q) < 2 ^ 24)
      by (unfold cond_Zopp; destruct (adv <? 0); lia).
    rewrite (binary_normalize_fl 53 1024 (cond_Zopp (adv <? 0) Q) 0
               (cond_Zopp (adv <? 0) Q) 0 (adv <? 0) Hc0).
    + rewrite <- F64_of_Z_fl. apply F64_to_f32_int. exact Hcabs.
    + apply fits64_int; lia.
    + left. split; [lia|]. cbn. lia.
Qed.

(** X8. The glyph record written at lines 214-221, for coordinates
    below [2^29] in 26.6 units and an advance below [2^24]: the bearings
    are the ceilings of the left and the top edge of the precise
    bounding box ([math.Round] changes nothing, its argument being a
    whole number already), and the advance is the advance in pixels
    rounded to the nearest whole number, halves away from zero; an
    advance between -1/2 and 0 is stored as negative zero. *)
Theorem make_runeInfo_values (currentIndex : Z) (roundedRect accurateRect : Rectangle)
    (adv : Z) :
  Z.abs (Min_X accurateRect) < 2 ^ 29 -> Z.abs (Max_Y accurateRect) < 2 ^ 29 ->
  Z.abs adv < 2 ^ 24 ->
  let info := make_runeInfo currentIndex roundedRect accurateRect adv in
  (exists c, 64 * (c - 1) < Min_X accurateRect <= 64 * c /\ bearingX info = F32.of_Z c) /\
  (exists c, 64 * (c - 1) < Max_Y accurateRect <= 64 * c /\ bearingY info = F32.of_Z c) /\
  advance info = (if (-32 <? adv) && (adv <? 0) then S754_zero true
                  else F32.of_Z (round_half_away_26_6 adv)) /\
  (0 <= adv -> exists n, 64 * n - 32 <= adv < 64 * n + 32 /\ advance info = F32.of_Z n).
Proof.
  intros HX HY Hadv info. unfold info, make_runeInfo.
  cbn [bearingX bearingY advance].
  destruct (Int26_6_Ceil_spec (Min_X accurateRect) ltac:(lia)) as [HcX HbX].
  destruct (Int26_6_Ceil_spec (Max_Y accurateRect) ltac:(lia)) as [HcY HbY].
  split; [|split; [|split]].
  - exists (Int26_6_Ceil (Min_X accurateRect)). split; [exact HbX|].
    rewrite F64_Round_of_Z by lia. apply F64_to_f32_int. lia.
  - exists (Int26_6_Ceil (Max_Y accurateRect)). split; [exact HbY | reflexivity].
  - apply rounded_advance. exact Hadv.
  - intros Hpos. rewrite rounded_advance by exact Hadv.
    replace (adv <? 0) with false by (symmetry; apply Z.ltb_ge; lia).
    rewrite andb_false_r. exists (round_half_away_26_6 adv). split; [|reflexivity].
    unfold round_half_away_26_6. rewrite Z.abs_eq by lia.
    pose proof (Z.div_mod (adv + 32) 64 ltac:(lia)) as Hdm.
    pose proof (Z.mod_pos_bound (adv + 32) 64 ltac:(lia)) as Hr.
    destruct (Z.eq_dec adv 0) as [-> | Hne]; [cbn; lia|].
    rewrite Z.sgn_pos by lia. lia.
Qed.

Lemma make_runeInfo_values_witness :
  bearingX (make_runeInfo 0 {| Min_X := 1; Min_Y := -8; Max_X := 7; Max_Y := 0 |}
              {| Min_X := 80; Min_Y := -512; Max_X := 448; Max_Y := 0 |} 672)
  = F32.of_Z 2 /\
  advance (make_runeInfo 0 {| Min_X := 1; Min_Y := -8; Max_X := 7; Max_Y := 0 |}
             {| Min_X := 80; Min_Y := -512; Max_X := 448; Max_Y := 0 |} 672)
  = F32.of_Z 11.
Proof.
  destruct (make_runeInfo_values 0 {| Min_X := 1; Min_Y := -8; Max_X := 7; Max_Y := 0 |}
              {| Min_X := 80; Min_Y := -512; Max_X := 448; Max_Y := 0 |} 672)
    as ((c & Hc & HbX) & _ & Hadv & _).
  - cbn. lia.
  - cbn. lia.
  - cbn. lia.
  - cbn [Min_X] in Hc. assert (c = 2) by lia. subst c.
    split; [exact HbX | exact Hadv].
Defined.

(** The records that the glyph loop writes: one per character, at the
    index of the character, none written twice. *)
Lemma glyph_loop_records (fontName : string) (fontSize : Z) (face : Face) (n k : nat)
    (a a' : atlas) (w w' : World) :
  (k + n <= numRunes)%nat -> length (a_runeMap a) = numRunes ->
  glyph_loop fontName fontSize face n (minASCII + Z.of_nat k) a w = (Ok a', w') ->
  length (a_runeMap a') = numRunes /\
  (forall j, (j < k)%nat -> a_runeMap a' !! j = a_runeMap a !! j) /\
  (forall j, (k <= j < k + n)%nat ->
     let c := minASCII + Z.of_nat j in
     g_ok (Glyph face c) = true /\ b_ok (GlyphBounds face c) = true /\
     exists ci,
       a_runeMap a' !! j
       = Some (make_runeInfo ci (g_dr (Glyph face c)) (b_bounds (GlyphBounds face c))
                 (g_advance (Glyph face c)))).
Proof.
  revert k a w. induction n as [|n IH]; intros k a w Hkn Hlen Hloop.
  - cbn [glyph_loop] in Hloop. unfold mret in Hloop. injection Hloop as <- _.
    split; [exact Hlen|]. split; [reflexivity|]. intros j Hj. lia.
  - cbn [glyph_loop] in Hloop. apply mbind_Ok_inv in Hloop.
    destruct Hloop as (a1 & w1 & Hstep & Hrest).
    apply glyph_step_Ok_inv in Hstep. cbv zeta in Hstep.
    rewrite int32_code in Hstep by lia.
    destruct Hstep as (Hok & Hbok & glyph & _ & _ & Hrm).
    replace (Z.to_nat (minASCII + Z.of_nat k - minASCII)) with k in Hrm by lia.
    replace (minASCII + Z.of_nat k + 1) with (minASCII + Z.of_nat (S k)) in Hrest by lia.
    assert (Hlen1 : length (a_runeMap a1) = numRunes)
      by (rewrite Hrm, length_insert; exact Hlen).
    destruct (IH (S k) a1 w1 ltac:(lia) Hlen1 Hrest) as (Hlen' & Hkeep & Hnew).
    split; [exact Hlen'|]. split.
    + intros j Hj. rewrite Hkeep by lia. rewrite Hrm.
      apply list_lookup_insert_ne. lia.
    + intros j Hj c. destruct (Nat.eq_dec j k) as [-> | Hne].
      * split; [exact Hok|]. split; [exact Hbok|].
        exists (a_currentIndex a). rewrite Hkeep by lia. rewrite Hrm.
        apply list_lookup_insert_eq. lia.
      * apply Hnew. lia.
Qed.

(** X9. In a font that a call has built, the record that [MapString]
    and [CalcStringDims] read for a character of the range 32 to 126 is
    the one made of the rasterizer's answers for that character: its
    rounded box, its precise bounds, and the advance that [Glyph]
    returned (the advance that [GlyphBounds] returned is dropped). *)
Theorem LoadFontTexture_records (env : Env) (fontName : string) (fontSize : Z)
    (w w' : World) (font : FontInfo) (bytes : list Z) (ttf : ttfFont) (c : Z) :
  cache_lookup w (fontName, fontSize) = None ->
  LoadFontTexture env fontName fontSize w = (Ok font, w') ->
  ReadFile env fontName = Ok bytes -> truetype_Parse env bytes = Ok ttf ->
  minASCII <= c < MaxASCII ->
  let g := Glyph (ttf fontSize) c in
  let b := GlyphBounds (ttf fontSize) c in
  g_ok g = true /\ b_ok b = true /\
  exists ci, rune_info font c = Ok (make_runeInfo ci (g_dr g) (b_bounds b) (g_advance g)).
Proof.
  intros Hl Hload Hread Hparse Hc g b.
  pose (w1 := {| fontMap := Some match fontMap w with Some m => m | None => ∅ end;
                 trace := trace w |}).
  destruct (build_font_cases env fontName fontSize w1) as (r & evs & Hb & Hcases).
  destruct (LoadFontTexture_miss_run env fontName fontSize w r evs Hl Hb)
    as (w0 & Hload0 & _).
  rewrite Hload in Hload0. injection Hload0 as <- <-.
  destruct Hcases as [(Hno & _) | (bytes' & ttf' & s & a & w3 & glyph & Hread' & Hparse' & _
                                   & Hloop & _ & _ & _ & Hr)].
  { exfalso. apply (Hno font). reflexivity. }
  rewrite Hread in Hread'. injection Hread' as <-.
  rewrite Hparse in Hparse'. injection Hparse' as <-.
  destruct (s fontSize) as [m | e |]; try discriminate Hr. injection Hr as ->.
  destruct (glyph_loop_records fontName fontSize (ttf fontSize) numRunes 0 empty_atlas a
              (after_reads fontName w1) w3 (Nat.le_refl _) (length_replicate _ _) Hloop)
    as (Hlen & _ & Hnew).
  assert (Hcj : c = minASCII + Z.of_nat (Z.to_nat (c - minASCII))) by lia.
  assert (Hjc : (Z.to_nat (c - minASCII) < numRunes)%nat).
  { change numRunes with 95%nat. unfold minASCII, MaxASCII in *. lia. }
  destruct (Hnew (Z.to_nat (c - minASCII)) ltac:(lia)) as (Hok & Hbok & ci & Hrec).
  rewrite <- Hcj in Hok, Hbok, Hrec.
  split; [exact Hok|]. split; [exact Hbok|]. exists ci.
  unfold rune_info, index. cbn [font_of runeMap].
  rewrite int32_small by (unfold minASCII, MaxASCII in *; lia).
  destruct (Z.ltb_spec (c - minASCII) 0) as [Hneg | _]; [lia|].
  rewrite Hrec. reflexivity.
Qed.

Lemma LoadFontTexture_records_witness :
  exists font w1 ci,
    LoadFontTexture (demo_env true) "a.ttf" 12 initial_world = (Ok font, w1) /\
    rune_info font 65
    = Ok (make_runeInfo ci (g_dr (demo_glyph true 65)) (b_bounds (demo_bounds 65)) 640).
Proof.
  destruct demo_load_Ok as (font & w1 & Hrun).
  destruct (LoadFontTexture_records (demo_env true) "a.ttf" 12 initial_world w1 font
              [0; 1; 0; 0] (fun _ => demo_face true) 65)
    as (_ & _ & ci & Hrec).
  - reflexivity.
  - exact Hrun.
  - reflexivity.
  - reflexivity.
  - unfold minASCII, MaxASCII. lia.
  - exists font, w1, ci. split; [exact Hrun | exact Hrec].
Defined.

Lemma rows_upto_mono (face : Face) (i j : nat) :
  rects_ok face = true -> (i <= j <= numRunes)%nat -> rows_upto face i <= rows_upto face j.
Proof.
  intros Hrect. induction j as [|j IH]; intros Hij.
  - replace i with 0%nat by lia. lia.
  - destruct (Nat.eq_dec i (S j)) as [-> | Hne]; [lia|].
    rewrite rows_upto_S by lia.
    pose proof (rects_ok_Dy face j Hrect ltac:(lia)). specialize (IH ltac:(lia)). lia.
Qed.

(** The height of the texture of a build. *)
Lemma build_font_height (env : Env) (fontName : string) (fontSize : Z) (w w' : World)
    (font : FontInfo) (face : Face) (S : Z) :
  build_font env fontName fontSize w = (Ok font, w') ->
  face_of env fontName fontSize = Some face ->
  rects_ok face = true -> stride_ok face S = true ->
  tex_height (texture font) = int32 (total_rows face).
Proof.
  intros Hb Hface Hrect Hstride.
  apply build_font_Ok_inv in Hb.
  destruct Hb as (face' & a & w1 & w2 & glyph & Hface' & Hloop & _ & Hmask & Hne
                  & _ & Hh & _).
  rewrite Hface in Hface'. injection Hface' as <-.
  destruct (stride_ok_mask face S 33 glyph Hstride ltac:(cbv; lia) Hmask) as [HS Hint].
  assert (Hbytes0 : bytes_inv face S 0 empty_atlas) by reflexivity.
  pose proof (glyph_loop_bytes fontName fontSize face S numRunes 0 empty_atlas a w1 w2
                ltac:(lia) Hrect Hstride Hloop Hbytes0) as Hbytes.
  unfold bytes_inv in Hbytes. cbn [Nat.add] in Hbytes.
  rewrite rows_upto_all in Hbytes.
  rewrite Hh, Hbytes, HS. rewrite Z.quot_mul by (rewrite <- HS; exact Hne).
  apply int32_int64.
Qed.

(** The rows of the glyphs of a built font lie inside its texture. *)
Lemma built_rows_inside (env : Env) (fontName : string) (fontSize : Z)
    (w w' : World) (font : FontInfo) (face : Face) (S : Z) :
  cache_lookup w (fontName, fontSize) = None ->
  LoadFontTexture env fontName fontSize w = (Ok font, w') ->
  face_of env fontName fontSize = Some face ->
  rects_ok face = true -> stride_ok face S = true -> total_rows face < 2 ^ 31 ->
  (forall j x, runeMap font !! j = Some x ->
     0 <= row x /\ 0 <= height x /\ row x + height x <= tex_height (texture font)) /\
  (forall i j x y, (i < j)%nat -> runeMap font !! i = Some x -> runeMap font !! j = Some y ->
     row x + height x <= row y) /\
  (forall x, last (runeMap font) = Some x ->
     row x + height x = tex_height (texture font)).
Proof.
  intros Hl Hload Hface Hrect Hstride Htotal.
  rewrite (LoadFontTexture_miss env _ _ _ Hl) in Hload. cbv zeta in Hload.
  destruct (build_font env fontName fontSize _) as [[f | e |] wb] eqn:Hb;
    [| discriminate Hload | discriminate Hload].
  injection Hload as <- <-.
  pose proof (build_font_height _ _ _ _ _ _ _ _ Hb Hface Hrect Hstride) as Hh.
  pose proof (build_font_atlas_rows _ _ _ _ _ _ _ Hb Hface Hrect) as [Hlen Hrows].
  pose proof (rows_upto_nonneg face numRunes Hrect ltac:(lia)) as Hnn.
  rewrite rows_upto_all in Hnn.
  rewrite int32_small in Hh by lia.
  assert (Hrec : forall j x, runeMap f !! j = Some x ->
            (j < numRunes)%nat /\ row x = rows_upto face j /\
            row x + height x = rows_upto face (Datatypes.S j)).
  { intros j x Hx. pose proof (lookup_lt_Some _ _ _ Hx) as Hj. rewrite Hlen in Hj.
    destruct (Hrows j x Hx) as [Hr Hhx]. split; [exact Hj|].
    pose proof (rows_upto_nonneg face j Hrect ltac:(lia)) as H0.
    pose proof (rows_upto_mono face j (Datatypes.S j) Hrect ltac:(lia)) as H1.
    pose proof (rows_upto_mono face (Datatypes.S j) numRunes Hrect ltac:(lia)) as H2.
    rewrite rows_upto_all in H2. rewrite rows_upto_S in H1, H2 |- * by exact Hj.
    rewrite int32_small in Hr by lia. rewrite int32_small in Hhx by lia.
    split; [exact Hr | lia]. }
  split; [|split].
  - intros j x Hx. destruct (Hrec j x Hx) as (Hj & Hr & Hsum).
    pose proof (rows_upto_nonneg face j Hrect ltac:(lia)) as H0.
    pose proof (rows_upto_mono face j (Datatypes.S j) Hrect ltac:(lia)) as H1.
    pose proof (rows_upto_mono face (Datatypes.S j) numRunes Hrect ltac:(lia)) as H2.
    rewrite rows_upto_all in H2. lia.
  - intros i j x y Hij Hx Hy.
    destruct (Hrec i x Hx) as (Hi & _ & Hsum). destruct (Hrec j y Hy) as (Hj & Hr & _).
    rewrite Hsum, Hr. apply rows_upto_mono; [exact Hrect | lia].
  - intros x Hx. rewrite last_lookup, Hlen in Hx.
    destruct (Hrec _ x Hx) as (_ & _ & Hsum). rewrite Hsum, Hh.
    change (Datatypes.S (Init.Nat.pred numRunes)) with numRunes. apply rows_upto_all.
Qed.

(** X10. In a font that a call has built from a rasterizer with
    well-formed rectangles and masks of one stride, with fewer than
    [2^31] rows in all: every glyph occupies rows inside the texture,
    the rows of an earlier character end where or before those of a
    later one begin, so no two glyphs share a row, and the last glyph
    ends on the last row: the texture has no unused rows. *)
Theorem LoadFontTexture_rows_inside (env : Env) (fontName : string) (fontSize : Z)
    (w w' : World) (font : FontInfo) (face : Face) (S : Z) :
  cache_lookup w (fontName, fontSize) = None ->
  LoadFontTexture env fontName fontSize w = (Ok font, w') ->
  face_of env fontName fontSize = Some face ->
  rects_ok face = true -> stride_ok face S = true -> total_rows face < 2 ^ 31 ->
  (forall j x, runeMap font !! j = Some x ->
     0 <= row x /\ 0 <= height x /\ row x + height x <= tex_height (texture font)) /\
  (forall i j x y, (i < j)%nat -> runeMap font !! i = Some x -> runeMap font !! j = Some y ->
     row x + height x <= row y) /\
  (forall x, last (runeMap font) = Some x ->
     row x + height x = tex_height (texture font)).
Proof. apply built_rows_inside. Qed.

Lemma LoadFontTexture_rows_inside_witness :
  exists font w1,
    LoadFontTexture (demo_env true) "a.ttf" 12 initial_world = (Ok font, w1) /\
    (forall x, last (runeMap font) = Some x ->
       row x + height x = tex_height (texture font)).
Proof.
  destruct demo_load_Ok as (font & w1 & Hrun). exists font, w1.
  split; [exact Hrun|].
  destruct (LoadFontTexture_rows_inside (demo_env true) "a.ttf" 12 initial_world w1 font
              (demo_face true) 8) as (_ & _ & Hlast).
  - reflexivity.
  - exact Hrun.
  - reflexivity.
  - vm_compute. reflexivity.
  - vm_compute. reflexivity.
  - vm_compute. reflexivity.
  - exact Hlast.
Defined.

(** * Buffers, vertex arrays and texture access *)

Lemma gbind_run {A B : Type} (m : GL A) (k : A -> GL B) (l l1 : list glcall) (a : A) :
  m l = (Returns a, l1) -> gbind m k l = k a l1.
Proof. intros Hm. unfold gbind. rewrite Hm. reflexivity. Qed.

Lemma gbind_call {B : Type} (c : glcall) (k : unit -> GL B) (l : list glcall) :
  gbind (call c) k l = k tt (l ++ [c]).
Proof. reflexivity. Qed.

Lemma uint32_small (z : Z) : 0 <= z < 2 ^ 32 -> uint32 z = z.
Proof. intros Hz. unfold uint32. apply Z.mod_small. exact Hz. Qed.

(** The loop over the attributes makes one call per attribute. *)
Lemma each_attrib_run (f : Z -> glcall) (n : Z) (l : list glcall) :
  each_attrib f n l = (Returns tt, l ++ map (fun i => f (Z.of_nat i)) (seq 0 (Z.to_nat n))).
Proof.
  unfold each_attrib. generalize (seq 0 (Z.to_nat n)). intros js. revert l.
  induction js as [|j js IH]; intros l; cbn [fold_right map].
  - unfold gret. rewrite app_nil_r. reflexivity.
  - rewrite gbind_call, IH, <- app_assoc. reflexivity.
Qed.

(** X11. [BufferSubData] accepts a write exactly when the [uint32] sum
    of offset and size is at most the size of the store.  While the sum
    stays below [2^32] that is the bounds check it is meant to be; when
    the sum wraps around, a range that lies outside the store is
    accepted.  A rejected call makes no device call; an accepted one
    binds the buffer, writes and unbinds. *)
Theorem BufferSubData_bounds (bo : BufferObject) (target offset sizeBytes : Z)
    (ptr : memory) (l : list glcall) :
  0 <= offset < 2 ^ 32 -> 0 <= sizeBytes < 2 ^ 32 ->
  let res := BufferSubData bo target offset sizeBytes ptr l in
  (offset + sizeBytes < 2 ^ 32 ->
   (fst res = Returns tt <-> offset + sizeBytes <= bo_sizeBytes bo)) /\
  (2 ^ 32 <= offset + sizeBytes ->
   (fst res = Returns tt <-> offset + sizeBytes - 2 ^ 32 <= bo_sizeBytes bo)) /\
  (fst res = Returns tt ->
   snd res = l ++ [glBindBuffer target (bo_id bo);
                   glBufferSubData target offset sizeBytes ptr;
                   glBindBuffer target 0]) /\
  (fst res <> Returns tt ->
   res = (Fails (ErrOutOfBounds (uint32 (offset + sizeBytes)) (bo_sizeBytes bo)), l)).
Proof.
  intros Ho Hs res. unfold res, BufferSubData.
  assert (Hwrap : uint32 (offset + sizeBytes)
                  = if offset + sizeBytes <? 2 ^ 32 then offset + sizeBytes
                    else offset + sizeBytes - 2 ^ 32).
  { unfold uint32. destruct (Z.ltb_spec (offset + sizeBytes) (2 ^ 32)).
    - apply Z.mod_small. lia.
    - symmetry. apply (Z.mod_unique _ _ 1); lia. }
  destruct (Z.ltb_spec (bo_sizeBytes bo) (uint32 (offset + sizeBytes))) as [Hlt | Hge].
  - cbn [gfail fst snd]. rewrite Hwrap in Hlt.
    split; [|split; [|split]].
    + intros Hsum. destruct (Z.ltb_spec (offset + sizeBytes) (2 ^ 32)); [|lia].
      split; [discriminate | lia].
    + intros Hsum. destruct (Z.ltb_spec (offset + sizeBytes) (2 ^ 32)); [lia|].
      split; [discriminate | lia].
    + discriminate.
    + reflexivity.
  - unfold BufferObject_Bind, BufferObject_Unbind. rewrite !gbind_call.
    unfold call. cbn [fst snd]. rewrite <- !app_assoc. cbn [app]. rewrite Hwrap in Hge.
    split; [|split; [|split]].
    + intros Hsum. destruct (Z.ltb_spec (offset + sizeBytes) (2 ^ 32)); [|lia].
      split; [lia | reflexivity].
    + intros Hsum. destruct (Z.ltb_spec (offset + sizeBytes) (2 ^ 32)); [lia|].
      split; [lia | reflexivity].
    + reflexivity.
    + intros Hno. exfalso. apply Hno. reflexivity.
Qed.

(** A store of 8 bytes accepts 2 bytes at offset [2^32 - 1]. *)
Lemma BufferSubData_bounds_witness :
  fst (BufferSubData {| bo_id := 1; bo_sizeBytes := 8 |} gl_ARRAY_BUFFER (2 ^ 32 - 1) 2
         mem_nil []) = Returns tt.
Proof.
  destruct (BufferSubData_bounds {| bo_id := 1; bo_sizeBytes := 8 |} gl_ARRAY_BUFFER
              (2 ^ 32 - 1) 2 mem_nil []) as (_ & Hwrap & _).
  - lia.
  - lia.
  - apply Hwrap; cbn; lia.
Defined.

(** A successful [Load]. *)
Lemma VAO_Load_run (vao : VAO) (data : list spec_float) (usage : Z) (l : list glcall) :
  data <> [] ->
  VAO_Load vao data usage l
  = (Returns {| vao_id := vao_id vao;
                vbo := {| bo_id := bo_id (vbo vao);
                          bo_sizeBytes := uint32 (int64 (4 * Z.of_nat (length data))) |};
                mode := mode vao;
                vertSize := vertSize vao;
                numAttribs := numAttribs vao;
                layout := layout vao |},
     l ++ [glBindBuffer gl_ARRAY_BUFFER (bo_id (vbo vao));
           glBufferData gl_ARRAY_BUFFER (uint32 (int64 (4 * Z.of_nat (length data))))
                        (mem_floats data) usage;
           glBindBuffer gl_ARRAY_BUFFER 0]).
Proof.
  intros Hne. unfold VAO_Load. destruct data as [|x data]; [contradiction|].
  cbn [length Nat.eqb].
  cbv beta iota zeta delta [BufferData BufferObject_Bind BufferObject_Unbind gbind call gret
                            bo_id].
  rewrite <- !app_assoc. reflexivity.
Qed.

(** A [Draw] of a loaded array with a non-zero divisor. *)
Lemma VAO_Draw_run (vao : VAO) (l : list glcall) :
  GetSizeBytes (vbo vao) <> 0 -> int32 (4 * vertSize vao) <> 0 ->
  VAO_Draw vao l
  = (Returns tt,
     l ++ [glBindVertexArray (vao_id vao)] ++ enable_calls (numAttribs vao) ++
     [glDrawArrays (mode vao) 0
        (int32 (Z.quot (int32 (GetSizeBytes (vbo vao))) (int32 (4 * vertSize vao))))] ++
     disable_calls (numAttribs vao) ++ [glBindVertexArray 0]).
Proof.
  intros Hsize Hdiv. unfold VAO_Draw.
  destruct (Z.eqb_spec (GetSizeBytes (vbo vao)) 0) as [|_]; [contradiction|].
  rewrite gbind_call. rewrite (gbind_run _ _ _ _ _ (each_attrib_run _ _ _)). cbv zeta.
  destruct (Z.eqb_spec (int32 (4 * vertSize vao)) 0) as [|_]; [contradiction|].
  rewrite gbind_call. rewrite (gbind_run _ _ _ _ _ (each_attrib_run _ _ _)).
  unfold call, enable_calls, disable_calls. rewrite <- !app_assoc. reflexivity.
Qed.

Lemma sizeBytes_small (n : nat) :
  4 * Z.of_nat n < 2 ^ 31 ->
  uint32 (int64 (4 * Z.of_nat n)) = 4 * Z.of_nat n /\
  int32 (4 * Z.of_nat n) = 4 * Z.of_nat n.
Proof.
  intros Hn. split.
  - unfold int64, wrap. change (2 ^ (64 - 1)) with (2 ^ 63).
    rewrite Z.mod_small by lia. replace (4 * Z.of_nat n + 2 ^ 63 - 2 ^ 63)
      with (4 * Z.of_nat n) by lia.
    apply uint32_small. lia.
  - apply int32_small. lia.
Qed.

(** X12. [Load] fails with [ErrEmptyData], making no device call,
    exactly on empty data.  Otherwise it uploads the data and records
    four bytes per float; the [Draw] that follows binds the array,
    enables the attributes, draws [len(data) / vertSize] vertices (the
    floats of an incomplete last vertex are not drawn), disables the
    attributes and unbinds. *)
Theorem VAO_Load_then_Draw (vao : VAO) (data : list spec_float) (usage : Z)
    (l : list glcall) :
  (data = [] -> VAO_Load vao data usage l = (Fails ErrEmptyData, l)) /\
  (data <> [] -> 0 < vertSize vao -> 4 * vertSize vao < 2 ^ 31 ->
   4 * Z.of_nat (length data) < 2 ^ 31 ->
   exists vao' l' count,
     VAO_Load vao data usage l = (Returns vao', l') /\
     l' = l ++ [glBindBuffer gl_ARRAY_BUFFER (bo_id (vbo vao));
                glBufferData gl_ARRAY_BUFFER (4 * Z.of_nat (length data))
                             (mem_floats data) usage;
                glBindBuffer gl_ARRAY_BUFFER 0] /\
     GetSizeBytes (vbo vao') = 4 * Z.of_nat (length data) /\
     count * vertSize vao <= Z.of_nat (length data) < (count + 1) * vertSize vao /\
     VAO_Draw vao' l'
     = (Returns tt,
        l' ++ [glBindVertexArray (vao_id vao)] ++ enable_calls (numAttribs vao) ++
        [glDrawArrays (mode vao) 0 count] ++
        disable_calls (numAttribs vao) ++ [glBindVertexArray 0])).
Proof.
  split.
  - intros ->. reflexivity.
  - intros Hne Hv Hv4 Hlen.
    destruct (sizeBytes_small (length data) Hlen) as [Hsz Hsz32].
    assert (Hpos : 0 < Z.of_nat (length data)).
    { destruct data; [contradiction | cbn [length]; lia]. }
    eexists _, _, (Z.of_nat (length data) / vertSize vao).
    split; [apply VAO_Load_run; exact Hne|]. rewrite Hsz.
    split; [reflexivity|]. split; [reflexivity|]. split.
    + pose proof (Z.div_mod (Z.of_nat (length data)) (vertSize vao) ltac:(lia)) as Hdm.
      pose proof (Z.mod_pos_bound (Z.of_nat (length data)) (vertSize vao) Hv) as Hr. nia.
    + rewrite VAO_Draw_run.
      * cbn [vbo vao_id mode vertSize numAttribs GetSizeBytes bo_sizeBytes].
        rewrite Hsz32, (int32_small (4 * vertSize vao)) by lia.
        rewrite Z.quot_div_nonneg by lia. rewrite Z.div_mul_cancel_l by lia.
        rewrite int32_small; [reflexivity|].
        pose proof (Z.div_le_upper_bound (Z.of_nat (length data)) (vertSize vao)
                      (Z.of_nat (length data)) Hv ltac:(nia)) as Hub.
        pose proof (Z.div_pos (Z.of_nat (length data)) (vertSize vao) ltac:(lia) Hv). lia.
      * cbn [vbo GetSizeBytes bo_sizeBytes]. lia.
      * cbn [vertSize]. rewrite int32_small by lia. lia.
Qed.

Lemma VAO_Load_then_Draw_witness :
  exists vao' l',
    VAO_Load {| vao_id := 1; vbo := {| bo_id := 2; bo_sizeBytes := 0 |}; mode := 4;
                vertSize := 4; numAttribs := 2; layout := text_layout |}
             (replicate 9 F32.zero) 35044 [] = (Returns vao', l') /\
    In (glDrawArrays 4 0 2) (snd (VAO_Draw vao' l')).
Proof.
  destruct (VAO_Load_then_Draw
              {| vao_id := 1; vbo := {| bo_id := 2; bo_sizeBytes := 0 |}; mode := 4;
                 vertSize := 4; numAttribs := 2; layout := text_layout |}
              (replicate 9 F32.zero) 35044 []) as [_ Hrun].
  destruct Hrun as (vao' & l' & count & Hload & _ & _ & Hcount & Hdraw).
  - discriminate.
  - cbn. lia.
  - cbn. lia.
  - cbn. lia.
  - exists vao', l'. split; [exact Hload|]. rewrite Hdraw. cbn [snd].
    cbn [vertSize length replicate] in Hcount.
    assert (count = 2) by lia. subst count.
    apply in_or_app. right. apply in_or_app. right. apply in_or_app. right.
    left. reflexivity.
Defined.

(** X13. The mesh that [MapString] returns for a non-empty string of
    supported characters (fewer than [2^24] of them) is never rejected
    by [Load]; loaded into a vertex array of four floats per vertex, it
    occupies 96 bytes per character, and the [Draw] that follows draws
    exactly six vertices per character. *)
Theorem MapString_Load_Draw (oor : spec_float -> Z) (font : FontInfo) (str : string)
    (pos : Point) (align : Align) (vao : VAO) (usage : Z) (l : list glcall) :
  str <> ""%string -> all_supported font str = true ->
  vertSize vao = 4 -> Z.of_nat (String.length str) < 2 ^ 24 ->
  exists buffer vao' l',
    MapString oor font str pos align = Ok buffer /\
    VAO_Load vao buffer usage l = (Returns vao', l') /\
    GetSizeBytes (vbo vao') = 96 * Z.of_nat (String.length str) /\
    VAO_Draw vao' l'
    = (Returns tt,
       l' ++ [glBindVertexArray (vao_id vao)] ++ enable_calls (numAttribs vao) ++
       [glDrawArrays (mode vao) 0 (6 * Z.of_nat (String.length str))] ++
       disable_calls (numAttribs vao) ++ [glBindVertexArray 0]).
Proof.
  intros Hne Hs Hv Hlen.
  rewrite (MapString_supported oor font str pos align Hne Hs).
  set (buffer := mesh_of _ _ _).
  assert (Hbl : length buffer = (24 * String.length str)%nat).
  { unfold buffer. rewrite mesh_of_length. unfold glyphs.
    rewrite length_map, str_bytes_length. reflexivity. }
  assert (Hbne : buffer <> []).
  { intros Hnil. rewrite Hnil in Hbl. cbn [length] in Hbl.
    destruct str; [contradiction | cbn [String.length] in Hbl; lia]. }
  assert (Hpos : (0 < String.length str)%nat).
  { destruct str; [contradiction | cbn [String.length]; lia]. }
  destruct (sizeBytes_small (length buffer) ltac:(lia)) as [Hsz Hsz32].
  eexists buffer, _, _. split; [reflexivity|].
  split; [apply VAO_Load_run; exact Hbne|].
  split; [cbn [vbo GetSizeBytes bo_sizeBytes]; rewrite Hsz; lia|].
  rewrite VAO_Draw_run.
  - cbn [vbo vao_id mode vertSize numAttribs GetSizeBytes bo_sizeBytes].
    rewrite Hsz, Hsz32, Hv. change (int32 (4 * 4)) with 16.
    replace (4 * Z.of_nat (length buffer)) with (6 * Z.of_nat (String.length str) * 16) by lia.
    rewrite Z.quot_mul by lia. rewrite int32_small by lia. reflexivity.
  - cbn [vbo GetSizeBytes bo_sizeBytes]. rewrite Hsz. lia.
  - cbn [vertSize]. rewrite Hv. discriminate.
Qed.

Lemma MapString_Load_Draw_witness :
  exists buffer vao' l',
    MapString oor_amd64 (mono_font 1 8 6 8 10) "Hi" {| X := 100; Y := 50 |}
              {| V := AlignMiddle; H := AlignCenter |} = Ok buffer /\
    VAO_Load {| vao_id := 1; vbo := {| bo_id := 2; bo_sizeBytes := 0 |}; mode := 4;
                vertSize := 4; numAttribs := 2; layout := text_layout |}
             buffer 35044 [] = (Returns vao', l') /\
    In (glDrawArrays 4 0 12) (snd (VAO_Draw vao' l')).
Proof.
  destruct (MapString_Load_Draw oor_amd64 (mono_font 1 8 6 8 10) "Hi"
              {| X := 100; Y := 50 |} {| V := AlignMiddle; H := AlignCenter |}
              {| vao_id := 1; vbo := {| bo_id := 2; bo_sizeBytes := 0 |}; mode := 4;
                 vertSize := 4; numAttribs := 2; layout := text_layout |} 35044 [])
    as (buffer & vao' & l' & Hmap & Hload & _ & Hdraw).
  - intros Heq. discriminate Heq.
  - reflexivity.
  - reflexivity.
  - cbn. lia.
  - exists buffer, vao', l'. split; [exact Hmap|]. split; [exact Hload|].
    rewrite Hdraw. cbn [snd].
    apply in_or_app. right. apply in_or_app. right. apply in_or_app. right.
    left. reflexivity.
Defined.

Lemma layout_sum_nonneg (l : list Z) : Forall (fun s => 0 <= s) l -> 0 <= layout_sum l.
Proof. induction 1 as [|s l Hs _ IH]; cbn [layout_sum fold_right]; [lia|]. fold (layout_sum l). lia. Qed.

Lemma vertSize_sum (l : list Z) (acc : Z) :
  Forall (fun s => 0 <= s) l -> 0 <= acc -> acc + layout_sum l < 2 ^ 31 ->
  fold_left (fun a s => int32 (a + s)) l acc = acc + layout_sum l.
Proof.
  intros Hl. revert acc. induction Hl as [|s l Hs Hl IH]; intros acc Hacc Hsum.
  - cbn. lia.
  - cbn [fold_left layout_sum fold_right] in *. fold (layout_sum l) in *.
    pose proof (layout_sum_nonneg l Hl) as Hnn.
    rewrite int32_small by lia. rewrite IH by lia. lia.
Qed.

(** The loop of [configureVAO]. *)
Lemma attrib_pointers_run (rest : list Z) (i offset stride : Z) (l : list glcall) :
  Forall (fun s => 0 <= s) rest -> 0 <= offset -> offset + layout_sum rest < 2 ^ 29 ->
  0 <= i -> i + Z.of_nat (length rest) < 2 ^ 32 ->
  attrib_pointers rest i offset stride l
  = (Returns tt,
     l ++ imap (fun j s => glVertexAttribPointer (i + Z.of_nat j) s gl_FLOAT false stride
                             (4 * (offset + layout_sum (take j rest)))) rest).
Proof.
  intros Hrest. revert i offset l.
  induction Hrest as [|s rest Hs Hrest IH]; intros i offset l Hoff Hsum Hi Hlen.
  - cbn [attrib_pointers imap]. unfold gret. rewrite app_nil_r. reflexivity.
  - cbn [attrib_pointers]. rewrite gbind_call.
    cbn [layout_sum fold_right length] in Hsum, Hlen. fold (layout_sum rest) in Hsum.
    pose proof (layout_sum_nonneg rest Hrest) as Hnn.
    rewrite IH by (rewrite ?int32_small; lia).
    rewrite <- app_assoc. f_equal. f_equal. cbn [app imap]. f_equal.
    + rewrite uint32_small by lia. rewrite int32_small by lia.
      unfold uintptr. rewrite Z.mod_small by lia.
      f_equal; cbn [take layout_sum fold_right]; lia.
    + apply imap_ext. intros j x _. unfold compose.
      rewrite int32_small by lia.
      cbn [take layout_sum fold_right]. fold (layout_sum (take j rest)).
      f_equal; lia.
Qed.

Lemma configureVAO_run (vaoID : Z) (vbo0 : BufferObject) (layout0 : list Z)
    (vertSize0 : Z) (l : list glcall) :
  Forall (fun s => 0 <= s) layout0 -> layout_sum layout0 < 2 ^ 29 ->
  Z.of_nat (length layout0) < 2 ^ 32 ->
  configureVAO vaoID vbo0 layout0 vertSize0 l
  = (Returns tt,
     l ++ [glBindBuffer gl_ARRAY_BUFFER (bo_id vbo0); glBindVertexArray vaoID] ++
     imap (fun j s => glVertexAttribPointer (0 + Z.of_nat j) s gl_FLOAT false
                        (int32 (vertSize0 * 4))
                        (4 * (0 + layout_sum (take j layout0)))) layout0 ++
     [glBindVertexArray 0; glBindBuffer gl_ARRAY_BUFFER 0]).
Proof.
  intros Hl Hsum Hlen. unfold configureVAO, BufferObject_Bind.
  rewrite gbind_call, gbind_call. cbv zeta.
  rewrite (gbind_run _ _ _ _ _
             (attrib_pointers_run layout0 0 0 _ _ Hl ltac:(lia) ltac:(lia) ltac:(lia)
                ltac:(lia))).
  rewrite gbind_call. unfold BufferObject_Unbind, call.
  rewrite <- !app_assoc. reflexivity.
Qed.

Lemma NewBufferObject_run (id : Z) (l : list glcall) :
  NewBufferObject id l = (Returns {| bo_id := id; bo_sizeBytes := 0 |}, l ++ [glGenBuffers id]).
Proof. reflexivity. Qed.

(** X14. [NewVAO], for a layout of non-negative sizes whose sum is
    below [2^29]: it generates the array and its buffer, binds both,
    declares attribute [i] with the size [layout[i]], a stride of four
    bytes per float of a vertex and an offset of four bytes per float
    of the attributes before it, and unbinds.  The vertex size is the
    sum of the layout, and a [Draw] before any [Load] makes no device
    call. *)
Theorem NewVAO_attributes (id bufId mode0 : Z) (layout0 : list Z) (l : list glcall) :
  Forall (fun s => 0 <= s) layout0 -> layout_sum layout0 < 2 ^ 29 ->
  Z.of_nat (length layout0) < 2 ^ 32 ->
  exists vao,
    NewVAO id bufId mode0 layout0 l
    = (Returns vao,
       l ++ [glGenVertexArrays id; glGenBuffers bufId;
             glBindBuffer gl_ARRAY_BUFFER bufId; glBindVertexArray id] ++
       pointer_calls layout0 ++
       [glBindVertexArray 0; glBindBuffer gl_ARRAY_BUFFER 0]) /\
    vertSize vao = layout_sum layout0 /\
    numAttribs vao = Z.of_nat (length layout0) /\
    vao_id vao = id /\ bo_id (vbo vao) = bufId /\
    (forall l', VAO_Draw vao l' = (Returns tt, l')).
Proof.
  intros Hl Hsum Hlen.
  pose proof (layout_sum_nonneg layout0 Hl) as Hnn.
  assert (Hv : fold_left (fun a s => int32 (a + s)) layout0 0 = layout_sum layout0)
    by (rewrite vertSize_sum by (assumption || lia); lia).
  eexists. split.
  - unfold NewVAO. rewrite gbind_call.
    rewrite (gbind_run _ _ _ _ _ (NewBufferObject_run bufId _)). cbv zeta.
    rewrite (gbind_run _ _ _ _ _ (configureVAO_run id _ layout0 _ _ Hl Hsum Hlen)).
    unfold gret. cbn [bo_id]. rewrite Hv. rewrite int32_small by lia.
    rewrite uint32_small by lia.
    rewrite <- !app_assoc. cbn [app]. f_equal. f_equal. f_equal. f_equal. f_equal. f_equal.
    f_equal. unfold pointer_calls. apply imap_ext. intros j x _. f_equal; lia.
  - cbn [vertSize numAttribs vao_id vbo bo_id].
    split; [reflexivity|]. split; [reflexivity|]. split; [reflexivity|].
    split; [reflexivity|]. intros l'. reflexivity.
Qed.

(** Positions of three floats and texture coordinates of two: the
    second attribute starts at byte 12 of a vertex of 20 bytes. *)
Lemma NewVAO_attributes_witness :
  exists vao,
    fst (NewVAO 1 2 4 [3; 2] []) = Returns vao /\ vertSize vao = 5 /\
    In (glVertexAttribPointer 1 2 gl_FLOAT false 20 12) (snd (NewVAO 1 2 4 [3; 2] [])).
Proof.
  destruct (NewVAO_attributes 1 2 4 [3; 2] []) as (vao & Hrun & Hv & _).
  - repeat constructor; lia.
  - cbn. lia.
  - cbn. lia.
  - exists vao. rewrite Hrun. cbn [fst snd]. split; [reflexivity|].
    split; [exact Hv|]. cbn. auto 10.
Defined.

(** X15. A vertex array whose vertex size is zero, as [NewVAO] makes
    of an empty layout, accepts a [Load]; the [Draw] that follows then
    panics on an integer division by zero, after it has bound the
    array. *)
Theorem VAO_empty_layout_Draw_panics (id bufId mode0 : Z) (data : list spec_float)
    (usage : Z) (l : list glcall) :
  data <> [] -> 4 * Z.of_nat (length data) < 2 ^ 32 ->
  exists vao l1 vao' l2,
    NewVAO id bufId mode0 [] l = (Returns vao, l1) /\
    VAO_Load vao data usage l1 = (Returns vao', l2) /\
    VAO_Draw vao' l2 = (Panics, l2 ++ [glBindVertexArray id]).
Proof.
  intros Hne Hlen. eexists _, _, _, _.
  split.
  { unfold NewVAO. rewrite gbind_call.
    rewrite (gbind_run _ _ _ _ _ (NewBufferObject_run bufId _)). cbv zeta.
    rewrite (gbind_run _ _ _ _ _
               (configureVAO_run id _ [] _ _ (Forall_nil_2 _) ltac:(cbn; lia)
                  ltac:(cbn; lia))).
    unfold gret. reflexivity. }
  split; [apply VAO_Load_run; exact Hne|].
  unfold VAO_Draw. cbn [vbo GetSizeBytes bo_sizeBytes vao_id numAttribs vertSize].
  assert (Hpos : 0 < Z.of_nat (length data)).
  { destruct data; [contradiction | cbn [length]; lia]. }
  assert (Hsz : uint32 (int64 (4 * Z.of_nat (length data))) <> 0).
  { unfold int64, wrap. change (2 ^ (64 - 1)) with (2 ^ 63).
    rewrite Z.mod_small by lia.
    replace (4 * Z.of_nat (length data) + 2 ^ 63 - 2 ^ 63)
      with (4 * Z.of_nat (length data)) by lia.
    rewrite uint32_small by lia. lia. }
  destruct (Z.eqb_spec (uint32 (int64 (4 * Z.of_nat (length data)))) 0) as [|_];
    [contradiction|].
  rewrite gbind_call. rewrite (gbind_run _ _ _ _ _ (each_attrib_run _ _ _)).
  cbn. rewrite app_nil_r. reflexivity.
Qed.

Lemma VAO_empty_layout_Draw_panics_witness :
  exists vao l1 vao' l2,
    NewVAO 1 2 4 [] [] = (Returns vao, l1) /\
    VAO_Load vao [F32.zero] 35044 l1 = (Returns vao', l2) /\
    fst (VAO_Draw vao' l2) = Panics.
Proof.
  destruct (VAO_empty_layout_Draw_panics 1 2 4 [F32.zero] 35044 [])
    as (vao & l1 & vao' & l2 & Hnew & Hload & Hdraw).
  - discriminate.
  - cbn. lia.
  - exists vao, l1, vao', l2. split; [exact Hnew|]. split; [exact Hload|].
    rewrite Hdraw. reflexivity.
Defined.

Lemma SetPixelArea_guard (t : Texture) (x y : Z) :
  (x <? 0) || (y <? 0) || (tex_width t <=? x) || (tex_height t <=? y) = false
  <-> origin_inside t x y.
Proof.
  unfold origin_inside. rewrite !orb_false_iff, !Z.ltb_ge, !Z.leb_gt. lia.
Qed.

Lemma classic_inside (t : Texture) (x y : Z) :
  origin_inside t x y \/ ~ origin_inside t x y.
Proof. unfold origin_inside. lia. Qed.

(** X16. [SetPixelArea] checks the origin of the rectangle and nothing
    else.  With the origin outside the texture it returns
    [ErrCoordOutOfRange] and makes no device call.  With the origin
    inside it passes the rectangle on whatever its width and height,
    also when it extends past the texture, and it panics on empty data,
    after it has set the unpack alignment.  [SetPixel] therefore
    succeeds exactly on the points inside the texture, never panics, and
    writes its byte to the one-pixel rectangle at the point. *)
Theorem SetPixelArea_checks_origin_only (t : Texture) (r : Rect) (d : list Z)
    (genMipmap : bool) (p : Point) (b : Z) (l : list glcall) :
  (~ origin_inside t (Rect_X r) (Rect_Y r) ->
   SetPixelArea t r d genMipmap l = (Fails (ErrCoordOutOfRange r), l)) /\
  (origin_inside t (Rect_X r) (Rect_Y r) -> d = [] ->
   SetPixelArea t r d genMipmap l
   = (Panics, l ++ [glPixelStorei gl_UNPACK_ALIGNMENT (tex_alignment t)])) /\
  (origin_inside t (Rect_X r) (Rect_Y r) -> d <> [] ->
   SetPixelArea t r d genMipmap l
   = (Returns tt,
      l ++ [glPixelStorei gl_UNPACK_ALIGNMENT (tex_alignment t);
            glTextureSubImage2D (tex_id t) 0 (Rect_X r) (Rect_Y r) (Rect_W r) (Rect_H r)
                                (tex_format t) gl_UNSIGNED_BYTE d] ++
      (if genMipmap
       then [glBindTexture gl_TEXTURE_2D (tex_id t); glGenerateMipmap gl_TEXTURE_2D;
             glBindTexture gl_TEXTURE_2D 0]
       else []))) /\
  (fst (SetPixel t p b genMipmap l) = Returns tt <-> origin_inside t (X p) (Y p)) /\
  fst (SetPixel t p b genMipmap l) <> Panics /\
  (origin_inside t (X p) (Y p) ->
   In (glTextureSubImage2D (tex_id t) 0 (X p) (Y p) 1 1 (tex_format t) gl_UNSIGNED_BYTE [b])
      (snd (SetPixel t p b genMipmap l))).
Proof.
  assert (Hout : forall r' d', ~ origin_inside t (Rect_X r') (Rect_Y r') ->
            SetPixelArea t r' d' genMipmap l = (Fails (ErrCoordOutOfRange r'), l)).
  { intros r' d' Hno. unfold SetPixelArea.
    destruct (_ || _) eqn:Hg; [reflexivity|].
    exfalso. apply Hno. apply SetPixelArea_guard. exact Hg. }
  assert (Hin : forall r' x d', origin_inside t (Rect_X r') (Rect_Y r') ->
            SetPixelArea t r' (x :: d') genMipmap l
            = (Returns tt,
               l ++ [glPixelStorei gl_UNPACK_ALIGNMENT (tex_alignment t);
                     glTextureSubImage2D (tex_id t) 0 (Rect_X r') (Rect_Y r') (Rect_W r')
                       (Rect_H r') (tex_format t) gl_UNSIGNED_BYTE (x :: d')] ++
               (if genMipmap
                then [glBindTexture gl_TEXTURE_2D (tex_id t); glGenerateMipmap gl_TEXTURE_2D;
                      glBindTexture gl_TEXTURE_2D 0]
                else []))).
  { intros r' x d' Hi. unfold SetPixelArea.
    apply SetPixelArea_guard in Hi. rewrite Hi.
    rewrite !gbind_call. destruct genMipmap.
    - unfold Texture_Bind, Texture_Unbind. rewrite !gbind_call. unfold call.
      rewrite <- !app_assoc. reflexivity.
    - unfold gret. rewrite <- !app_assoc. reflexivity. }
  split; [apply Hout|]. split; [|split; [|split; [|split]]].
  - intros Hi ->. unfold SetPixelArea. apply SetPixelArea_guard in Hi. rewrite Hi.
    rewrite gbind_call. reflexivity.
  - intros Hi Hne. destruct d as [|x d']; [contradiction|]. apply Hin. exact Hi.
  - unfold SetPixel. split.
    + intros Hok. destruct (classic_inside t (X p) (Y p)) as [Hi | Hno]; [exact Hi|].
      rewrite (Hout {| Rect_X := X p; Rect_Y := Y p; Rect_W := 1; Rect_H := 1 |} [b] Hno)
        in Hok.
      discriminate Hok.
    + intros Hi.
      rewrite (Hin {| Rect_X := X p; Rect_Y := Y p; Rect_W := 1; Rect_H := 1 |} b [] Hi).
      reflexivity.
  - unfold SetPixel. destruct (classic_inside t (X p) (Y p)) as [Hi | Hno].
    + rewrite (Hin {| Rect_X := X p; Rect_Y := Y p; Rect_W := 1; Rect_H := 1 |} b [] Hi).
      discriminate.
    + rewrite (Hout {| Rect_X := X p; Rect_Y := Y p; Rect_W := 1; Rect_H := 1 |} [b] Hno).
      discriminate.
  - intros Hi. unfold SetPixel.
    rewrite (Hin {| Rect_X := X p; Rect_Y := Y p; Rect_W := 1; Rect_H := 1 |} b [] Hi).
    cbn [snd Rect_X Rect_Y Rect_W Rect_H].
    apply in_or_app. right. right. left. reflexivity.
Qed.

(** A rectangle of 100 by 100 at the last pixel of a texture of 8 by 8
    is passed to the device. *)
Lemma SetPixelArea_checks_origin_only_witness :
  fst (SetPixelArea (texture (mono_font 1 8 6 8 10))
         {| Rect_X := 7; Rect_Y := 759; Rect_W := 100; Rect_H := 100 |} [255] false [])
  = Returns tt.
Proof.
  destruct (SetPixelArea_checks_origin_only (texture (mono_font 1 8 6 8 10))
              {| Rect_X := 7; Rect_Y := 759; Rect_W := 100; Rect_H := 100 |} [255] false
              {| X := 0; Y := 0 |} 0 []) as (_ & _ & Hin & _).
  rewrite Hin.
  - reflexivity.
  - unfold origin_inside. cbn. lia.
  - discriminate.
Defined.

Lemma GetData_run (t : Texture) (pixels : list Z) (l : list glcall) (n : Z) :
  int32 (int32 (tex_width t * tex_height t) * tex_texelSize t) = n -> 0 < n ->
  GetData t pixels l
  = (Returns (take (Z.to_nat n) (pixels ++ replicate (Z.to_nat n) 0)), l ++ GetData_calls t).
Proof.
  intros Hn Hpos. unfold GetData. rewrite Hn.
  destruct (Z.ltb_spec n 0) as [|_]; [lia|].
  unfold Texture_Bind, Texture_Unbind. rewrite !gbind_call.
  destruct (Z.to_nat n) as [|k] eqn:Hk; [lia|].
  cbn [replicate]. rewrite !gbind_call. unfold gret, GetData_calls.
  rewrite <- !app_assoc. reflexivity.
Qed.

(** X17. [GetData] allocates [width*height*texelSize] bytes, an
    [int32] product.  When that is zero or negative (an empty texture,
    or a product that wraps) it panics; otherwise it returns that many
    bytes after binding the texture, setting the pack alignment, reading
    the image and unbinding: what the device wrote, when the device
    wrote that many bytes. *)
Theorem GetData_length (t : Texture) (pixels : list Z) (l : list glcall) :
  let n := int32 (int32 (tex_width t * tex_height t) * tex_texelSize t) in
  (n <= 0 -> fst (GetData t pixels l) = Panics) /\
  (0 < n ->
   exists data,
     GetData t pixels l = (Returns data, l ++ GetData_calls t) /\
     Z.of_nat (length data) = n /\
     (Z.of_nat (length pixels) = n -> data = pixels)) /\
  (0 <= tex_width t -> 0 <= tex_height t -> 0 < tex_texelSize t ->
   tex_width t * tex_height t * tex_texelSize t < 2 ^ 31 ->
   n = tex_width t * tex_height t * tex_texelSize t).
Proof.
  intros n. split; [|split].
  - intros Hn. unfold GetData. fold n.
    destruct (Z.ltb_spec n 0) as [|Hge]; [reflexivity|].
    assert (n = 0) as -> by lia. reflexivity.
  - intros Hpos. eexists. split; [apply (GetData_run t pixels l n); [reflexivity | exact Hpos]|].
    split.
    + rewrite length_take, length_app, length_replicate. lia.
    + intros Hlen. replace (Z.to_nat n) with (length pixels) by lia.
      apply take_app_length.
  - intros Hw Hh Ht Hprod. unfold n.
    assert (tex_width t * tex_height t <= tex_width t * tex_height t * tex_texelSize t) by nia.
    rewrite (int32_small (tex_width t * tex_height t)) by nia.
    apply int32_small. nia.
Qed.

(** A frame buffer texture of no width: [GetData] panics. *)
Lemma GetData_length_witness :
  fst (GetData {| tex_id := 1; tex_width := 0; tex_height := 4; tex_format := 6408;
                  tex_alignment := 4; tex_texelSize := 4 |} [] []) = Panics.
Proof.
  destruct (GetData_length {| tex_id := 1; tex_width := 0; tex_height := 4;
                              tex_format := 6408; tex_alignment := 4; tex_texelSize := 4 |}
              [] []) as (Hpanic & _).
  apply Hpanic. vm_compute. discriminate.
Defined.

(** X18. Reading back the atlas of a font that a call has built, from
    a rasterizer with well-formed rectangles and masks of one stride
    [S], with between 1 and [2^31 - 1] bytes in all: [GetData] on the
    font's texture asks for exactly as many bytes as [LoadFontTexture]
    uploaded, and returns the uploaded bytes when the device returns
    what it was given. *)
Theorem built_font_GetData (env : Env) (fontName : string) (fontSize : Z)
    (w w' : World) (font : FontInfo) (face : Face) (S : Z) (l : list glcall) :
  cache_lookup w (fontName, fontSize) = None ->
  LoadFontTexture env fontName fontSize w = (Ok font, w') ->
  face_of env fontName fontSize = Some face ->
  rects_ok face = true -> stride_ok face S = true ->
  0 < S -> 0 < total_rows face * S < 2 ^ 31 ->
  exists bytes,
    In (EvTexImage2D (tex_id (texture font)) (tex_width (texture font))
                     (tex_height (texture font)) bytes) (trace w') /\
    Z.of_nat (length bytes) = total_rows face * S /\
    GetData (GetTexture font) bytes l
    = (Returns bytes, l ++ GetData_calls (GetTexture font)).
Proof.
  intros Hl Hload Hface Hrect Hstride HS Htotal.
  pose (w1 := {| fontMap := Some match fontMap w with Some m => m | None => ∅ end;
                 trace := trace w |}).
  destruct (build_font_cases env fontName fontSize w1) as (r & evs & Hb & Hcases).
  destruct (LoadFontTexture_miss_run env fontName fontSize w r evs Hl Hb)
    as (w0 & Hload0 & Htr & _).
  rewrite Hload in Hload0. injection Hload0 as <- <-.
  destruct Hcases as [(Hno & _) | (bytes & ttf & s & a & w3 & glyph & Hread & Hparse & _
                                   & Hloop & Hmask & Hne & -> & Hr)].
  { exfalso. apply (Hno font). reflexivity. }
  destruct (s fontSize) as [m | e |]; try discriminate Hr. injection Hr as ->.
  assert (Hface' : face = ttf fontSize).
  { unfold face_of in Hface. rewrite Hread, Hparse in Hface. injection Hface as <-.
    reflexivity. }
  subst face.
  destruct (stride_ok_mask (ttf fontSize) S 33 glyph Hstride ltac:(cbv; lia) Hmask)
    as [HSg Hint].
  assert (Hbytes0 : bytes_inv (ttf fontSize) S 0 empty_atlas) by reflexivity.
  pose proof (glyph_loop_bytes fontName fontSize (ttf fontSize) S numRunes 0 empty_atlas a
                (after_reads fontName w1) w3 ltac:(lia) Hrect Hstride Hloop Hbytes0) as Hbytes.
  unfold bytes_inv in Hbytes. cbn [Nat.add] in Hbytes. rewrite rows_upto_all in Hbytes.
  pose proof (rows_upto_nonneg (ttf fontSize) numRunes Hrect ltac:(lia)) as Hnn.
  rewrite rows_upto_all in Hnn.
  assert (Hrows1 : 1 <= total_rows (ttf fontSize)) by nia.
  assert (HSle : S <= total_rows (ttf fontSize) * S) by nia.
  assert (Hrle : total_rows (ttf fontSize) <= total_rows (ttf fontSize) * S) by nia.
  assert (Hw : tex_width (atlas_texture env glyph a) = S).
  { cbn [atlas_texture tex_width]. rewrite HSg. apply int32_small. lia. }
  assert (Hh : tex_height (atlas_texture env glyph a) = total_rows (ttf fontSize)).
  { cbn [atlas_texture tex_height]. rewrite Hbytes, HSg, Z.quot_mul by lia.
    rewrite int32_int64. apply int32_small. lia. }
  exists (a_glyphBytes a). split; [|split].
  - rewrite Htr. cbn [font_of texture]. apply in_or_app. right.
    apply in_or_app. right. apply in_or_app. right. right. left. reflexivity.
  - exact Hbytes.
  - unfold GetTexture. cbn [font_of texture].
    rewrite (GetData_run _ _ l (total_rows (ttf fontSize) * S)).
    + rewrite <- Hbytes, Nat2Z.id, take_app_length. reflexivity.
    + rewrite Hw, Hh. cbn [atlas_texture tex_texelSize]. rewrite Z.mul_1_r.
      rewrite (Z.mul_comm S). rewrite (int32_small (total_rows (ttf fontSize) * S)) by lia.
      apply int32_small. lia.
    + lia.
Qed.

Lemma built_font_GetData_witness :
  exists font w1 bytes,
    LoadFontTexture (demo_env true) "a.ttf" 12 initial_world = (Ok font, w1) /\
    Z.of_nat (length bytes) = 6080 /\
    fst (GetData (GetTexture font) bytes []) = Returns bytes.
Proof.
  destruct demo_load_Ok as (font & w1 & Hrun).
  destruct (built_font_GetData (demo_env true) "a.ttf" 12 initial_world w1 font
              (demo_face true) 8 []) as (bytes & _ & Hlen & Hget).
  - reflexivity.
  - exact Hrun.
  - reflexivity.
  - vm_compute. reflexivity.
  - vm_compute. reflexivity.
  - lia.
  - assert (HT : total_rows (demo_face true) = 760) by (vm_compute; reflexivity).
    rewrite HT. lia.
  - exists font, w1, bytes. split; [exact Hrun|]. split.
    + assert (HT : total_rows (demo_face true) = 760) by (vm_compute; reflexivity).
      rewrite HT in Hlen. lia.
    + rewrite Hget. reflexivity.
Defined.

(** ** The texture coordinates of a mesh *)

Lemma mesh_ss (gs : list runeInfo) (ox oy : spec_float) :
  vertex_ss (mesh_of gs ox oy) = map F32.of_Z (flat_map glyph_ss gs).
Proof.
  revert ox. induction gs as [|g gs IH]; intros ox; [reflexivity|].
  cbn [mesh_of glyph_triangles app vertex_ss flat_map glyph_ss map]. rewrite IH. reflexivity.
Qed.

Lemma mesh_ts (gs : list runeInfo) (ox oy : spec_float) :
  Forall (fun g => 0 <= row g /\ 0 <= height g /\ row g + height g < 2 ^ 24) gs ->
  vertex_ts (mesh_of gs ox oy) = map F32.of_Z (flat_map glyph_ts gs).
Proof.
  intros Hgs. revert ox. induction Hgs as [|g gs (Hr & Hh & Hsum) _ IH]; intros ox;
    [reflexivity|].
  cbn [mesh_of glyph_triangles app vertex_ts flat_map glyph_ts map]. rewrite IH.
  rewrite F32_add_int by lia. reflexivity.
Qed.

Lemma glyph_of_lookup (font : FontInfo) (b : Z) :
  supported font b = true ->
  runeMap font !! Z.to_nat (b - minASCII) = Some (glyph_of font b).
Proof.
  intros Hb. apply supported_bounds in Hb. unfold glyph_of.
  destruct (runeMap font !! Z.to_nat (b - minASCII)) as [x|] eqn:Hx.
  - rewrite (nth_lookup_Some _ _ _ _ Hx). reflexivity.
  - apply lookup_ge_None in Hx. unfold minASCII in *. lia.
Qed.

(** A built font has one record per character of the range. *)
Lemma LoadFontTexture_Ok_length (env : Env) (fontName : string) (fontSize : Z)
    (w w' : World) (font : FontInfo) :
  cache_lookup w (fontName, fontSize) = None ->
  LoadFontTexture env fontName fontSize w = (Ok font, w') ->
  length (runeMap font) = numRunes.
Proof.
  intros Hl Hload.
  pose (w1 := {| fontMap := Some match fontMap w with Some m => m | None => ∅ end;
                 trace := trace w |}).
  destruct (build_font_cases env fontName fontSize w1) as (r & evs & Hb & Hcases).
  destruct (LoadFontTexture_miss_run env fontName fontSize w r evs Hl Hb)
    as (w0 & Hload0 & _).
  rewrite Hload in Hload0. injection Hload0 as <- <-.
  destruct Hcases as [(Hno & _) | (bytes & ttf & s & a & w3 & glyph & _ & _ & _
                                   & Hloop & _ & _ & _ & Hr)].
  { exfalso. apply (Hno font). reflexivity. }
  destruct (s fontSize) as [m | e |]; try discriminate Hr. injection Hr as ->.
  destruct (glyph_loop_records fontName fontSize (ttf fontSize) numRunes 0 empty_atlas a
              (after_reads fontName w1) w3 (Nat.le_refl _) (length_replicate _ _) Hloop)
    as (Hlen & _). exact Hlen.
Qed.

(** X19. The mesh that [MapString] makes with a font that a call has
    built (rectangles well formed, masks of one stride, fewer than
    [2^24] rows in all), for a non-empty string of supported
    characters: the texture coordinates are whole texels, not
    fractions of the texture; the six vertices of each character carry
    the columns 0 and [width] and the rows [row] and [row + height] of
    that character's glyph, and every row lies between 0 and the height
    of the atlas. *)
Theorem MapString_texture_coordinates (oor : spec_float -> Z) (env : Env)
    (fontName : string) (fontSize : Z) (w w' : World) (font : FontInfo) (face : Face)
    (S : Z) (str : string) (pos : Point) (align : Align) :
  cache_lookup w (fontName, fontSize) = None ->
  LoadFontTexture env fontName fontSize w = (Ok font, w') ->
  face_of env fontName fontSize = Some face ->
  rects_ok face = true -> stride_ok face S = true -> total_rows face < 2 ^ 24 ->
  str <> ""%string -> all_supported font str = true ->
  exists buffer,
    MapString oor font str pos align = Ok buffer /\
    vertex_ss buffer = map F32.of_Z (flat_map glyph_ss (glyphs font str)) /\
    vertex_ts buffer = map F32.of_Z (flat_map glyph_ts (glyphs font str)) /\
    Forall (fun t => 0 <= t <= tex_height (texture font))
           (flat_map glyph_ts (glyphs font str)).
Proof.
  intros Hl Hload Hface Hrect Hstride Htotal Hne Hs.
  destruct (built_rows_inside env fontName fontSize w w' font face S Hl Hload Hface Hrect
              Hstride ltac:(lia)) as (Hin & _ & _).
  assert (Hh : tex_height (texture font) < 2 ^ 24).
  { rewrite (LoadFontTexture_miss env _ _ _ Hl) in Hload. cbv zeta in Hload.
    destruct (build_font env fontName fontSize _) as [[f | e |] wb] eqn:Hb;
      [| discriminate Hload | discriminate Hload].
    injection Hload as <- <-.
    rewrite (build_font_height _ _ _ _ _ _ _ _ Hb Hface Hrect Hstride).
    pose proof (rows_upto_nonneg face numRunes Hrect ltac:(lia)) as Hnn.
    rewrite rows_upto_all in Hnn. rewrite int32_small by lia. exact Htotal. }
  assert (Hgs : Forall (fun g => 0 <= row g /\ 0 <= height g /\
                                 row g + height g <= tex_height (texture font))
                       (glyphs font str)).
  { unfold glyphs. apply Forall_map. apply all_supported_Forall in Hs.
    eapply Forall_impl; [exact Hs|]. intros b Hb. cbn beta.
    apply (Hin _ _ (glyph_of_lookup font b Hb)). }
  rewrite (MapString_supported oor font str pos align Hne Hs).
  eexists. split; [reflexivity|]. split; [apply mesh_ss|]. split.
  - apply mesh_ts. eapply Forall_impl; [exact Hgs|]. intros g (H1 & H2 & H3). cbn beta. lia.
  - apply Forall_flat_map. eapply Forall_impl; [exact Hgs|].
    intros g (H1 & H2 & H3). unfold glyph_ts. repeat constructor; lia.
Qed.

Lemma MapString_texture_coordinates_witness :
  exists font w1 buffer,
    LoadFontTexture (demo_env true) "a.ttf" 12 initial_world = (Ok font, w1) /\
    MapString oor_amd64 font "A" {| X := 0; Y := 0 |} {| V := AlignMiddle; H := AlignLeft |}
    = Ok buffer /\
    vertex_ts buffer = map F32.of_Z (flat_map glyph_ts (glyphs font "A")).
Proof.
  destruct demo_load_Ok as (font & w1 & Hrun).
  destruct (MapString_texture_coordinates oor_amd64 (demo_env true) "a.ttf" 12
              initial_world w1 font (demo_face true) 8 "A" {| X := 0; Y := 0 |}
              {| V := AlignMiddle; H := AlignLeft |}) as (buffer & Hmap & _ & Hts & _).
  - reflexivity.
  - exact Hrun.
  - reflexivity.
  - vm_compute. reflexivity.
  - vm_compute. reflexivity.
  - vm_compute. reflexivity.
  - intros Heq. discriminate Heq.
  - pose proof (LoadFontTexture_Ok_length (demo_env true) "a.ttf" 12 initial_world w1 font
                  eq_refl Hrun) as Hlen.
    unfold all_supported. cbn [str_bytes forallb]. unfold supported. rewrite Hlen.
    reflexivity.
  - exists font, w1, buffer. split; [exact Hrun|]. split; [exact Hmap | exact Hts].
Defined.

(** ** Vertical placement *)

(** Halving in [float32] is exact. *)
Lemma F32_half_fl (M E : Z) :
  Z.abs M < 2 ^ 24 -> -100 <= E <= 100 ->
  F32.div (fl 24 128 M E) (F32.of_Z 2) = fl 24 128 M (E - 1).
Proof.
  intros HM HE. destruct (Z.eq_dec M 0) as [->|HM0]; [reflexivity|].
  assert (HF : fits 24 128 M E) by (apply fits32_dyadic; lia).
  assert (HF' : fits 24 128 M (E - 1)) by (apply fits32_dyadic; lia).
  rewrite (fl_finite 24 128 M E), (fl_finite 24 128 M (E - 1)) by assumption.
  change (F32.of_Z 2) with (S754_finite false 8388608 (-22)).
  unfold F32.div. cbn [SFdiv]. unfold SFdiv_core_binary.
  cbn [Zdigits2]. rewrite (cmant_digits 24 128 M E) by assumption.
  change (Z.pos (digits2_pos 8388608)) with 24.
  set (c := cexp 24 M E).
  assert (Hc : -124 <= c <= 100).
  { unfold c, cexp. destruct HF as (Hd & _). pose proof (Zdigits2_pos_lt M HM0). lia. }
  change F32.prec with 24. change F32.emax with 128.
  replace (24 + c - (24 + -22)) with (c + 22) by lia.
  assert (Hfexp : fexp 24 128 (c + 22) = c - 2) by (unfold fexp, emin; lia).
  rewrite Hfexp. rewrite Z.min_l by lia.
  replace (c - -22 - (c - 2)) with 24 by lia.
  rewrite Z.shiftl_mul_pow2 by lia.
  assert (Hdiv : Z.div_eucl (Z.pos (cmant 24 M) * 2 ^ 24) 8388608
                 = (Z.pos (cmant 24 M) * 2, 0)).
  { pose proof (Z_div_mod (Z.pos (cmant 24 M) * 2 ^ 24) 8388608 ltac:(lia)) as Hdm.
    destruct (Z.div_eucl (Z.pos (cmant 24 M) * 2 ^ 24) 8388608) as [q r].
    destruct Hdm as [Heq Hr].
    change (2 ^ 24) with (8388608 * 2) in Heq.
    assert (r = 0) by lia. subst r. f_equal. lia. }
  rewrite Hdiv.
  change (new_location 8388608 0) with loc_Exact.
  rewrite xorb_false_r.
  change (Z.pos (cmant 24 M) * 2) with (Z.pos (cmant 24 M * 2)).
  assert (Hce : cexp 24 M (E - 1) = c - 1) by (unfold c, cexp; lia).
  rewrite Hce.
  apply (binary_round_aux_exact 24 128).
  - rewrite <- Hce. apply cmant_bounded; assumption.
  - lia.
  - replace (c - 1 - (c - 2)) with 1 by lia. rewrite Pos2Z.inj_mul. reflexivity.
Qed.

(** [math.Ceil] of a positive value that [float64] holds exactly. *)
Lemma F64_Ceil_fl_pos (M E : Z) :
  0 < M -> fits 53 1024 M E -> E <= 0 ->
  F64.Ceil (fl 53 1024 M E) = F64.of_Z ((M + 2 ^ (- E) - 1) / 2 ^ (- E)).
Proof.
  intros HM HF HE. rewrite (fl_finite 53 1024) by (lia || assumption). unfold F64.Ceil.
  change F64.prec with 53. change F64.emax with 1024.
  pose proof (cmant_spec 53 1024 M E ltac:(lia) HF) as Hn. pose proof HF as (Hd & _ & _).
  pose proof (pow2_pos (- E) ltac:(lia)) as HpE.
  pose proof (pow2_pos (53 - Zdigits2 M) ltac:(lia)) as Hpd.
  rewrite Z.abs_eq in Hn by lia.
  replace (M <? 0) with false by (symmetry; apply Z.ltb_ge; lia).
  unfold cexp in *. destruct (Z.leb_spec 0 (E - (53 - Zdigits2 M))) as [Hc|Hc].
  - assert (E = 0) by lia. subst E. change (2 ^ (- 0)) with 1.
    replace (M + 1 - 1) with M by lia. rewrite Z.div_1_r.
    rewrite F64_of_Z_fl, (fl_finite 53 1024 M 0) by (lia || assumption). unfold cexp.
    replace (M <? 0) with false by (symmetry; apply Z.ltb_ge; lia). reflexivity.
  - rewrite Z.shiftr_div_pow2, Z.land_ones by lia. rewrite Hn.
    replace (- (E - (53 - Zdigits2 M))) with ((- E) + (53 - Zdigits2 M)) by lia.
    rewrite pow2_split by lia.
    rewrite Z.div_mul_cancel_r by lia.
    rewrite Z.mul_mod_distr_r by lia.
    cbn [cond_Zopp]. unfold F64.of_Z. f_equal.
    pose proof (Z.div_mod M (2 ^ (- E)) ltac:(lia)) as Hdm.
    pose proof (Z.mod_pos_bound M (2 ^ (- E)) HpE) as Hr.
    destruct (Z.eqb_spec ((M mod 2 ^ (- E)) * 2 ^ (53 - Zdigits2 M)) 0) as [Hz | Hnz].
    + assert (M mod 2 ^ (- E) = 0) by nia.
      apply (Z.div_unique _ _ _ (2 ^ (- E) - 1)); lia.
    + assert (M mod 2 ^ (- E) <> 0) by nia.
      apply (Z.div_unique _ _ _ (M mod 2 ^ (- E) - 1)); lia.
Qed.

Lemma of_Z_128 (z : Z) : Z.abs z < 2 ^ 24 -> F32.of_Z z = fl 24 128 (128 * z) (-7).
Proof.
  intros Hz. rewrite F32_of_Z_fl. symmetry.
  apply (fl_same 24 128 (128 * z) (-7) z 0 (-7)); [apply fits32_int; exact Hz | lia | lia |].
  change (2 ^ (-7 - -7)) with 1. change (2 ^ (0 - -7)) with 128. lia.
Qed.

Lemma F32_add_128 (a b : Z) :
  Z.abs a < 2 ^ 24 -> Z.abs b < 2 ^ 24 -> Z.abs (a + b) < 2 ^ 24 ->
  F32.add (fl 24 128 a (-7)) (fl 24 128 b (-7)) = fl 24 128 (a + b) (-7).
Proof.
  intros Ha Hb Hab. unfold F32.add. change F32.prec with 24. change F32.emax with 128.
  apply (SFadd_exact 24 128 a (-7) b (-7) (a + b) (-7) (-7));
    try (apply fits32_dyadic; lia); try lia.
Qed.

Lemma F32_sub_128 (a b : Z) :
  Z.abs a < 2 ^ 24 -> Z.abs b < 2 ^ 24 -> Z.abs (a - b) < 2 ^ 24 ->
  F32.sub (fl 24 128 a (-7)) (fl 24 128 b (-7)) = fl 24 128 (a - b) (-7).
Proof.
  intros Ha Hb Hab. unfold F32.sub. change F32.prec with 24. change F32.emax with 128.
  apply (SFsub_exact 24 128 a (-7) b (-7) (a - b) (-7) (-7));
    try (apply fits32_dyadic; lia); try lia.
Qed.

(** A positive 26.6 metric, as [LoadFontTexture] stores it, and its
    ceiling as [MapString] computes it. *)
Lemma metric_exact (a : Z) :
  0 < a < 2 ^ 21 -> int26_6ToFloat32 a = fl 24 128 a (-6).
Proof.
  intros Ha.
  rewrite (int26_6ToFloat32_exact a a 0 ltac:(apply is_int32_small; lia) ltac:(lia)
             ltac:(cbn; lia) ltac:(lia)).
  reflexivity.
Qed.

Lemma metric_ceil (a : Z) :
  0 < a < 2 ^ 21 ->
  F64.to_f32 (F64.Ceil (F64.of_f32 (int26_6ToFloat32 a))) = F32.of_Z ((a + 63) / 64) /\
  1 <= (a + 63) / 64 <= 2 ^ 15.
Proof.
  intros Ha.
  assert (Hc : 1 <= (a + 63) / 64 <= 2 ^ 15).
  { pose proof (Z.div_mod (a + 63) 64 ltac:(lia)) as Hdm.
    pose proof (Z.mod_pos_bound (a + 63) 64 ltac:(lia)) as Hr. lia. }
  split; [|exact Hc].
  rewrite metric_exact by exact Ha.
  rewrite F64_of_f32_exact by (apply fits32_dyadic || apply fits64_int; lia).
  rewrite F64_Ceil_fl_pos by (try apply fits64_int; lia).
  change (2 ^ (- -6)) with 64. replace (a + 64 - 1) with (a + 63) by lia.
  apply F64_to_f32_int. lia.
Qed.

(** Lines 109-117 in units of 1/128 pixel. *)
Lemma offy_of_128 (font : FontInfo) (alignV asc desc xh : Z) :
  Ascent (font_metrics font) = int26_6ToFloat32 asc ->
  Descent (font_metrics font) = int26_6ToFloat32 desc ->
  XHeight (font_metrics font) = int26_6ToFloat32 xh ->
  0 < asc < 2 ^ 21 -> 0 < desc < 2 ^ 21 -> 0 < xh < 2 ^ 21 ->
  offy_of font alignV = fl 24 128 (voffset128 alignV asc desc xh) (-7) /\
  Z.abs (voffset128 alignV asc desc xh) <= 2 ^ 22.
Proof.
  intros HA HD HX Hasc Hdesc Hxh. unfold offy_of, voffset128. rewrite HA, HD, HX.
  destruct (metric_ceil asc Hasc) as [Hca Hba].
  destruct (metric_ceil desc Hdesc) as [Hcd Hbd].
  destruct (alignV =? AlignBelow); [|destruct (alignV =? AlignMiddle);
                                      [|destruct (alignV =? AlignAbove)]].
  - rewrite Hca. split; [|lia]. rewrite F32_of_Z_fl.
    rewrite (fl_opp 24 128) by (try apply fits32_int; lia).
    rewrite <- F32_of_Z_fl, of_Z_128 by lia. f_equal. lia.
  - split; [|lia]. rewrite metric_exact by exact Hxh.
    rewrite (fl_opp 24 128) by (try apply fits32_dyadic; lia).
    rewrite F32_half_fl by lia. reflexivity.
  - rewrite Hcd. split; [|lia]. apply of_Z_128. lia.
  - split; [reflexivity | cbn; lia].
Qed.

Lemma mesh_ys (gs : list runeInfo) (tops : list Z) (ox : spec_float) (base : Z) :
  Forall2 whole_bearingY gs tops -> Z.abs base < 2 ^ 23 ->
  vertex_ys (mesh_of gs ox (fl 24 128 base (-7)))
  = map (fun n => fl 24 128 n (-7)) (layout_ys128 gs tops base) /\
  Forall (fun n => Z.abs n < 2 ^ 24 /\ (base mod 128 = 0 -> n mod 128 = 0))
         (layout_ys128 gs tops base).
Proof.
  intros Hgs Hbase. revert ox.
  induction Hgs as [|g top gs tops (Htop & Habs & Hh) _ IH]; intros ox.
  - split; [reflexivity | constructor].
  - destruct (IH (F32.add ox (advance g))) as [IHys IHall].
    assert (Hb : F32.sub (fl 24 128 base (-7)) (bearingY g)
                 = fl 24 128 (base - 128 * top) (-7)).
    { rewrite Htop, of_Z_128 by lia. apply F32_sub_128; lia. }
    assert (Ht : F32.add (fl 24 128 base (-7))
                   (F32.sub (F32.of_Z (height g)) (bearingY g))
                 = fl 24 128 (base - 128 * top + 128 * height g) (-7)).
    { rewrite Htop, F32_sub_int by lia. rewrite of_Z_128 by lia.
      rewrite F32_add_128 by lia. f_equal. lia. }
    split.
    + cbn [mesh_of glyph_triangles app vertex_ys layout_ys128 quad_ys128 map].
      rewrite Hb, Ht, IHys. reflexivity.
    + cbn [layout_ys128 quad_ys128 app].
      assert (Hdiv : forall n k, base mod 128 = 0 -> n = base + 128 * k -> n mod 128 = 0).
      { intros n k H0 ->. rewrite (Z.mul_comm 128 k), Z.mod_add by lia. exact H0. }
      repeat (apply Forall_cons; split;
              [split; [lia | intros H0;
                             first [apply (Hdiv _ (- top) H0); lia
                                   | apply (Hdiv _ (height g - top) H0); lia]]|]).
      exact IHall.
Qed.

Lemma alignV_cases (v : Z) :
  v = AlignBelow \/ v = AlignMiddle \/ v = AlignAbove \/
  ((v =? AlignBelow) = false /\ (v =? AlignMiddle) = false /\ (v =? AlignAbove) = false).
Proof.
  unfold AlignBelow, AlignMiddle, AlignAbove.
  destruct (Z.eqb_spec v 1) as [|H1]; [left; assumption|].
  destruct (Z.eqb_spec v 0) as [|H0]; [right; left; assumption|].
  destruct (Z.eqb_spec v (-1)) as [|Hm]; [right; right; left; assumption|].
  right. right. right. repeat split; reflexivity.
Qed.

(** X20. The vertical placement of a mesh, for a font whose ascent,
    descent and x-height are positive 26.6 metrics (as [LoadFontTexture]
    stores them) and whose glyph bearings are whole numbers.
    [AlignBelow] lowers the origin by the ascent rounded up to a whole
    pixel, [AlignAbove] raises it by the descent rounded up,
    [AlignMiddle] lowers it by half the x-height, not rounded, and any
    other value of [align.V] leaves it at [pos.Y].  Every glyph has its
    bottom vertices at the origin less its bearing and its top vertices
    higher by its height: exactly, in units of 1/128 pixel, and in whole
    pixels unless the alignment is [AlignMiddle]. *)
Theorem MapString_vertical (oor : spec_float -> Z) (font : FontInfo) (str : string)
    (pos : Point) (align : Align) (asc desc xh : Z) (tops : list Z) :
  str <> ""%string -> all_supported font str = true ->
  Ascent (font_metrics font) = int26_6ToFloat32 asc ->
  Descent (font_metrics font) = int26_6ToFloat32 desc ->
  XHeight (font_metrics font) = int26_6ToFloat32 xh ->
  0 < asc < 2 ^ 21 -> 0 < desc < 2 ^ 21 -> 0 < xh < 2 ^ 21 ->
  Z.abs (Y pos) < 2 ^ 15 ->
  Forall2 whole_bearingY (glyphs font str) tops ->
  let ys := layout_ys128 (glyphs font str) tops
              (128 * Y pos + voffset128 (V align) asc desc xh) in
  exists buffer,
    MapString oor font str pos align = Ok buffer /\
    vertex_ys buffer = map (fun n => fl 24 128 n (-7)) ys /\
    (V align <> AlignMiddle ->
     vertex_ys buffer = map F32.of_Z (map (fun n => n / 128) ys)).
Proof.
  intros Hne Hs HA HD HX Hasc Hdesc Hxh HY Htops ys.
  destruct (offy_of_128 font (V align) asc desc xh HA HD HX Hasc Hdesc Hxh) as [Hoff Hob].
  rewrite (MapString_supported oor font str pos align Hne Hs).
  eexists. split; [reflexivity|].
  rewrite Hoff, (of_Z_128 (Y pos)) by lia. rewrite F32_add_128 by lia.
  match goal with |- context [mesh_of _ ?ox _] => set (originx := ox) end.
  destruct (mesh_ys (glyphs font str) tops originx
              (128 * Y pos + voffset128 (V align) asc desc xh) Htops ltac:(lia))
    as [Hys Hall].
  split; [exact Hys|]. intros Hmid. rewrite Hys. fold ys in Hall |- *.
  assert (Hbase : (128 * Y pos + voffset128 (V align) asc desc xh) mod 128 = 0).
  { unfold voffset128.
    destruct (alignV_cases (V align)) as [Hv | [Hv | [Hv | (H1 & H2 & H3)]]].
    - rewrite Hv. change (AlignBelow =? AlignBelow) with true. cbv iota.
      apply Z.mod_divide; [lia|]. exists (Y pos - (asc + 63) / 64). lia.
    - exfalso. apply Hmid. exact Hv.
    - rewrite Hv. change (AlignAbove =? AlignBelow) with false.
      change (AlignAbove =? AlignMiddle) with false.
      change (AlignAbove =? AlignAbove) with true. cbv iota.
      apply Z.mod_divide; [lia|]. exists (Y pos + (desc + 63) / 64). lia.
    - rewrite H1, H2, H3. apply Z.mod_divide; [lia|]. exists (Y pos). lia. }
  rewrite map_map. apply map_ext_Forall.
  eapply Forall_impl; [exact Hall|]. intros n [Hn Hdiv]. cbn beta.
  specialize (Hdiv Hbase).
  pose proof (Z.div_mod n 128 ltac:(lia)) as Hdm. rewrite Hdiv in Hdm.
  rewrite of_Z_128 by lia. f_equal. lia.
Qed.

Lemma MapString_vertical_witness :
  exists buffer,
    MapString oor_amd64 demo_font "Hi" {| X := 100; Y := 50 |}
              {| V := AlignBelow; H := AlignLeft |} = Ok buffer /\
    vertex_ys buffer = map F32.of_Z [32; 40; 40; 32; 40; 32; 32; 40; 40; 32; 40; 32].
Proof.
  destruct (MapString_vertical oor_amd64 demo_font "Hi" {| X := 100; Y := 50 |}
              {| V := AlignBelow; H := AlignLeft |} 600 168 320 [8; 8])
    as (buffer & Hmap & _ & Hwhole).
  - intros Heq. discriminate Heq.
  - reflexivity.
  - reflexivity.
  - reflexivity.
  - reflexivity.
  - lia.
  - lia.
  - lia.
  - cbn. lia.
  - assert (Hg : glyphs demo_font "Hi" = [mono_glyph 1 8 6 8 10; mono_glyph 1 8 6 8 10])
      by reflexivity.
    rewrite Hg. unfold whole_bearingY.
    repeat (apply Forall2_cons; split; [split; [reflexivity | cbn; lia]|]).
    apply Forall2_nil_2.
  - exists buffer. split; [exact Hmap|]. rewrite Hwhole by discriminate. reflexivity.
Defined.

(** ** The upload stays inside the bytes handed over *)

Lemma int32_range (z : Z) : - 2 ^ 31 <= int32 z < 2 ^ 31.
Proof.
  unfold int32, wrap. change (2 ^ (32 - 1)) with (2 ^ 31).
  pose proof (Z.mod_pos_bound (z + 2 ^ 31) (2 ^ 32) ltac:(lia)) as Hb.
  change (2 ^ 32) with (2 * 2 ^ 31) in *. lia.
Qed.

Lemma int32_le (z : Z) : 0 <= z -> int32 z <= z.
Proof.
  intros Hz. destruct (Z.lt_ge_cases z (2 ^ 31)) as [Hlt | Hge].
  - rewrite int32_small by lia. lia.
  - pose proof (int32_range z). lia.
Qed.

Lemma int64_small (z : Z) : - 2 ^ 63 <= z < 2 ^ 63 -> int64 z = z.
Proof.
  intros Hz. unfold int64, wrap. change (2 ^ (64 - 1)) with (2 ^ 63).
  rewrite Z.mod_small by (change (2 ^ 64) with (2 * 2 ^ 63); lia). lia.
Qed.

(** X21. Whatever the rasterizer returns (masks of different strides
    included), the texture that a successful build uploads never asks
    the device for more than it is given: when the stride of the mask
    of ['A'] is positive and the width and the height passed to
    [NewTexture] are positive, width times height, one byte a texel, is
    at most the number of bytes uploaded. *)
Theorem LoadFontTexture_upload_within_bytes (env : Env) (fontName : string)
    (fontSize : Z) (w w' : World) (font : FontInfo) (bytes : list Z) (ttf : ttfFont)
    (glyph : Alpha) :
  cache_lookup w (fontName, fontSize) = None ->
  LoadFontTexture env fontName fontSize w = (Ok font, w') ->
  ReadFile env fontName = Ok bytes -> truetype_Parse env bytes = Ok ttf ->
  g_mask (Glyph (ttf fontSize) 65) = Some glyph -> 0 < Stride glyph ->
  exists data,
    In (EvTexImage2D (tex_id (texture font)) (tex_width (texture font))
                     (tex_height (texture font)) data) (trace w') /\
    tex_texelSize (texture font) = 1 /\ tex_alignment (texture font) = 1 /\
    (Z.of_nat (length data) < 2 ^ 63 ->
     0 < tex_width (texture font) -> 0 < tex_height (texture font) ->
     tex_width (texture font) * tex_height (texture font) <= Z.of_nat (length data)).
Proof.
  intros Hl Hload Hread Hparse Hmask HS.
  pose (w1 := {| fontMap := Some match fontMap w with Some m => m | None => ∅ end;
                 trace := trace w |}).
  destruct (build_font_cases env fontName fontSize w1) as (r & evs & Hb & Hcases).
  destruct (LoadFontTexture_miss_run env fontName fontSize w r evs Hl Hb)
    as (w0 & Hload0 & Htr & _).
  rewrite Hload in Hload0. injection Hload0 as <- <-.
  destruct Hcases as [(Hno & _) | (bytes' & ttf' & s & a & w3 & glyph' & Hread' & Hparse' & _
                                   & _ & Hmask' & _ & -> & Hr)].
  { exfalso. apply (Hno font). reflexivity. }
  rewrite Hread in Hread'. injection Hread' as <-.
  rewrite Hparse in Hparse'. injection Hparse' as <-.
  rewrite Hmask in Hmask'. injection Hmask' as <-.
  destruct (s fontSize) as [m | e |]; try discriminate Hr. injection Hr as ->.
  cbn [font_of texture atlas_texture tex_id tex_width tex_height tex_texelSize
       tex_alignment].
  exists (a_glyphBytes a). split; [|split; [reflexivity|split; [reflexivity|]]].
  - rewrite Htr. apply in_or_app. right. apply in_or_app. right. apply in_or_app. right.
    right. left. reflexivity.
  - intros Hlen Hw Hh.
    set (n := Z.of_nat (length (a_glyphBytes a))) in *.
    assert (Hq : 0 <= Z.quot n (Stride glyph) <= n).
    { rewrite Z.quot_div_nonneg by lia. split; [apply Z.div_pos; lia|].
      apply Z.div_le_upper_bound; [lia | nia]. }
    rewrite int64_small in Hh |- * by lia.
    pose proof (int32_le (Stride glyph) ltac:(lia)) as Hwle.
    pose proof (int32_le (Z.quot n (Stride glyph)) ltac:(lia)) as Hhle.
    assert (Hmul : Stride glyph * Z.quot n (Stride glyph) <= n).
    { rewrite Z.quot_div_nonneg by lia. apply Z.mul_div_le. lia. }
    nia.
Qed.

Lemma LoadFontTexture_upload_within_bytes_witness :
  exists font w1 data,
    LoadFontTexture (demo_env true) "a.ttf" 12 initial_world = (Ok font, w1) /\
    In (EvTexImage2D (tex_id (texture font)) (tex_width (texture font))
                     (tex_height (texture font)) data) (trace w1) /\
    tex_texelSize (texture font) = 1.
Proof.
  destruct demo_load_Ok as (font & w1 & Hrun).
  destruct (LoadFontTexture_upload_within_bytes (demo_env true) "a.ttf" 12 initial_world
              w1 font [0; 1; 0; 0] (fun _ => demo_face true)
              {| Pix := replicate 64%nat 65; Stride := 8 |})
    as (data & Hin & Htexel & _).
  - reflexivity.
  - exact Hrun.
  - reflexivity.
  - reflexivity.
  - reflexivity.
  - cbn. lia.
  - exists font, w1, data. split; [exact Hrun|]. split; [exact Hin | exact Htexel].
Defined.
